(** * Gmail MCP server: MIME codec, batch engine, listing cap and OAuth2
      credential handling of [gmail/src/index.ts]

    The development follows the TypeScript source function by function.
    JavaScript strings are represented by their UTF-8 bytes ([string] of
    the Standard Library, one [ascii] per byte), so [Buffer.from(s)] is the
    byte sequence itself.  Calls into Node and the Google client libraries
    ([url.parse], [JSON.parse], the remote gateway) are section variables:
    every theorem holds whatever those functions compute. *)

From Stdlib Require Import QArith Qround Lqa.
From Stdlib Require Import ZArith NArith Lia Bool Ascii String DecimalString.
From stdpp Require Import base list strings gmap.

Local Open Scope bool_scope.
Local Set Warnings "-register-all,-notation-for-abbreviation".

(** stdpp blocks the unfolding of string append; the byte-level proofs
    below compute with it. *)
Global Arguments String.append !_ _ / : simpl nomatch.

(** ** JavaScript values used throughout *)

Module Js.

(** [s1 === s2] on strings. *)
Definition str_eq (s1 s2 : string) : bool := String.eqb s1 s2.

(** Truthiness of a [string | undefined]: [undefined] and the empty string
    are falsy. *)
Definition truthy (o : option string) : bool :=
  match o with
  | Some s => negb (str_eq s "")
  | None => false
  end.

(** [a || b] where [a : string | undefined] and [b : string]. *)
Definition or_else (a : option string) (b : string) : string :=
  match a with
  | Some s => if str_eq s "" then b else s
  | None => b
  end.

(** [xs.join(sep)]. *)
Fixpoint join (sep : string) (xs : list string) : string :=
  match xs with
  | [] => ""
  | [x] => x
  | x :: rest => x +:+ sep +:+ join sep rest
  end.

Definition LF : ascii := "010"%char.
Definition nl : string := String LF "".

(** The double quote character, and a text between double quotes. *)
Definition DQ : ascii := "034"%char.
Definition quoted (s : string) : string := String DQ (s +:+ String DQ "").

(** Template-literal rendering of a non-negative integer. *)
Definition show_N (n : N) : string := NilZero.string_of_uint (N.to_uint n).
Definition show_nat (n : nat) : string := show_N (N.of_nat n).

(** [s.replace(/c/g, d)] for single characters, and [s.replace(/c/g, '')]. *)
Fixpoint replace_all (c d : ascii) (s : string) : string :=
  match s with
  | EmptyString => EmptyString
  | String x rest =>
      String (if Ascii.eqb x c then d else x) (replace_all c d rest)
  end.

Fixpoint remove_all (c : ascii) (s : string) : string :=
  match s with
  | EmptyString => EmptyString
  | String x rest =>
      if Ascii.eqb x c then remove_all c rest else String x (remove_all c rest)
  end.

(** [s.startsWith(p)]. *)
Definition startsWith (s p : string) : bool := String.prefix p s.

(** [xs.slice(start, end)], with JavaScript's treatment of negative and
    out-of-range positions. *)
Definition relative (len pos : Z) : Z :=
  if (pos <? 0)%Z then Z.max (len + pos) 0 else Z.min pos len.

Definition slice {A} (xs : list A) (start stop : Z) : list A :=
  let len := Z.of_nat (length xs) in
  let k := relative len start in
  let final := relative len stop in
  take (Z.to_nat (Z.max (final - k) 0)) (drop (Z.to_nat k) xs).

(** What a [catch (error)] block reads off the thrown value:
    [error instanceof Error ? error.message : 'Unknown error']. *)
Definition thrown : Type := string.

End Js.

(** ** Base64 as [Buffer.prototype.toString('base64')] produces it *)

Module Base64.

(** Six bits, most significant first. *)
Inductive sextet : Type := Sextet (x5 x4 x3 x2 x1 x0 : bool).

Definition index (s : sextet) : nat :=
  let '(Sextet x5 x4 x3 x2 x1 x0) := s in
  nat_of_ascii (Ascii x0 x1 x2 x3 x4 x5 false false).

Definition of_index (n : nat) : sextet :=
  let '(Ascii x0 x1 x2 x3 x4 x5 _ _) := ascii_of_nat n in
  Sextet x5 x4 x3 x2 x1 x0.

Definition alphabet : string :=
  "ABCDEFGHIJKLMNOPQRSTUVWXYZabcdefghijklmnopqrstuvwxyz0123456789+/".

Definition url_alphabet : string :=
  "ABCDEFGHIJKLMNOPQRSTUVWXYZabcdefghijklmnopqrstuvwxyz0123456789-_".

Definition pad : ascii := "="%char.

Definition char_in (abc : string) (s : sextet) : ascii :=
  match String.get (index s) abc with
  | Some c => c
  | None => pad
  end.

Fixpoint position (c : ascii) (abc : string) : option nat :=
  match abc with
  | EmptyString => None
  | String x rest =>
      if Ascii.eqb x c then Some 0 else option_map S (position c rest)
  end.

Definition value_in (abc : string) (c : ascii) : option sextet :=
  option_map of_index (position c abc).

(** The four sextets of a full three-byte group, and those of the one- and
    two-byte tails (missing bits are zero). *)
Definition group3 (a b c : ascii) : sextet * sextet * sextet * sextet :=
  let '(Ascii a0 a1 a2 a3 a4 a5 a6 a7) := a in
  let '(Ascii b0 b1 b2 b3 b4 b5 b6 b7) := b in
  let '(Ascii c0 c1 c2 c3 c4 c5 c6 c7) := c in
  (Sextet a7 a6 a5 a4 a3 a2, Sextet a1 a0 b7 b6 b5 b4,
   Sextet b3 b2 b1 b0 c7 c6, Sextet c5 c4 c3 c2 c1 c0).

Definition zero : ascii := Ascii.zero.

(** Encoder over an alphabet; [padding] says whether the tail is filled up
    with [=] to a multiple of four characters. *)
Fixpoint encode_with (abc : string) (padding : bool) (bs : string) : string :=
  match bs with
  | EmptyString => EmptyString
  | String a EmptyString =>
      let '(s0, s1, _, _) := group3 a zero zero in
      String (char_in abc s0) (String (char_in abc s1)
        (if padding then String pad (String pad EmptyString) else EmptyString))
  | String a (String b EmptyString) =>
      let '(s0, s1, s2, _) := group3 a b zero in
      String (char_in abc s0) (String (char_in abc s1) (String (char_in abc s2)
        (if padding then String pad EmptyString else EmptyString)))
  | String a (String b (String c rest)) =>
      let '(s0, s1, s2, s3) := group3 a b c in
      String (char_in abc s0) (String (char_in abc s1)
        (String (char_in abc s2) (String (char_in abc s3)
          (encode_with abc padding rest))))
  end.

(** [buf.toString('base64')]: the standard alphabet, padded. *)
Definition toString_base64 (bs : string) : string := encode_with alphabet true bs.

(** RFC 4648 section 5 without padding, written directly. *)
Definition base64url (bs : string) : string := encode_with url_alphabet false bs.

(** Bytes back from sextets. *)
Definition bytes3 (s0 s1 s2 s3 : sextet) : ascii * ascii * ascii :=
  let '(Sextet a7 a6 a5 a4 a3 a2) := s0 in
  let '(Sextet a1 a0 b7 b6 b5 b4) := s1 in
  let '(Sextet b3 b2 b1 b0 c7 c6) := s2 in
  let '(Sextet c5 c4 c3 c2 c1 c0) := s3 in
  (Ascii a0 a1 a2 a3 a4 a5 a6 a7, Ascii b0 b1 b2 b3 b4 b5 b6 b7,
   Ascii c0 c1 c2 c3 c4 c5 c6 c7).

Definition sextet0 : sextet := Sextet false false false false false false.

(** A decoder for unpadded URL-safe base64 (the receiving side of the
    payload): four characters give three bytes, a tail of two or three
    characters gives one or two bytes, a tail of one character is refused. *)
Fixpoint decode_url (s : string) : option string :=
  let v := value_in url_alphabet in
  match s with
  | EmptyString => Some EmptyString
  | String _ EmptyString => None
  | String c0 (String c1 EmptyString) =>
      match v c0, v c1 with
      | Some s0, Some s1 =>
          let '(a, _, _) := bytes3 s0 s1 sextet0 sextet0 in
          Some (String a EmptyString)
      | _, _ => None
      end
  | String c0 (String c1 (String c2 EmptyString)) =>
      match v c0, v c1, v c2 with
      | Some s0, Some s1, Some s2 =>
          let '(a, b, _) := bytes3 s0 s1 s2 sextet0 in
          Some (String a (String b EmptyString))
      | _, _, _ => None
      end
  | String c0 (String c1 (String c2 (String c3 rest))) =>
      match v c0, v c1, v c2, v c3, decode_url rest with
      | Some s0, Some s1, Some s2, Some s3, Some tail =>
          let '(a, b, c) := bytes3 s0 s1 s2 s3 in
          Some (String a (String b (String c tail)))
      | _, _, _, _, _ => None
      end
  end.

(** *** Facts about the encoder and the decoder *)

Lemma value_char_url (s : sextet) :
  value_in url_alphabet (char_in url_alphabet s) = Some s.
Proof. destruct s as [[] [] [] [] [] []]; vm_compute; reflexivity. Qed.

Lemma char_not_pad (s : sextet) : Ascii.eqb (char_in alphabet s) pad = false.
Proof. destruct s as [[] [] [] [] [] []]; vm_compute; reflexivity. Qed.

(** The three character substitutions of [createEmailMessage] on one
    character of the standard alphabet. *)
Definition url_char (c : ascii) : ascii :=
  let c := if Ascii.eqb c "+"%char then "-"%char else c in
  if Ascii.eqb c "/"%char then "_"%char else c.

Lemma url_char_in (s : sextet) :
  url_char (char_in alphabet s) = char_in url_alphabet s.
Proof. destruct s as [[] [] [] [] [] []]; vm_compute; reflexivity. Qed.

Lemma url_char_not_pad (s : sextet) :
  Ascii.eqb (url_char (char_in alphabet s)) pad = false.
Proof. destruct s as [[] [] [] [] [] []]; vm_compute; reflexivity. Qed.

Lemma bytes3_group3 (a b c : ascii) :
  let '(s0, s1, s2, s3) := group3 a b c in bytes3 s0 s1 s2 s3 = (a, b, c).
Proof. destruct a, b, c; reflexivity. Qed.

(** Induction over a byte string three bytes at a time. *)
Lemma string_by_three (P : string -> Prop) :
  P EmptyString ->
  (forall a, P (String a EmptyString)) ->
  (forall a b, P (String a (String b EmptyString))) ->
  (forall a b c rest, P rest -> P (String a (String b (String c rest)))) ->
  forall s, P s.
Proof.
  intros H0 H1 H2 H3.
  fix IH 1.
  intros [|a [|b [|c rest]]]; [apply H0 | apply H1 | apply H2 |].
  apply H3, IH.
Qed.

Arguments char_in : simpl never.
Arguments value_in : simpl never.

Lemma decode_url_base64url (bs : string) : decode_url (base64url bs) = Some bs.
Proof.
  unfold base64url.
  induction bs as [|a|a b|a b c rest IH] using string_by_three.
  - reflexivity.
  - destruct a as [a0 a1 a2 a3 a4 a5 a6 a7]; cbn.
    rewrite !value_char_url. reflexivity.
  - destruct a as [a0 a1 a2 a3 a4 a5 a6 a7], b as [b0 b1 b2 b3 b4 b5 b6 b7]; cbn.
    rewrite !value_char_url. reflexivity.
  - destruct a as [a0 a1 a2 a3 a4 a5 a6 a7], b as [b0 b1 b2 b3 b4 b5 b6 b7],
      c as [c0 c1 c2 c3 c4 c5 c6 c7].
    cbn [encode_with group3 decode_url].
    rewrite !value_char_url, IH. reflexivity.
Qed.

(** [toString('base64')] followed by the three [replace] calls is unpadded
    URL-safe base64. *)
Lemma urlsafe_toString_base64 (bs : string) :
  Js.remove_all "="%char
    (Js.replace_all "/"%char "_"%char
      (Js.replace_all "+"%char "-"%char (toString_base64 bs)))
  = base64url bs.
Proof.
  unfold toString_base64, base64url.
  assert (step : forall s rest,
    Js.remove_all "="%char (Js.replace_all "/"%char "_"%char
      (Js.replace_all "+"%char "-"%char (String (char_in alphabet s) rest)))
    = String (char_in url_alphabet s)
        (Js.remove_all "="%char (Js.replace_all "/"%char "_"%char
          (Js.replace_all "+"%char "-"%char rest)))).
  { intros s rest. cbn [Js.replace_all Js.remove_all].
    fold (url_char (char_in alphabet s)).
    change "="%char with pad.
    rewrite url_char_not_pad, url_char_in. reflexivity. }
  induction bs as [|a|a b|a b c rest IH] using string_by_three.
  - reflexivity.
  - cbn [encode_with]. destruct (group3 a zero zero) as [[[s0 s1] s2] s3].
    rewrite !step. reflexivity.
  - cbn [encode_with]. destruct (group3 a b zero) as [[[s0 s1] s2] s3].
    rewrite !step. reflexivity.
  - cbn [encode_with]. destruct (group3 a b c) as [[[s0 s1] s2] s3].
    rewrite !step, IH. reflexivity.
Qed.

End Base64.

(** ** The MIME codec: [createEmailMessage] and [extractEmailContent] *)

Module Mime.
Import Js.

(** The [options] argument of [createEmailMessage]; every field is optional
    in the source. *)
Record options : Type := Options {
  cc : option (list string);
  bcc : option (list string);
  htmlBody : option string;
  mimeType : option string;
  inReplyTo : option string;
  threadId : option string
}.

(** Destructuring defaults: [cc = []], [bcc = []], [mimeType = 'text/plain']. *)
Definition default_list (o : option (list string)) : list string :=
  match o with Some xs => xs | None => [] end.

Definition default_mimeType (o : option string) : string :=
  match o with Some m => m | None => "text/plain" end.

(** [if (x) headers.push(`Name: ${x}`)] *)
Definition push_if (o : option string) (name : string) (headers : list string)
  : list string :=
  match o with
  | Some v => if str_eq v "" then headers else headers ++ [name +:+ v]
  | None => headers
  end.

Definition push_list_if (xs : list string) (name : string)
  (headers : list string) : list string :=
  match xs with
  | [] => headers
  | _ :: _ => headers ++ [name +:+ join ", " xs]
  end.

(** The [headers] array as it stands before the Content-Type line is
    pushed (source lines 258-274). *)
Definition envelope (to : list string) (subject : string) (o : options)
  : list string :=
  let headers := ["To: " +:+ join ", " to; "Subject: " +:+ subject] in
  let headers := push_list_if (default_list (cc o)) "Cc: " headers in
  let headers := push_list_if (default_list (bcc o)) "Bcc: " headers in
  let headers := push_if (inReplyTo o) "In-Reply-To: " headers in
  push_if (threadId o) "References: " headers.

Definition ct_html : string := "Content-Type: text/html; charset=utf-8".
Definition ct_plain : string := "Content-Type: text/plain; charset=utf-8".

(** [`boundary_${Date.now()}`]; the clock reading is an input. *)
Definition boundary_of (now : N) : string := "boundary_" +:+ show_N now.

Definition ct_multipart (boundary : string) : string :=
  "Content-Type: multipart/alternative; boundary=" +:+ quoted boundary.

Definition multipart_body (boundary body html : string) : string :=
  join nl [ "--" +:+ boundary; ct_plain; ""; body; "";
            "--" +:+ boundary; ct_html; ""; html; "";
            "--" +:+ boundary +:+ "--" ].

(** The three-way branch of source lines 276-301: the final [headers] array
    and [emailContent]. *)
Definition content (now : N) (to : list string) (subject body : string)
  (o : options) : list string * string :=
  let headers := envelope to subject o in
  let mt := default_mimeType (mimeType o) in
  if str_eq mt "text/html" || truthy (htmlBody o) then
    (headers ++ [ct_html], or_else (htmlBody o) body)
  else if str_eq mt "multipart/alternative" && truthy (htmlBody o) then
    let boundary := boundary_of now in
    (headers ++ [ct_multipart boundary],
     (* an [undefined] array element is joined as the empty string *)
     multipart_body boundary body (or_else (htmlBody o) ""))
  else
    (headers ++ [ct_plain], body).

(** The local constant [email] (source line 303). *)
Definition email (now : N) (to : list string) (subject body : string)
  (o : options) : string :=
  let '(headers, emailContent) := content now to subject body o in
  join nl headers +:+ nl +:+ nl +:+ emailContent.

(** [createEmailMessage] (source lines 241-305). *)
Definition createEmailMessage (now : N) (to : list string)
  (subject body : string) (o : options) : string :=
  remove_all "="%char
    (replace_all "/"%char "_"%char
      (replace_all "+"%char "-"%char
        (Base64.toString_base64 (email now to subject body o)))).

(** *** Reading a payload back: what a receiver does with the raw message *)

(** Everything after the first empty line, if there is one. *)
Fixpoint after_blank_line (s : string) : option string :=
  match s with
  | EmptyString => None
  | String c1 tl =>
      match tl with
      | EmptyString => None
      | String c2 rest =>
          if Ascii.eqb c1 LF && Ascii.eqb c2 LF then Some rest
          else after_blank_line tl
      end
  end.

Definition decode_payload (raw : string) : option string :=
  match Base64.decode_url raw with
  | Some message => after_blank_line message
  | None => None
  end.

(** Header values that contain no line break. *)
Fixpoint lf_free (s : string) : bool :=
  match s with
  | EmptyString => true
  | String c rest => negb (Ascii.eqb c LF) && lf_free rest
  end.

Definition lf_free_opt (o : option string) : bool :=
  match o with Some s => lf_free s | None => true end.

(** The header lines built from the fields hold no empty line. *)
Definition headers_unbroken (to : list string) (subject : string)
  (o : options) : bool :=
  match after_blank_line (join nl (envelope to subject o) +:+ nl) with
  | None => true
  | Some _ => false
  end.

Definition header_safe (to : list string) (subject : string) (o : options)
  : bool :=
  forallb lf_free to && lf_free subject
  && forallb lf_free (default_list (cc o))
  && forallb lf_free (default_list (bcc o))
  && lf_free_opt (inReplyTo o) && lf_free_opt (threadId o).

(** *** [extractEmailContent] *)

(** [part.body] of the gateway's message part. *)
Record part_body : Type := PartBody {
  data : option string;
  attachmentId : option string;
  size : option N
}.

(** A message part; [parts] is absent on leaves. *)
Inductive part : Type :=
  Part (part_mimeType : option string) (part_filename : option string)
       (body : option part_body) (parts : option (list part)).

Definition part_mimeType (p : part) : option string :=
  let '(Part mt _ _ _) := p in mt.
Definition part_filename (p : part) : option string :=
  let '(Part _ fn _ _) := p in fn.
Definition body (p : part) : option part_body :=
  let '(Part _ _ b _) := p in b.
Definition parts (p : part) : option (list part) :=
  let '(Part _ _ _ ps) := p in ps.

(** [part.body?.data] and [part.body?.attachmentId]. *)
Definition body_data (p : part) : option string :=
  match body p with Some b => data b | None => None end.
Definition body_attachmentId (p : part) : option string :=
  match body p with Some b => attachmentId b | None => None end.
Definition body_size (p : part) : N :=
  match body p with
  | Some b => match size b with Some n => n | None => 0%N end
  | None => 0%N
  end.

(** [x === 'literal'] for an optional string. *)
Definition is_type (o : option string) (lit : string) : bool :=
  match o with Some s => str_eq s lit | None => false end.

(** An entry of the [attachments] array. *)
Record attachment : Type := Attachment {
  att_id : string;
  att_filename : string;
  att_mimeType : string;
  att_size : N
}.

(** The three accumulators closed over by [processPayload], and the value
    [extractEmailContent] returns. *)
Record extracted : Type := Extracted {
  text : string;
  html : string;
  attachments : list attachment
}.

Section Extract.

(** [Buffer.from(data, 'base64').toString('utf8')] *)
Variable decode : string -> string.

(** Source lines 171-178: the inline body. *)
Definition visit_data (p : part) (st : extracted) : extracted :=
  match body_data p with
  | Some d =>
      if str_eq d "" then st
      else
        let content := decode d in
        if is_type (part_mimeType p) "text/plain" then
          Extracted (text st +:+ content) (html st) (attachments st)
        else if is_type (part_mimeType p) "text/html" then
          Extracted (text st) (html st +:+ content) (attachments st)
        else st
  | None => st
  end.

(** Source lines 180-187: the attachment reference. *)
Definition visit_attachment (p : part) (st : extracted) : extracted :=
  match body_attachmentId p with
  | Some aid =>
      if str_eq aid "" then st
      else
        Extracted (text st) (html st)
          (attachments st ++
             [Attachment aid
                (or_else (part_filename p) ("attachment-" +:+ aid))
                (or_else (part_mimeType p) "application/octet-stream")
                (body_size p)])
  | None => st
  end.

(** [processPayload] (source lines 170-192), the accumulators threaded
    through as state; [forEach] is a left fold. *)
Fixpoint processPayload (p : part) (st : extracted) : extracted :=
  let st := visit_attachment p (visit_data p st) in
  match p with
  | Part _ _ _ (Some subparts) =>
      fold_left (fun acc subpart => processPayload subpart acc) subparts st
  | Part _ _ _ None => st
  end.

(** [extractEmailContent] (source lines 165-196). *)
Definition extractEmailContent (payload : part) : extracted :=
  processPayload payload (Extracted "" "" []).

(** The claim's side: the parts in document order and what each one
    contributes. *)
Fixpoint document_order (p : part) : list part :=
  p :: match p with
       | Part _ _ _ (Some subparts) => flat_map document_order subparts
       | Part _ _ _ None => []
       end.

Definition decoded_body (p : part) : string :=
  match body_data p with
  | Some d => if str_eq d "" then "" else decode d
  | None => ""
  end.

Definition has_type (lit : string) (p : part) : bool :=
  is_type (part_mimeType p) lit.

Definition concat_bodies (ps : list part) : string :=
  fold_right String.append "" (map decoded_body ps).

Definition descriptor (p : part) : option attachment :=
  match body_attachmentId p with
  | Some aid =>
      if str_eq aid "" then None
      else Some (Attachment aid
                   (or_else (part_filename p) ("attachment-" +:+ aid))
                   (or_else (part_mimeType p) "application/octet-stream")
                   (body_size p))
  | None => None
  end.

End Extract.

(** Depth of a part tree (a leaf has depth 1). *)
Fixpoint depth (p : part) : nat :=
  match p with
  | Part _ _ _ (Some subparts) => S (fold_right Nat.max 0 (map depth subparts))
  | Part _ _ _ None => 1
  end.

(** *** Facts about [createEmailMessage] *)

Lemma append_assoc (a b c : string) : (a +:+ b) +:+ c = a +:+ (b +:+ c).
Proof. induction a as [|x a IH]; simpl; [reflexivity | f_equal; exact IH]. Qed.

Lemma append_empty_r (a : string) : a +:+ "" = a.
Proof. induction a as [|x a IH]; simpl; [reflexivity | f_equal; exact IH]. Qed.

Lemma str_eq_true (a b : string) : str_eq a b = true <-> a = b.
Proof. apply String.eqb_eq. Qed.

Lemma str_eq_false (a b : string) : str_eq a b = false <-> a <> b.
Proof. apply String.eqb_neq. Qed.

Lemma truthy_Some (h : string) : h <> "" -> truthy (Some h) = true.
Proof. intros H. cbn. apply str_eq_false in H. now rewrite H. Qed.

Lemma or_else_truthy (o : option string) (h d : string) :
  o = Some h -> h <> "" -> or_else o d = h.
Proof. intros -> H. cbn. apply str_eq_false in H. now rewrite H. Qed.

(** What [createEmailMessage] returns, in terms of the branch taken. *)
Lemma createEmailMessage_base64url now to subject body o :
  createEmailMessage now to subject body o
  = Base64.base64url (email now to subject body o).
Proof. apply Base64.urlsafe_toString_base64. Qed.

Lemma lf_free_app (a b : string) :
  lf_free (a +:+ b) = lf_free a && lf_free b.
Proof.
  induction a as [|x a IH]; cbn; [reflexivity|].
  rewrite IH. now rewrite andb_assoc.
Qed.

Lemma lf_free_join (sep : string) (xs : list string) :
  lf_free sep = true -> forallb lf_free xs = true ->
  lf_free (join sep xs) = true.
Proof.
  intros Hsep. induction xs as [|x [|y rest] IH]; intros Hxs.
  - reflexivity.
  - cbn [forallb] in Hxs. rewrite andb_true_r in Hxs. exact Hxs.
  - change (join sep (x :: y :: rest)) with (x +:+ sep +:+ join sep (y :: rest)).
    cbn [forallb] in Hxs. apply andb_prop in Hxs as [Hx Hrest].
    rewrite !lf_free_app, Hx, Hsep, IH; [reflexivity | exact Hrest].
Qed.

(** A header line that cannot be mistaken for the end of the headers. *)
Definition good_line (l : string) : bool := lf_free l && negb (str_eq l "").

Lemma after_blank_line_cons (c : ascii) (t : string) :
  Ascii.eqb c LF = false ->
  after_blank_line (String c t) = after_blank_line t.
Proof.
  intros Hc. destruct t as [|c2 rest]; cbn; [reflexivity|].
  now rewrite Hc.
Qed.

Lemma after_blank_line_skip (l t : string) :
  lf_free l = true -> after_blank_line (l +:+ t) = after_blank_line t.
Proof.
  induction l as [|c l IH]; cbn [lf_free String.append]; intros H.
  - reflexivity.
  - apply andb_prop in H as [Hc Hl]. apply negb_true_iff in Hc.
    rewrite after_blank_line_cons by exact Hc. now apply IH.
Qed.

Lemma after_blank_line_good (l t : string) :
  good_line l = true ->
  after_blank_line (nl +:+ l +:+ t) = after_blank_line (l +:+ t).
Proof.
  unfold good_line. intros H. apply andb_prop in H as [Hl Hne].
  destruct l as [|c l]; [discriminate|].
  cbn in Hl. apply andb_prop in Hl as [Hc _]. apply negb_true_iff in Hc.
  change (nl +:+ String c l +:+ t) with (String LF (String c (l +:+ t))).
  change (String c l +:+ t) with (String c (l +:+ t)).
  cbn [after_blank_line]. rewrite Hc, andb_false_r. reflexivity.
Qed.

Lemma after_blank_line_lines (lines : list string) (t : string) :
  lines <> [] -> forallb good_line lines = true ->
  after_blank_line (join nl lines +:+ nl +:+ t) = after_blank_line (nl +:+ t).
Proof.
  induction lines as [|x [|y more] IH]; intros Hne Hgood.
  - congruence.
  - cbn [join]. cbn in Hgood. rewrite andb_true_r in Hgood.
    unfold good_line in Hgood. apply andb_prop in Hgood as [Hx _].
    now rewrite after_blank_line_skip by exact Hx.
  - change (join nl (x :: y :: more)) with (x +:+ nl +:+ join nl (y :: more)).
    cbn [forallb] in Hgood. apply andb_prop in Hgood as [Hx Hrest].
    pose proof Hx as Hx'. unfold good_line in Hx'.
    apply andb_prop in Hx' as [Hlf _].
    rewrite !append_assoc, after_blank_line_skip by exact Hlf.
    specialize (IH ltac:(discriminate) Hrest).
    destruct more as [|z more'].
    + cbn [join] in *. cbn [forallb] in Hrest.
      apply andb_prop in Hrest as [Hy _].
      rewrite after_blank_line_good by exact Hy. exact IH.
    + change (join nl (y :: z :: more'))
        with (y +:+ nl +:+ join nl (z :: more')) in *.
      cbn [forallb] in Hrest. apply andb_prop in Hrest as [Hy _].
      rewrite !append_assoc in *.
      rewrite after_blank_line_good by exact Hy. exact IH.
Qed.

(** A block that ends its last line and holds no empty line is passed
    over: the search goes on in what follows it. *)
Lemma after_blank_line_block (block : string) (c : ascii) (t : string) :
  after_blank_line (block +:+ nl) = None ->
  Ascii.eqb c LF = false ->
  after_blank_line (block +:+ nl +:+ String c t) = after_blank_line (String c t).
Proof.
  intros Hblock Hc.
  assert (Hnl : after_blank_line (String LF (String c t))
                = after_blank_line (String c t)).
  { cbn [after_blank_line]. now rewrite Hc, andb_false_r. }
  induction block as [|x block IH]; [exact Hnl|].
  destruct block as [|y block'].
  - change (after_blank_line (String x (String LF "")) = None) in Hblock.
    change (after_blank_line (String x (String LF (String c t)))
            = after_blank_line (String c t)).
    cbn [after_blank_line] in Hblock.
    rewrite <- Hnl. cbn [after_blank_line].
    destruct (Ascii.eqb x LF && Ascii.eqb LF LF); [discriminate | reflexivity].
  - change (after_blank_line (String x (String y (block' +:+ nl))) = None)
      in Hblock.
    change (after_blank_line
              (String x (String y (block' +:+ nl +:+ String c t)))
            = after_blank_line (String c t)).
    rewrite <- IH.
    + change (String y block' +:+ nl +:+ String c t)
        with (String y (block' +:+ nl +:+ String c t)).
      cbn [after_blank_line] in Hblock |- *.
      destruct (Ascii.eqb x LF && Ascii.eqb y LF); [discriminate | reflexivity].
    + change (String y block' +:+ nl) with (String y (block' +:+ nl)).
      cbn [after_blank_line] in Hblock.
      destruct (Ascii.eqb x LF && Ascii.eqb y LF); [discriminate | exact Hblock].
Qed.

Lemma join_snoc (sep : string) (xs : list string) (x : string) :
  xs <> [] -> join sep (xs ++ [x]) = join sep xs +:+ sep +:+ x.
Proof.
  induction xs as [|a [|b rest] IH]; intros Hne.
  - congruence.
  - reflexivity.
  - change (join sep ((a :: b :: rest) ++ [x]))
      with (a +:+ sep +:+ join sep ((b :: rest) ++ [x])).
    rewrite IH by discriminate.
    change (join sep (a :: b :: rest)) with (a +:+ sep +:+ join sep (b :: rest)).
    now rewrite !append_assoc.
Qed.

Lemma push_if_nonempty o name headers :
  headers <> [] -> push_if o name headers <> [].
Proof.
  intros H. destruct o as [v|]; cbn; [|exact H].
  destruct (str_eq v ""); [exact H|]. now destruct headers.
Qed.

Lemma push_list_if_nonempty xs name headers :
  headers <> [] -> push_list_if xs name headers <> [].
Proof.
  intros H. destruct xs; cbn; [exact H|]. now destruct headers.
Qed.

Lemma envelope_nonempty to subject o : envelope to subject o <> [].
Proof.
  unfold envelope.
  repeat first [apply push_if_nonempty | apply push_list_if_nonempty].
  discriminate.
Qed.

Lemma good_line_prefixed (name v : string) :
  good_line name = true -> lf_free v = true -> good_line (name +:+ v) = true.
Proof.
  unfold good_line. intros Hn Hv. apply andb_prop in Hn as [Hlf Hne].
  rewrite lf_free_app, Hlf, Hv. destruct name; [discriminate | reflexivity].
Qed.

Lemma forallb_snoc {A} (f : A -> bool) (xs : list A) (x : A) :
  forallb f (xs ++ [x]) = forallb f xs && f x.
Proof. rewrite forallb_app. cbn. now rewrite andb_true_r. Qed.

Lemma push_if_good o name headers :
  good_line name = true -> lf_free_opt o = true ->
  forallb good_line headers = true ->
  forallb good_line (push_if o name headers) = true.
Proof.
  intros Hn Ho Hh. destruct o as [v|]; cbn in *; [|exact Hh].
  destruct (str_eq v ""); [exact Hh|].
  rewrite forallb_snoc, Hh, good_line_prefixed; auto.
Qed.

Lemma push_list_if_good xs name headers :
  good_line name = true -> forallb lf_free xs = true ->
  forallb good_line headers = true ->
  forallb good_line (push_list_if xs name headers) = true.
Proof.
  intros Hn Hxs Hh. destruct xs as [|x xs']; [exact Hh|].
  unfold push_list_if.
  rewrite forallb_snoc, Hh, good_line_prefixed; auto.
  now apply lf_free_join.
Qed.

Lemma envelope_good to subject o :
  header_safe to subject o = true ->
  forallb good_line (envelope to subject o) = true.
Proof.
  unfold header_safe. intros H.
  repeat (apply andb_prop in H as [H ?]).
  unfold envelope.
  apply push_if_good; [reflexivity | assumption |].
  apply push_if_good; [reflexivity | assumption |].
  apply push_list_if_good; [reflexivity | assumption |].
  apply push_list_if_good; [reflexivity | assumption |].
  cbn [forallb]. rewrite !good_line_prefixed; auto.
  now apply lf_free_join.
Qed.

Lemma header_safe_unbroken to subject o :
  header_safe to subject o = true -> headers_unbroken to subject o = true.
Proof.
  intros Hsafe. unfold headers_unbroken.
  rewrite <- (append_empty_r nl).
  rewrite after_blank_line_lines;
    [reflexivity | apply envelope_nonempty | now apply envelope_good].
Qed.

Lemma content_html_present now to subject body o h :
  htmlBody o = Some h -> h <> "" ->
  content now to subject body o = (envelope to subject o ++ [ct_html], h).
Proof.
  intros Hh Hne. unfold content.
  rewrite Hh, (truthy_Some h Hne), orb_true_r.
  now rewrite (or_else_truthy (Some h) h body eq_refl Hne).
Qed.

Lemma content_no_html now to subject body o :
  str_eq (default_mimeType (mimeType o)) "text/html" = false ->
  truthy (htmlBody o) = false ->
  content now to subject body o = (envelope to subject o ++ [ct_plain], body).
Proof.
  intros Hmt Hh. unfold content. rewrite Hmt, Hh. cbn.
  now rewrite andb_false_r.
Qed.

(** The second branch of the source is dead: whatever the arguments, the
    message is a single text/html part or a single text/plain part. *)
Lemma content_never_multipart now to subject body o :
  content now to subject body o
  = (envelope to subject o ++ [ct_html], or_else (htmlBody o) body)
  \/ content now to subject body o
     = (envelope to subject o ++ [ct_plain], body).
Proof.
  unfold content.
  destruct (str_eq (default_mimeType (mimeType o)) "text/html");
    [now left|].
  destruct (truthy (htmlBody o)); [now left|].
  right. cbn. now rewrite andb_false_r.
Qed.

(** C1 (as the code behaves): when [htmlBody] is present, the first test
    [mimeType === 'text/html' || htmlBody] already succeeds, so a message
    requested as [multipart/alternative] is built as a single text/html
    part whose content is [htmlBody] alone; the multipart branch is never
    reached and the plain body does not appear in the payload. *)
Theorem alternative_with_html_is_single_html now to subject body o h :
  mimeType o = Some "multipart/alternative" ->
  htmlBody o = Some h -> h <> "" ->
  content now to subject body o = (envelope to subject o ++ [ct_html], h)
  /\ createEmailMessage now to subject body o
     = Base64.base64url
         (join nl (envelope to subject o ++ [ct_html]) +:+ nl +:+ nl +:+ h).
Proof.
  intros _ Hh Hne.
  pose proof (content_html_present now to subject body o h Hh Hne) as Hc.
  split; [exact Hc|].
  rewrite createEmailMessage_base64url. unfold email. now rewrite Hc.
Qed.

(** The draft of the README's "Create a Draft with HTML" example. *)
Definition readme_draft : options :=
  Options None None
    (Some "<h1>Rich HTML Content</h1><p>This is <strong>bold</strong> text.</p>")
    (Some "multipart/alternative") None None.

Lemma alternative_with_html_is_single_html_witness :
  content 1700000000000 ["recipient@example.com"] "Rich Content Draft"
    "Plain text version" readme_draft
  = (["To: recipient@example.com"; "Subject: Rich Content Draft"; ct_html],
     "<h1>Rich HTML Content</h1><p>This is <strong>bold</strong> text.</p>")
  /\ createEmailMessage 1700000000000 ["recipient@example.com"]
       "Rich Content Draft" "Plain text version" readme_draft
     = Base64.base64url
         (join nl ["To: recipient@example.com"; "Subject: Rich Content Draft";
                   ct_html]
            +:+ nl +:+ nl
            +:+ "<h1>Rich HTML Content</h1><p>This is <strong>bold</strong> text.</p>").
Proof.
  apply (alternative_with_html_is_single_html 1700000000000
           ["recipient@example.com"] "Rich Content Draft" "Plain text version"
           readme_draft
           "<h1>Rich HTML Content</h1><p>This is <strong>bold</strong> text.</p>");
    [reflexivity | reflexivity | discriminate].
Defined.

(** C2: with [mimeType = 'multipart/alternative'] and [htmlBody] absent
    (undefined or empty), the message is a single text/plain part: the last
    header line is the text/plain Content-Type and the content is the plain
    body, with no boundary and no html branch. *)
Theorem alternative_without_html_is_plain now to subject body o :
  mimeType o = Some "multipart/alternative" ->
  truthy (htmlBody o) = false ->
  content now to subject body o = (envelope to subject o ++ [ct_plain], body)
  /\ createEmailMessage now to subject body o
     = Base64.base64url
         (join nl (envelope to subject o ++ [ct_plain]) +:+ nl +:+ nl +:+ body).
Proof.
  intros Hmt Hh.
  assert (Hc : content now to subject body o
               = (envelope to subject o ++ [ct_plain], body)).
  { apply content_no_html; [|exact Hh]. now rewrite Hmt. }
  split; [exact Hc|].
  rewrite createEmailMessage_base64url. unfold email. now rewrite Hc.
Qed.

Definition alternative_no_html : options :=
  Options (Some ["bob@example.org"]) None None (Some "multipart/alternative")
    None (Some "thread-17").

Lemma alternative_without_html_is_plain_witness :
  content 1700000000000 ["ann@example.org"] "Hi" "Hello" alternative_no_html
  = (["To: ann@example.org"; "Subject: Hi"; "Cc: bob@example.org";
      "References: thread-17"; ct_plain], "Hello")
  /\ createEmailMessage 1700000000000 ["ann@example.org"] "Hi" "Hello"
       alternative_no_html
     = Base64.base64url
         (join nl ["To: ann@example.org"; "Subject: Hi"; "Cc: bob@example.org";
                   "References: thread-17"; ct_plain]
            +:+ nl +:+ nl +:+ "Hello").
Proof.
  apply (alternative_without_html_is_plain 1700000000000
           ["ann@example.org"] "Hi" "Hello" alternative_no_html);
    reflexivity.
Defined.

(** The multipart branch, had it been reachable, for comparison. *)
Example multipart_body_shape :
  multipart_body "B" "Hello" "<p>Hello</p>"
  = join nl ["--B"; ct_plain; ""; "Hello"; "";
             "--B"; ct_html; ""; "<p>Hello</p>"; ""; "--B--"].
Proof. reflexivity. Qed.

(** C3, as stated, fails at [to = ann@example.org], [subject = Hi],
    [body = Hello], [mimeType] left at its default text/plain: with
    [htmlBody = <p>Hello</p>] the content is the html body, and without an
    [htmlBody] but with a subject holding an empty line the headers end
    early. *)
Lemma plain_payload_counterexample :
  ~ (forall now to subject body o,
       default_mimeType (mimeType o) = "text/plain" ->
       decode_payload (createEmailMessage now to subject body o) = Some body)
  /\ ~ (forall now to subject body o,
         default_mimeType (mimeType o) = "text/plain" ->
         truthy (htmlBody o) = false ->
         decode_payload (createEmailMessage now to subject body o) = Some body).
Proof.
  split; intros H.
  - specialize (H 0%N ["ann@example.org"] "Hi" "Hello"
                  (Options None None (Some "<p>Hello</p>") None None None)
                  eq_refl).
    vm_compute in H. discriminate H.
  - specialize (H 0%N ["ann@example.org"] ("Hi" +:+ nl +:+ nl +:+ "x") "Hello"
                  (Options None None None None None None) eq_refl eq_refl).
    vm_compute in H. discriminate H.
Qed.

Example plain_payload_blank_line_in_subject :
  decode_payload
    (createEmailMessage 0 ["ann@example.org"] ("Hi" +:+ nl +:+ nl +:+ "x")
       "Hello" (Options None None None None None None))
  = Some (join nl ["x"; ct_plain; ""; "Hello"]).
Proof. vm_compute. reflexivity. Qed.

Lemma decode_payload_plain now to subject body o :
  default_mimeType (mimeType o) = "text/plain" ->
  truthy (htmlBody o) = false ->
  headers_unbroken to subject o = true ->
  decode_payload (createEmailMessage now to subject body o) = Some body.
Proof.
  intros Hmt Hh Hblock.
  rewrite createEmailMessage_base64url. unfold decode_payload, email.
  rewrite Base64.decode_url_base64url.
  rewrite content_no_html; [| now rewrite Hmt | exact Hh].
  rewrite join_snoc by apply envelope_nonempty.
  unfold headers_unbroken in Hblock.
  destruct (after_blank_line (join nl (envelope to subject o) +:+ nl))
    eqn:Hnone; [discriminate|].
  rewrite !append_assoc.
  change (ct_plain +:+ nl +:+ nl +:+ body)
    with (String "C"%char
            ("ontent-Type: text/plain; charset=utf-8"
               +:+ nl +:+ nl +:+ body)).
  rewrite after_blank_line_block; [| exact Hnone | reflexivity].
  change (String "C"%char
            ("ontent-Type: text/plain; charset=utf-8"
               +:+ nl +:+ nl +:+ body))
    with (ct_plain +:+ nl +:+ nl +:+ body).
  rewrite after_blank_line_skip by reflexivity. reflexivity.
Qed.

Lemma after_blank_line_app (s r t : string) :
  after_blank_line s = Some r -> after_blank_line (s +:+ t) = Some (r +:+ t).
Proof.
  induction s as [|x s IH]; [discriminate|].
  destruct s as [|y s']; [discriminate|]. intros H.
  change (String x (String y s') +:+ t) with (String x (String y (s' +:+ t))).
  cbn [after_blank_line] in H |- *.
  destruct (Ascii.eqb x LF && Ascii.eqb y LF).
  - now injection H as ->.
  - now apply IH.
Qed.

Lemma length_append (a b : string) :
  String.length (a +:+ b) = String.length a + String.length b.
Proof. induction a as [|x a IH]; cbn; [reflexivity | now rewrite IH]. Qed.

(** An empty line among the header lines cuts the message short: what is
    read back then starts inside the headers. *)
Lemma decode_payload_plain_broken now to subject body o :
  default_mimeType (mimeType o) = "text/plain" ->
  truthy (htmlBody o) = false ->
  headers_unbroken to subject o = false ->
  decode_payload (createEmailMessage now to subject body o) <> Some body.
Proof.
  intros Hmt Hh Hblock.
  rewrite createEmailMessage_base64url. unfold decode_payload, email.
  rewrite Base64.decode_url_base64url.
  rewrite content_no_html; [| now rewrite Hmt | exact Hh].
  rewrite join_snoc by apply envelope_nonempty.
  unfold headers_unbroken in Hblock.
  destruct (after_blank_line (join nl (envelope to subject o) +:+ nl))
    as [r|] eqn:Hsome; [|discriminate].
  rewrite !append_assoc.
  rewrite <- (append_assoc (join nl (envelope to subject o)) nl).
  rewrite (after_blank_line_app _ r _ Hsome).
  intros [= Heq]. apply (f_equal String.length) in Heq.
  rewrite !length_append in Heq. cbn in Heq. lia.
Qed.

(** In particular when no header value holds a line break. *)
Lemma decode_payload_plain_safe now to subject body o :
  default_mimeType (mimeType o) = "text/plain" ->
  truthy (htmlBody o) = false ->
  header_safe to subject o = true ->
  decode_payload (createEmailMessage now to subject body o) = Some body.
Proof.
  intros Hmt Hh Hsafe.
  apply decode_payload_plain; auto using header_safe_unbroken.
Qed.

(** C3 (amended): the returned value is [toString('base64')] of
    headers, empty line and content with [+], [/] and [=] rewritten, which
    is unpadded URL-safe base64; and when the content type is text/plain
    and [htmlBody] is absent, decoding the payload and dropping everything
    up to and including the first empty line gives back the plain body
    exactly when the header lines built from the fields hold no empty
    line. *)
Theorem createEmailMessage_payload now to subject body o :
  (let '(headers, emailContent) := content now to subject body o in
   createEmailMessage now to subject body o
   = remove_all "="%char (replace_all "/"%char "_"%char
       (replace_all "+"%char "-"%char
          (Base64.toString_base64
             (join nl headers +:+ nl +:+ nl +:+ emailContent))))
   /\ createEmailMessage now to subject body o
     = Base64.base64url (join nl headers +:+ nl +:+ nl +:+ emailContent))
  /\ (default_mimeType (mimeType o) = "text/plain" ->
      truthy (htmlBody o) = false ->
      (headers_unbroken to subject o = true <->
       decode_payload (createEmailMessage now to subject body o) = Some body)).
Proof.
  split.
  - pose proof (createEmailMessage_base64url now to subject body o) as Hb.
    unfold createEmailMessage, email in *.
    destruct (content now to subject body o) as [headers emailContent].
    split; [reflexivity | exact Hb].
  - intros Hmt Hh. split.
    + now apply decode_payload_plain.
    + intros Hdec. destruct (headers_unbroken to subject o) eqn:Hu;
        [reflexivity|].
      now destruct (decode_payload_plain_broken now to subject body o Hmt Hh Hu).
Qed.

Definition plain_spec : options :=
  Options (Some ["bob@example.org"; "cy@example.org"]) None None None
    (Some "<m1@example.org>") None.

Lemma createEmailMessage_payload_witness :
  default_mimeType (mimeType plain_spec) = "text/plain"
  /\ truthy (htmlBody plain_spec) = false
  /\ headers_unbroken ["ann@example.org"] "Hi" plain_spec = true
  /\ decode_payload
       (createEmailMessage 5 ["ann@example.org"] "Hi" "Hello, Ann" plain_spec)
     = Some "Hello, Ann".
Proof.
  split; [reflexivity | split; [reflexivity | split; [reflexivity |]]].
  apply (proj1 (proj2 (createEmailMessage_payload 5 ["ann@example.org"] "Hi"
                         "Hello, Ann" plain_spec) eq_refl eq_refl)).
  reflexivity.
Defined.

Example createEmailMessage_plain_value :
  createEmailMessage 0 ["a@b.c"] "Hi" "ok?>" (Options None None None None None None)
  = "VG86IGFAYi5jClN1YmplY3Q6IEhpCkNvbnRlbnQtVHlwZTogdGV4dC9wbGFpbjsgY2hhcnNldD11dGYtOAoKb2s_Pg".
Proof. vm_compute. reflexivity. Qed.

(** *** Facts about [extractEmailContent] *)

Section ExtractFacts.

Variable decode : string -> string.

(** Induction over a part tree: the property of a container follows from
    the property of each of its sub-parts. *)
Lemma part_tree_ind (P : part -> Prop) :
  (forall mt fn b, P (Part mt fn b None)) ->
  (forall mt fn b subparts,
      Forall P subparts -> P (Part mt fn b (Some subparts))) ->
  forall p, P p.
Proof.
  intros Hleaf Hnode.
  fix IH 1.
  intros [mt fn b [subparts|]]; [|apply Hleaf].
  apply Hnode.
  induction subparts as [|q qs IHqs]; constructor; [apply IH | exact IHqs].
Qed.

Definition texts (ps : list part) : string :=
  concat_bodies decode (List.filter (has_type "text/plain") ps).

Definition htmls (ps : list part) : string :=
  concat_bodies decode (List.filter (has_type "text/html") ps).

Definition grow (st : extracted) (ps : list part) : extracted :=
  Extracted (text st +:+ texts ps) (html st +:+ htmls ps)
    (attachments st ++ omap descriptor ps).

Lemma concat_bodies_app (xs ys : list part) :
  concat_bodies decode (xs ++ ys)
  = concat_bodies decode xs +:+ concat_bodies decode ys.
Proof.
  unfold concat_bodies. induction xs as [|x xs IH]; [reflexivity|].
  cbn [app map fold_right]. rewrite IH. now rewrite append_assoc.
Qed.

Lemma grow_nil st : grow st [] = st.
Proof.
  destruct st as [t h a]. unfold grow, texts, htmls. cbn.
  now rewrite !append_empty_r, app_nil_r.
Qed.

Lemma grow_app st xs ys : grow (grow st xs) ys = grow st (xs ++ ys).
Proof.
  unfold grow, texts, htmls. cbn [text html attachments].
  rewrite !List.filter_app, !concat_bodies_app, !append_assoc, omap_app.
  now rewrite app_assoc.
Qed.

Lemma plain_is_not_html (o : option string) :
  is_type o "text/plain" = true -> is_type o "text/html" = false.
Proof.
  destruct o as [m|]; cbn; [|discriminate].
  intros H. apply str_eq_true in H. now subst m.
Qed.

(** One part, its sub-parts left aside. *)
Lemma visit_one (p : part) (st : extracted) :
  visit_attachment p (visit_data decode p st) = grow st [p].
Proof.
  destruct st as [t h a].
  unfold grow, texts, htmls, visit_attachment, visit_data, concat_bodies,
    descriptor, decoded_body, has_type.
  cbn [List.filter omap list_omap map fold_right text html attachments].
  destruct (body_attachmentId p) as [aid|] eqn:Ha;
    destruct (body_data p) as [d|] eqn:Hd;
    try destruct (str_eq aid "") eqn:Haid;
    try destruct (str_eq d "") eqn:Hdd;
    destruct (is_type (part_mimeType p) "text/plain") eqn:Hp;
    try rewrite (plain_is_not_html _ Hp);
    try destruct (is_type (part_mimeType p) "text/html") eqn:Hh;
    cbn [List.filter omap list_omap map fold_right text html attachments
         mbind option_bind];
    rewrite ?Hd, ?Hdd, ?append_empty_r, ?app_nil_r; reflexivity.
Qed.

Lemma processPayload_grow (p : part) :
  forall st, processPayload decode p st = grow st (document_order p).
Proof.
  induction p as [mt fn b|mt fn b subparts IH] using part_tree_ind; intros st.
  - cbn [processPayload document_order]. apply visit_one.
  - cbn [processPayload document_order]. rewrite visit_one.
    change (Part mt fn b (Some subparts) :: flat_map document_order subparts)
      with ([Part mt fn b (Some subparts)] ++ flat_map document_order subparts).
    rewrite <- grow_app.
    generalize (grow st [Part mt fn b (Some subparts)]). clear st.
    induction IH as [|q qs Hq _ IHqs]; intros st.
    + cbn. now rewrite grow_nil.
    + cbn [fold_left flat_map]. rewrite Hq, IHqs. apply grow_app.
Qed.

Definition attachment_ref (p : part) : option string :=
  match body_attachmentId p with
  | Some aid => if str_eq aid "" then None else Some aid
  | None => None
  end.

Lemma descriptor_id (ps : list part) :
  map att_id (omap descriptor ps) = omap attachment_ref ps.
Proof.
  induction ps as [|q qs IH]; [reflexivity|].
  cbn [omap list_omap]. unfold descriptor at 1, attachment_ref at 1.
  destruct (body_attachmentId q) as [aid|]; [|exact IH].
  destruct (str_eq aid ""); [exact IH|]. cbn. now rewrite IH.
Qed.

(** C4: [extractEmailContent] returns the decoded text/plain bodies
    concatenated in document order, the decoded text/html bodies
    concatenated in document order, and one descriptor per part that
    carries an attachment id, in document order; [descriptor] fills in
    [attachment-<id>] for a missing file name and
    [application/octet-stream] for a missing type. *)
Theorem extractEmailContent_document_order (payload : part) :
  let r := extractEmailContent decode payload in
  text r = concat_bodies decode
             (List.filter (has_type "text/plain") (document_order payload))
  /\ html r = concat_bodies decode
                (List.filter (has_type "text/html") (document_order payload))
  /\ attachments r = omap descriptor (document_order payload)
  /\ map att_id (attachments r) = omap attachment_ref (document_order payload).
Proof.
  unfold extractEmailContent. rewrite processPayload_grow.
  cbn [grow text html attachments app String.append].
  repeat split. apply descriptor_id.
Qed.

Lemma descriptor_defaults (p : part) (aid : string) :
  body_attachmentId p = Some aid -> aid <> "" ->
  truthy (part_filename p) = false -> truthy (part_mimeType p) = false ->
  descriptor p
  = Some (Attachment aid ("attachment-" +:+ aid) "application/octet-stream"
            (body_size p)).
Proof.
  intros Ha Hne Hf Hm. unfold descriptor. rewrite Ha.
  apply str_eq_false in Hne. rewrite Hne.
  destruct (part_filename p) as [f|], (part_mimeType p) as [m|]; cbn in *;
    repeat match goal with
           | H : negb ?b = false |- _ => apply negb_false_iff in H; rewrite H
           end; reflexivity.
Qed.

End ExtractFacts.

(** A message whose attachments sit three and four levels deep. *)
Definition leaf (mt : string) (d : string) : part :=
  Part (Some mt) None (Some (PartBody (Some d) None (Some 5%N))) None.

Definition attached (mt : option string) (fn : option string) (aid : string) : part :=
  Part mt fn (Some (PartBody None (Some aid) (Some 2048%N))) None.

Definition container (mt : string) (subparts : list part) : part :=
  Part (Some mt) (Some "") (Some (PartBody None None (Some 0%N))) (Some subparts).

Definition nested_message : part :=
  container "multipart/mixed"
    [ container "multipart/related"
        [ container "multipart/alternative"
            [ leaf "text/plain" "P1"; leaf "text/html" "H1";
              container "multipart/mixed" [ attached None None "a3" ] ];
          attached (Some "image/png") (Some "logo.png") "a1" ];
      leaf "text/plain" "P2";
      attached (Some "application/pdf") (Some "") "a2";
      leaf "text/html" "H2" ].

Example nested_message_depth : depth nested_message = 5.
Proof. reflexivity. Qed.

Example nested_message_extracted :
  extractEmailContent (fun d => "<" +:+ d +:+ ">") nested_message
  = Extracted "<P1><P2>" "<H1><H2>"
      [ Attachment "a3" "attachment-a3" "application/octet-stream" 2048;
        Attachment "a1" "logo.png" "image/png" 2048;
        Attachment "a2" "attachment-a2" "application/pdf" 2048 ].
Proof. vm_compute. reflexivity. Qed.

End Mime.

(** ** The batch loop of [gmail_batch_modify_emails] and
       [gmail_batch_delete_emails]

    Both handlers run the same loop (source lines 657-682 and 721-742);
    they differ in the gateway call made per id and in the wording of the
    report.  In this module [batchSize] is a whole number; [BatchNum]
    below takes any number. *)

Module Batch.
Import Js.

(** An entry of [results]: [{ messageId, success, error? }]. *)
Record item_result : Type := ItemResult {
  messageId : string;
  success : bool;
  error : option string
}.

(** [Promise.all]: fulfilled with the values in the order of the promises
    once every one of them has settled. *)
Fixpoint promise_all {A} (slots : list (option A)) : option (list A) :=
  match slots with
  | [] => Some []
  | Some v :: rest => option_map (cons v) (promise_all rest)
  | None :: _ => None
  end.

(** The order in which [n] pending promises settle.  [choose t] says which
    of the still pending ones settles at step [t]; every choice function
    describes a completion order. *)
Fixpoint completion_order (choose : nat -> nat) (fuel : nat)
  (pending : list nat) (t : nat) : list nat :=
  match fuel, pending with
  | S fuel', p0 :: _ =>
      let n := choose t `mod` length pending in
      nth n pending p0
        :: completion_order choose fuel' (delete n pending) (S t)
  | _, _ => []
  end.

Section Engine.

(** State of the remote mailbox. *)
Variable G : Type.

(** The gateway call made for one id ([messages.modify] or
    [messages.delete]): [None] when its promise is fulfilled, [Some msg]
    when it is rejected, [msg] being
    [error instanceof Error ? error.message : 'Unknown error']. *)
Variable call : string -> G -> option string * G.

(** Scheduler: for the chunk starting at loop index [i], which pending
    request completes next. *)
Variable pick : Z -> nat -> nat.

Variable messageIds : list string.
Variable batchSize : Z.

(** The value the [async (messageId) => ...] callback resolves to. *)
Definition result_of (id : string) (rejected : option string) : item_result :=
  match rejected with
  | None => ItemResult id true None
  | Some msg => ItemResult id false (Some msg)
  end.

(** One request of the chunk completes: the gateway has acted on it and
    its slot is filled. *)
Definition settle (batch : list string)
  (st : list (option item_result) * G) (j : nat)
  : list (option item_result) * G :=
  match batch !! j with
  | Some id =>
      let '(rejected, g') := call id st.2 in
      (<[j := Some (result_of id rejected)]> st.1, g')
  | None => st
  end.

(** [await Promise.all(batch.map(async ...))] for the chunk at index [i]. *)
Definition run_chunk (i : Z) (batch : list string) (g : G)
  : option (list item_result * G) :=
  let n := length batch in
  let order := completion_order (pick i) n (seq 0 n) 0 in
  let '(slots, g') := fold_left (settle batch) order (replicate n None, g) in
  match promise_all slots with
  | Some batchResults => Some (batchResults, g')
  | None => None
  end.

(** Loop variables: [i], [results] and the mailbox. *)
Record loop_state : Type := LoopState {
  index : Z;
  results : list item_result;
  mailbox : G
}.

Inductive step_result : Type :=
  | Exit
  | Next (st : loop_state)
  | Unsettled.

(** One evaluation of the loop test and body. *)
Definition iteration (st : loop_state) : step_result :=
  if (index st <? Z.of_nat (length messageIds))%Z then
    let batch := slice messageIds (index st) (index st + batchSize) in
    match run_chunk (index st) batch (mailbox st) with
    | Some (batchResults, g') =>
        Next (LoopState (index st + batchSize)%Z
                (results st ++ batchResults) g')
    | None => Unsettled
    end
  else Exit.

Inductive outcome : Type :=
  | Done (rs : list item_result) (g : G)
  | Running
  | Blocked.

(** The [for] loop, cut off after [fuel] iterations ([Running]). *)
Fixpoint batch_loop (fuel : nat) (st : loop_state) : outcome :=
  match fuel with
  | 0 => Running
  | S fuel' =>
      match iteration st with
      | Exit => Done (results st) (mailbox st)
      | Next st' => batch_loop fuel' st'
      | Unsettled => Blocked
      end
  end.

(** The loop variables at the head of the [n]-th iteration, when the loop
    gets that far. *)
Fixpoint state_at (n : nat) (st : loop_state) : option loop_state :=
  match n with
  | 0 => Some st
  | S n' =>
      match state_at n' st with
      | Some s =>
          match iteration s with
          | Next s' => Some s'
          | _ => None
          end
      | None => None
      end
  end.

Definition start (g : G) : loop_state := LoopState 0 [] g.

(** The chunk processed by the iteration that starts in state [st]. *)
Definition chunk_of (st : loop_state) : list string :=
  slice messageIds (index st) (index st + batchSize).

End Engine.

(** [results.filter(r => r.success).length] and its complement. *)
Definition successful (rs : list item_result) : nat :=
  length (List.filter success rs).
Definition failed (rs : list item_result) : nat :=
  length (List.filter (fun r => negb (success r)) rs).

(** The report text; [verb] and [participle] are [modify] and [modified],
    or [delete] and [deleted]. *)
Definition report (verb participle : string) (rs : list item_result) : string :=
  "Batch " +:+ verb +:+ " completed. Successfully " +:+ participle +:+ ": "
    +:+ show_nat (successful rs) +:+ ", Failed: " +:+ show_nat (failed rs).

(** An entry is marked as a success without an error, or as a failure with
    the error message. *)
Definition marked (r : item_result) : Prop :=
  (success r = true /\ error r = None)
  \/ (success r = false /\ exists msg, error r = Some msg).

(** *** Facts about the batch loop *)

Lemma completion_order_perm (choose : nat -> nat) (fuel : nat) :
  forall (pending : list nat) (t : nat),
    length pending <= fuel ->
    completion_order choose fuel pending t ≡ₚ pending.
Proof.
  induction fuel as [|fuel IH]; intros [|p0 rest] t Hlen;
    cbn [completion_order]; try reflexivity.
  - cbn in Hlen. lia.
  - set (pending := p0 :: rest) in *.
    set (n := choose t `mod` length pending).
    assert (Hn : n < length pending)
      by (apply Nat.mod_upper_bound; cbn; lia).
    destruct (lookup_lt_is_Some_2 pending n Hn) as [x Hx].
    rewrite (nth_lookup_Some _ _ p0 x Hx).
    etrans; [|symmetry; apply (delete_Permutation pending n x Hx)].
    apply Permutation_skip, IH.
    rewrite length_delete by eauto. lia.
Qed.

Lemma count_partition (rs : list item_result) :
  successful rs + failed rs = length rs.
Proof.
  unfold successful, failed.
  induction rs as [|r rs IH]; [reflexivity|].
  cbn [List.filter]. destruct (success r); cbn [negb length]; lia.
Qed.

Lemma slice_chunk {A} (xs : list A) (i c : Z) :
  (0 <= i < Z.of_nat (length xs))%Z -> (0 < c)%Z ->
  slice xs i (i + c) = take (Z.to_nat c) (drop (Z.to_nat i) xs).
Proof.
  intros Hi Hc. unfold slice, relative.
  destruct (Z.ltb_spec i 0); [lia|].
  destruct (Z.ltb_spec (i + c) 0); [lia|].
  rewrite (Z.min_l i) by lia.
  destruct (Z.le_gt_cases (i + c) (Z.of_nat (length xs))) as [Hle|Hgt].
  - rewrite Z.min_l by lia. f_equal. lia.
  - rewrite Z.min_r by lia.
    rewrite !take_ge; [reflexivity | |]; rewrite length_drop; lia.
Qed.

Lemma slice_backwards {A} (xs : list A) (i c : Z) :
  (i <= 0)%Z -> (c <= 0)%Z -> (i < 0 \/ c = 0)%Z ->
  slice xs i (i + c) = [].
Proof.
  intros Hi Hc Hor. unfold slice, relative.
  destruct (Z.ltb_spec i 0), (Z.ltb_spec (i + c) 0);
    try lia; (rewrite (proj2 (Z.max_r_iff _ 0)); [apply take_0 | lia]).
Qed.

Lemma slice_first_negative {A} (xs : list A) (c : Z) :
  (c < 0)%Z ->
  slice xs 0 (0 + c) = take (length xs - Z.to_nat (- c)) xs.
Proof.
  intros Hc. unfold slice, relative.
  destruct (Z.ltb_spec 0 0); [lia|].
  destruct (Z.ltb_spec (0 + c) 0); [|lia].
  rewrite (Z.min_l 0) by lia. cbn [Z.to_nat drop]. f_equal. lia.
Qed.

Section EngineFacts.

Variable G : Type.
Variable call : string -> G -> option string * G.
Variable pick : Z -> nat -> nat.

Lemma result_of_marked (id : string) (rejected : option string) :
  messageId (result_of id rejected) = id /\ marked (result_of id rejected).
Proof.
  destruct rejected as [msg|]; cbn; split; try reflexivity.
  - right. eauto.
  - left. auto.
Qed.

(** Slot [j] holds the settled result of the [j]-th id. *)
Definition filled (batch : list string) (slots : list (option item_result))
  (j : nat) : Prop :=
  exists r, slots !! j = Some (Some r)
            /\ batch !! j = Some (messageId r) /\ marked r.

Lemma settle_fold (batch : list string) (order : list nat) :
  forall (st : list (option item_result) * G) (settled : list nat),
    length st.1 = length batch ->
    (forall j, j ∈ settled -> filled batch st.1 j) ->
    (forall j, j ∈ order -> j < length batch) ->
    length (fold_left (settle G call batch) order st).1 = length batch
    /\ forall j, j ∈ settled ++ order ->
         filled batch (fold_left (settle G call batch) order st).1 j.
Proof.
  induction order as [|j0 order IH]; intros [slots g] settled Hlen Hset Hlt.
  - cbn. rewrite app_nil_r. auto.
  - cbn [fold_left].
    assert (Hj0 : j0 < length batch) by (apply Hlt; left).
    destruct (lookup_lt_is_Some_2 batch j0 Hj0) as [id Hid].
    unfold settle at 2 4. cbn [fst snd]. rewrite Hid.
    destruct (call id g) as [rejected g'] eqn:Hcall.
    destruct (result_of_marked id rejected) as [Hmid Hmark].
    specialize (IH (<[j0:=Some (result_of id rejected)]> slots, g')
                  (settled ++ [j0])).
    cbn [fst snd] in IH, Hlen.
    rewrite <- app_assoc in IH. cbn [app] in IH. apply IH.
    + now rewrite length_insert.
    + intros j Hj. destruct (decide (j = j0)) as [->|Hne].
      * exists (result_of id rejected). rewrite Hmid.
        split; [|split; assumption].
        apply list_lookup_insert_eq. lia.
      * apply elem_of_app in Hj as [Hj|Hj].
        -- destruct (Hset j Hj) as (r & Hr & Hb & Hm).
           exists r. rewrite list_lookup_insert_ne by congruence. auto.
        -- apply list_elem_of_singleton in Hj. congruence.
    + intros j Hj. apply Hlt. now right.
Qed.

Lemma promise_all_filled (batch : list string)
  (slots : list (option item_result)) :
  Forall2 (fun id s => exists r, s = Some r /\ messageId r = id /\ marked r)
    batch slots ->
  exists rs, promise_all slots = Some rs
             /\ map messageId rs = batch /\ Forall marked rs.
Proof.
  induction 1 as [|id s batch slots (r & -> & Hid & Hm) _ (rs & Hrs & Hmap & Hall)].
  - exists []. cbn. auto.
  - exists (r :: rs). cbn. rewrite Hrs. cbn. rewrite Hid, Hmap. auto.
Qed.

(** Whatever the completion order and the outcomes, the chunk's promise is
    fulfilled with one result per id, in the order of the ids. *)
Lemma run_chunk_ok (i : Z) (batch : list string) (g : G) :
  exists rs g', run_chunk G call pick i batch g = Some (rs, g')
                /\ map messageId rs = batch /\ Forall marked rs.
Proof.
  unfold run_chunk.
  set (n := length batch).
  set (order := completion_order (pick i) n (seq 0 n) 0).
  assert (Hperm : order ≡ₚ seq 0 n).
  { apply completion_order_perm. now rewrite length_seq. }
  destruct (settle_fold batch order (replicate n None, g) [])
    as [Hlen Hfilled].
  - cbn. apply length_replicate.
  - intros j Hj. inversion Hj.
  - intros j Hj. rewrite Hperm in Hj. apply elem_of_seq in Hj. lia.
  - destruct (fold_left (settle G call batch) order (replicate n None, g))
      as [slots g'] eqn:Hfold.
    cbn [fst] in Hlen, Hfilled.
    destruct (promise_all_filled batch slots) as (rs & Hrs & Hmap & Hall).
    + apply Forall2_same_length_lookup_2; [now rewrite Hlen|].
      intros j id s Hid Hs.
      destruct (Hfilled j) as (r & Hr & Hb & Hm).
      * cbn [app]. rewrite Hperm. apply elem_of_seq.
        apply lookup_lt_Some in Hid. fold n in Hid. lia.
      * exists r. split; [congruence|]. split; [congruence | exact Hm].
    + rewrite Hrs. eauto.
Qed.

Variable messageIds : list string.
Variable batchSize : Z.

Local Notation iteration := (iteration G call pick messageIds batchSize).
Local Notation batch_loop := (batch_loop G call pick messageIds batchSize).
Local Notation state_at := (state_at G call pick messageIds batchSize).
Local Notation chunk_of := (chunk_of G messageIds batchSize).

(** While the loop test holds, the body runs to its end. *)
Lemma iteration_next (st : loop_state G) :
  (index G st < Z.of_nat (length messageIds))%Z ->
  exists rs g',
    iteration st
    = Next G (LoopState G (index G st + batchSize) (results G st ++ rs) g')
    /\ map messageId rs = chunk_of st /\ Forall marked rs.
Proof.
  intros Hlt. unfold Batch.iteration.
  destruct (Z.ltb_spec (index G st) (Z.of_nat (length messageIds))); [|lia].
  destruct (run_chunk_ok (index G st) (chunk_of st) (mailbox G st))
    as (rs & g' & Hrun & Hmap & Hall).
  unfold Batch.chunk_of in Hrun. rewrite Hrun. eauto.
Qed.

Lemma batch_loop_from (n : nat) :
  forall st : loop_state G,
    (1 <= batchSize)%Z -> (0 <= index G st)%Z ->
    (Z.of_nat (length messageIds) - index G st <= Z.of_nat n)%Z ->
    exists rs g',
      batch_loop (S n) st = Done G (results G st ++ rs) g'
      /\ map messageId rs = drop (Z.to_nat (index G st)) messageIds
      /\ Forall marked rs.
Proof.
  induction n as [|n IH]; intros st Hc Hi Hn; cbn [Batch.batch_loop].
  - unfold Batch.iteration.
    destruct (Z.ltb_spec (index G st) (Z.of_nat (length messageIds))); [lia|].
    exists [], (mailbox G st). rewrite app_nil_r, drop_ge by lia. auto.
  - destruct (Z.lt_ge_cases (index G st) (Z.of_nat (length messageIds)))
      as [Hlt|Hge].
    + destruct (iteration_next st Hlt) as (rs & g' & Hit & Hmap & Hall).
      rewrite Hit.
      destruct (IH (LoopState G (index G st + batchSize)
                      (results G st ++ rs) g'))
        as (rs' & g'' & Hloop & Hmap' & Hall'); cbn [index]; try lia.
      cbn [Batch.batch_loop] in Hloop. rewrite Hloop.
      cbn [index results] in *.
      exists (rs ++ rs'), g''. rewrite app_assoc. split; [reflexivity|].
      split; [|now apply Forall_app].
      rewrite map_app, Hmap, Hmap'. unfold Batch.chunk_of.
      rewrite slice_chunk by lia.
      replace (Z.to_nat (index G st + batchSize))
        with (Z.to_nat (index G st) + Z.to_nat batchSize) by lia.
      rewrite <- drop_drop. apply take_drop.
    + unfold Batch.iteration.
      destruct (Z.ltb_spec (index G st) (Z.of_nat (length messageIds)));
        [lia|].
      exists [], (mailbox G st). rewrite app_nil_r, drop_ge by lia. auto.
Qed.

End EngineFacts.

(** C5: for a chunk size above zero the loop ends with a [results] array
    holding exactly one entry per input id, in input order, whatever the
    order in which the requests of a chunk complete and whatever the
    outcome of each request; every entry is marked success or failure, and
    the two counts of the report add up to the number of ids. *)
Theorem batch_results_complete (G : Type)
  (call : string -> G -> option string * G) (pick : Z -> nat -> nat)
  (messageIds : list string) (batchSize : Z) (g : G) :
  (0 < batchSize)%Z ->
  exists fuel rs g',
    batch_loop G call pick messageIds batchSize fuel (start G g) = Done G rs g'
    /\ length rs = length messageIds
    /\ map messageId rs = messageIds
    /\ Forall marked rs
    /\ successful rs + failed rs = length messageIds.
Proof.
  intros Hc.
  destruct (batch_loop_from G call pick messageIds batchSize
              (length messageIds) (start G g))
    as (rs & g' & Hloop & Hmap & Hall); cbn [start index]; try lia.
  cbn [start index results app] in *.
  change (drop (Z.to_nat 0) messageIds) with messageIds in Hmap.
  exists (S (length messageIds)), rs, g'.
  split; [exact Hloop|].
  assert (Hlen : length rs = length messageIds)
    by (now rewrite <- Hmap, length_map).
  repeat split; try assumption.
  now rewrite count_partition.
Qed.

(** Three ids in chunks of two; the second id is rejected by the gateway. *)
Definition reject_m2 (id : string) (g : nat) : option string * nat :=
  (if str_eq id "m2" then Some "Not Found" else None, S g).

Lemma batch_results_complete_witness :
  exists fuel rs g',
    batch_loop nat reject_m2 (fun _ t => 3 * t + 1) ["m1"; "m2"; "m3"] 2
      fuel (start nat 0) = Done nat rs g'
    /\ length rs = 3
    /\ map messageId rs = ["m1"; "m2"; "m3"]
    /\ Forall marked rs
    /\ successful rs + failed rs = 3.
Proof.
  apply (batch_results_complete nat reject_m2 (fun _ t => 3 * t + 1)
           ["m1"; "m2"; "m3"] 2 0).
  lia.
Defined.

(** The same run evaluated: the second request of the first chunk
    completes first, yet the entries keep the input order, and the failure
    of [m2] leaves [m1] and [m3] in place. *)
Example batch_run_C_plus_1 :
  completion_order (fun t => 3 * t + 1) 2 (seq 0 2) 0 = [1; 0]
  /\ batch_loop nat reject_m2 (fun _ t => 3 * t + 1) ["m1"; "m2"; "m3"] 2
       3 (start nat 0)
     = Done nat [ ItemResult "m1" true None;
                  ItemResult "m2" false (Some "Not Found");
                  ItemResult "m3" true None ] 3.
Proof. split; vm_compute; reflexivity. Qed.

Example batch_run_empty :
  batch_loop nat reject_m2 (fun _ t => t) [] 2 1 (start nat 0) = Done nat [] 0.
Proof. reflexivity. Qed.

Example batch_run_below_C :
  batch_loop nat reject_m2 (fun _ t => t) ["m2"] 2 2 (start nat 0)
  = Done nat [ItemResult "m2" false (Some "Not Found")] 1.
Proof. vm_compute. reflexivity. Qed.

Example batch_run_exactly_C :
  batch_loop nat reject_m2 (fun _ t => t) ["m1"; "m2"] 2 2 (start nat 0)
  = Done nat [ ItemResult "m1" true None;
               ItemResult "m2" false (Some "Not Found") ] 2.
Proof. vm_compute. reflexivity. Qed.

Example batch_report_text :
  report "modify" "modified"
    [ ItemResult "m1" true None; ItemResult "m2" false (Some "Not Found");
      ItemResult "m3" true None ]
  = "Batch modify completed. Successfully modified: 2, Failed: 1".
Proof. vm_compute. reflexivity. Qed.

End Batch.

(** ** The batch loop with any number as [batchSize]

    Both tools declare [batchSize] as [z.number().default(50)] (source
    lines 650 and 714): fractions, zero and negative numbers pass the
    schema and reach the loop.  Here the loop of source lines 657-682
    and 721-742 is written once more for such numbers.  A number is an
    exact fraction (the arguments arrive as JSON, which has neither
    infinities nor NaN); a double is one, and the sums the loop forms are
    those of the source as long as they fit a double without rounding.
    The facts below are stated on the loop index itself, not on a closed
    form of it. *)

Module BatchNum.
Import Js Batch.

(** [x < y] on numbers. *)
Definition lt (x y : Q) : bool := negb (Qle_bool y x).

(** [ToIntegerOrInfinity] of a finite number: the fraction is dropped. *)
Definition truncate (x : Q) : Z :=
  if Qle_bool 0 x then Qfloor x else (- Qfloor (- x))%Z.

(** [xs.slice(start, stop)] with numbers as bounds: [Array.prototype.slice]
    takes both through [ToIntegerOrInfinity]. *)
Definition slice_number {A} (xs : list A) (start stop : Q) : list A :=
  slice xs (truncate start) (truncate stop).

Section Engine.

Variable G : Type.
Variable call : string -> G -> option string * G.

(** Scheduler: for the chunk starting at loop index [i], which pending
    request completes next. *)
Variable pick : Q -> nat -> nat.

Variable messageIds : list string.
Variable batchSize : Q.

(** Loop variables: [i], [results] and the mailbox. *)
Record loop_state : Type := LoopState {
  index : Q;
  results : list item_result;
  mailbox : G
}.

Inductive step_result : Type :=
  | Exit
  | Next (st : loop_state)
  | Unsettled.

(** One evaluation of the loop test and body. *)
Definition iteration (st : loop_state) : step_result :=
  if lt (index st) (inject_Z (Z.of_nat (length messageIds))) then
    let batch := slice_number messageIds (index st) (index st + batchSize) in
    match run_chunk G call (fun _ => pick (index st)) 0 batch (mailbox st) with
    | Some (batchResults, g') =>
        Next (LoopState (index st + batchSize) (results st ++ batchResults) g')
    | None => Unsettled
    end
  else Exit.

(** The [for] loop, cut off after [fuel] iterations ([Running]). *)
Fixpoint batch_loop (fuel : nat) (st : loop_state) : outcome G :=
  match fuel with
  | 0 => Running G
  | S fuel' =>
      match iteration st with
      | Exit => Done G (results st) (mailbox st)
      | Next st' => batch_loop fuel' st'
      | Unsettled => Blocked G
      end
  end.

(** The loop variables at the head of the [n]-th iteration, when the loop
    gets that far. *)
Fixpoint state_at (n : nat) (st : loop_state) : option loop_state :=
  match n with
  | 0 => Some st
  | S n' =>
      match state_at n' st with
      | Some s =>
          match iteration s with
          | Next s' => Some s'
          | _ => None
          end
      | None => None
      end
  end.

Definition start (g : G) : loop_state := LoopState 0 [] g.

(** The chunk processed by the iteration that starts in state [st]. *)
Definition chunk_of (st : loop_state) : list string :=
  slice_number messageIds (index st) (index st + batchSize).

End Engine.

(** *** Numbers and their integer parts *)

Lemma lt_spec (x y : Q) : lt x y = true <-> (x < y)%Q.
Proof.
  unfold lt. rewrite negb_true_iff. split.
  - intros H. apply Qnot_le_lt. intros Hle.
    apply Qle_bool_iff in Hle. congruence.
  - intros H. destruct (Qle_bool y x) eqn:Hb; [|reflexivity].
    apply Qle_bool_iff in Hb. exfalso. exact (Qlt_not_le _ _ H Hb).
Qed.

Lemma lt_false (x y : Q) : lt x y = false <-> (y <= x)%Q.
Proof.
  unfold lt. rewrite negb_false_iff. apply Qle_bool_iff.
Qed.

#[local] Instance truncate_comp : Proper (Qeq ==> eq) truncate.
Proof.
  intros x y H. unfold truncate.
  assert (Qle_bool 0 x = Qle_bool 0 y) as -> by (now rewrite H).
  assert (Qfloor x = Qfloor y) as -> by (now rewrite H).
  assert (Qfloor (- x) = Qfloor (- y)) as -> by (now rewrite H).
  reflexivity.
Qed.

Lemma truncate_nonneg (x : Q) : (0 <= x)%Q -> truncate x = Qfloor x.
Proof.
  intros H. unfold truncate. apply Qle_bool_iff in H. now rewrite H.
Qed.

Lemma truncate_nonpos (x : Q) : (x <= 0)%Q -> truncate x = Qceiling x.
Proof.
  intros H. unfold truncate. destruct (Qle_bool 0 x) eqn:Hb; [|reflexivity].
  apply Qle_bool_iff in Hb.
  assert (Hx : (x == 0)%Q) by (now apply Qle_antisym).
  now rewrite Hx.
Qed.

Lemma Qfloor_lower (x : Q) (z : Z) : (inject_Z z <= x)%Q -> (z <= Qfloor x)%Z.
Proof.
  intros H. rewrite <- (Qfloor_Z z). now apply Qfloor_resp_le.
Qed.

Lemma Qfloor_upper (x : Q) (z : Z) : (x < inject_Z z)%Q -> (Qfloor x < z)%Z.
Proof.
  intros H. rewrite Zlt_Qlt. eapply Qle_lt_trans; [apply Qfloor_le | exact H].
Qed.

Lemma Qceiling_upper (x : Q) (z : Z) :
  (x <= inject_Z z)%Q -> (Qceiling x <= z)%Z.
Proof.
  intros H. rewrite <- (Qceiling_Z z). now apply Qceiling_resp_le.
Qed.

Lemma Qceiling_lower (x : Q) (z : Z) :
  (inject_Z z < x)%Q -> (z < Qceiling x)%Z.
Proof.
  intros H. rewrite Zlt_Qlt. eapply Qlt_le_trans; [exact H | apply Qle_ceiling].
Qed.

(** *** Slices of the id list *)

Lemma slice_forward {A} (xs : list A) (i j : Z) :
  (0 <= i)%Z -> (i <= j)%Z ->
  slice xs i j = take (Z.to_nat (j - i)) (drop (Z.to_nat i) xs).
Proof.
  intros Hi Hj. unfold slice, relative.
  destruct (Z.ltb_spec i 0); [lia|].
  destruct (Z.ltb_spec j 0); [lia|].
  destruct (Z.le_gt_cases (Z.of_nat (length xs)) i) as [Hout|Hin].
  - rewrite (Z.min_r i) by lia.
    rewrite !drop_ge by lia. now rewrite !take_nil.
  - rewrite (Z.min_l i) by lia.
    destruct (Z.le_gt_cases j (Z.of_nat (length xs))) as [Hle|Hgt].
    + rewrite Z.min_l by lia. f_equal. lia.
    + rewrite Z.min_r by lia.
      rewrite !take_ge; [reflexivity | |]; rewrite length_drop; lia.
Qed.

Lemma slice_from_end {A} (xs : list A) (i j : Z) :
  (i < 0)%Z -> (j <= i)%Z -> slice xs i j = [].
Proof.
  intros Hi Hj. replace j with (i + (j - i))%Z by lia.
  apply slice_backwards; lia.
Qed.

Lemma slice_head {A} (xs : list A) (j : Z) :
  (j < 0)%Z -> slice xs 0 j = take (length xs - Z.to_nat (- j)) xs.
Proof. intros Hj. exact (slice_first_negative xs j Hj). Qed.

(** With an index and a step that are zero or below, the slice is empty
    unless the start is still above -1 and the end is not: then it counts
    from the end of the list. *)
Lemma chunk_nonpositive {A} (xs : list A) (i b : Q) :
  (i <= 0)%Q -> (b <= 0)%Q -> (i == 0 \/ i <= b)%Q ->
  slice_number xs i (i + b)
  = if lt (-1) i && Qle_bool (i + b) (-1)
    then take (length xs - Z.to_nat (Z.max 1 (- truncate b))) xs
    else [].
Proof.
  intros Hi Hb Hinv. unfold slice_number.
  assert (He : (i + b <= 0)%Q) by lra.
  rewrite (truncate_nonpos i Hi), (truncate_nonpos (i + b) He).
  destruct (lt (-1) i) eqn:Hlt; cbn [andb].
  - apply lt_spec in Hlt.
    assert (Hti : Qceiling i = 0%Z).
    { pose proof (Qceiling_upper i 0 Hi).
      pose proof (Qceiling_lower i (-1) Hlt). lia. }
    rewrite Hti.
    destruct (Qle_bool (i + b) (-1)) eqn:Hle.
    + apply Qle_bool_iff in Hle.
      pose proof (Qceiling_upper (i + b) (-1) Hle) as Hte.
      rewrite slice_head by lia. do 3 f_equal.
      destruct Hinv as [H0|Hib].
      * assert (Heq : (i + b == b)%Q) by lra.
        assert (Hb1 : (b <= -1)%Q) by lra.
        pose proof (Qceiling_upper b (-1) Hb1) as Htb.
        rewrite (truncate_nonpos b Hb).
        assert (Qceiling (i + b) = Qceiling b) as -> by (now rewrite Heq).
        lia.
      * assert (Hb1 : (-1 < b)%Q) by lra.
        assert (Htb : truncate b = 0%Z).
        { rewrite (truncate_nonpos b Hb).
          pose proof (Qceiling_upper b 0 Hb).
          pose proof (Qceiling_lower b (-1) Hb1). lia. }
        assert (He2 : (-2 < i + b)%Q) by lra.
        pose proof (Qceiling_lower (i + b) (-2) He2). rewrite Htb. lia.
    + assert (Hgt : (-1 < i + b)%Q).
      { apply Qnot_le_lt. intros Hle'. apply Qle_bool_iff in Hle'. congruence. }
      assert (Hte : Qceiling (i + b) = 0%Z).
      { pose proof (Qceiling_upper (i + b) 0 He).
        pose proof (Qceiling_lower (i + b) (-1) Hgt). lia. }
      rewrite Hte. exact (slice_backwards xs 0 0 ltac:(lia) ltac:(lia)
                            ltac:(lia)).
  - apply lt_false in Hlt.
    pose proof (Qceiling_upper i (-1) Hlt).
    assert (Hmono : (i + b <= i)%Q) by lra.
    pose proof (Qceiling_resp_le (i + b) i Hmono).
    apply slice_from_end; lia.
Qed.

(** With an index that is zero or above and a step above zero, the slice
    runs from the integer part of the index to that of the next index,
    and holds no more ids than the step rounded up. *)
Lemma chunk_positive {A} (xs : list A) (i b : Q) :
  (0 <= i)%Q -> (0 < b)%Q ->
  slice_number xs i (i + b)
  = take (Z.to_nat (truncate (i + b) - truncate i))
      (drop (Z.to_nat (truncate i)) xs)
  /\ (0 <= truncate i <= truncate (i + b))%Z
  /\ (truncate (i + b) - truncate i <= Qceiling b)%Z.
Proof.
  intros Hi Hb. unfold slice_number.
  assert (He : (0 <= i + b)%Q) by lra.
  rewrite (truncate_nonneg i Hi), (truncate_nonneg (i + b) He).
  pose proof (Qfloor_lower i 0 Hi) as H0.
  assert (Hmono : (i <= i + b)%Q) by lra.
  pose proof (Qfloor_resp_le i (i + b) Hmono) as Hle.
  split; [apply slice_forward; lia|]. split; [lia|].
  assert (Hup : (i + b < inject_Z (Qfloor i + 1 + Qceiling b))%Q).
  { rewrite !inject_Z_plus.
    pose proof (Qlt_floor i) as Hf. rewrite inject_Z_plus in Hf.
    pose proof (Qle_ceiling b). lra. }
  pose proof (Qfloor_upper _ _ Hup). lia.
Qed.

Section EngineFacts.

Variable G : Type.
Variable call : string -> G -> option string * G.
Variable pick : Q -> nat -> nat.
Variable messageIds : list string.
Variable batchSize : Q.

Local Notation iteration := (iteration G call pick messageIds batchSize).
Local Notation batch_loop := (batch_loop G call pick messageIds batchSize).
Local Notation state_at := (state_at G call pick messageIds batchSize).
Local Notation chunk_of := (chunk_of G messageIds batchSize).
Local Notation len := (inject_Z (Z.of_nat (length messageIds))).

(** While the loop test holds, the body runs to its end. *)
Lemma iteration_runs (st : loop_state G) :
  (index G st < len)%Q ->
  exists rs g',
    iteration st
    = Next G (LoopState G (index G st + batchSize) (results G st ++ rs) g')
    /\ map messageId rs = chunk_of st /\ Forall marked rs.
Proof.
  intros Hlt. unfold BatchNum.iteration.
  apply lt_spec in Hlt. rewrite Hlt.
  destruct (run_chunk_ok G call (fun _ => pick (index G st)) 0 (chunk_of st)
              (mailbox G st)) as (rs & g' & Hrun & Hmap & Hall).
  unfold BatchNum.chunk_of in Hrun. rewrite Hrun. eauto.
Qed.

Lemma iteration_exit (st : loop_state G) :
  (len <= index G st)%Q -> iteration st = Exit G.
Proof.
  intros Hge. unfold BatchNum.iteration.
  apply lt_false in Hge. now rewrite Hge.
Qed.

Lemma iteration_adds (st st' : loop_state G) :
  iteration st = Next G st' -> index G st' = (index G st + batchSize)%Q.
Proof.
  unfold BatchNum.iteration.
  destruct (lt (index G st) len); [|discriminate].
  destruct (run_chunk G call _ 0 _ (mailbox G st)) as [[rs g']|];
    [|discriminate].
  now intros [= <-].
Qed.

Lemma state_at_S (n : nat) (s0 st st' : loop_state G) :
  state_at n s0 = Some st -> state_at (S n) s0 = Some st' ->
  iteration st = Next G st'.
Proof.
  intros Hst. cbn [BatchNum.state_at]. rewrite Hst.
  destruct (iteration st) as [|s'|]; try discriminate. now intros [= ->].
Qed.

Lemma batch_loop_S (fuel : nat) (st : loop_state G) :
  batch_loop (S fuel) st
  = match iteration st with
    | Exit _ => Done G (results G st) (mailbox G st)
    | Next _ st' => batch_loop fuel st'
    | Unsettled _ => Blocked G
    end.
Proof. reflexivity. Qed.

Lemma batch_loop_ends (n : nat) :
  forall st : loop_state G,
    (1 <= batchSize)%Q ->
    (len - index G st <= inject_Z (Z.of_nat n))%Q ->
    exists rs g', batch_loop (S n) st = Done G rs g'.
Proof.
  induction n as [|n IH]; intros st Hc Hn; rewrite batch_loop_S.
  - rewrite iteration_exit; [eauto|].
    change (inject_Z (Z.of_nat 0)) with 0%Q in Hn. lra.
  - destruct (Qlt_le_dec (index G st) len) as [Hlt|Hge].
    + destruct (iteration_runs st Hlt) as (rs & g' & Hit & _).
      rewrite Hit. apply IH; [exact Hc|].
      cbn [index]. rewrite Nat2Z.inj_succ in Hn. unfold Z.succ in Hn.
      rewrite inject_Z_plus in Hn. change (inject_Z 1) with 1%Q in Hn.
      set (k := inject_Z (Z.of_nat n)) in *.
      set (l := len) in *. lra.
    + rewrite iteration_exit by exact Hge. eauto.
Qed.

Section Stalled.

Hypothesis nonempty : messageIds <> [].
Hypothesis nonpositive : (batchSize <= 0)%Q.

Lemma length_positive : (0 < len)%Q.
Proof.
  change (inject_Z 0 < len)%Q. rewrite <- Zlt_Qlt.
  destruct messageIds; [congruence | cbn; lia].
Qed.

(** What the loop keeps true of its index: it is zero, or it has come
    down by at least one step. *)
Definition stalled (st : loop_state G) : Prop :=
  (index G st <= 0)%Q /\ (index G st == 0 \/ index G st <= batchSize)%Q.

Lemma stalled_next (st : loop_state G) :
  stalled st ->
  exists st', iteration st = Next G st' /\ stalled st'.
Proof.
  intros [Hi Hinv]. pose proof length_positive as Hlen.
  destruct (iteration_runs st) as (rs & g' & Hit & _); [lra|].
  eexists. split; [exact Hit|]. unfold stalled. cbn [index].
  split; [lra|]. right. lra.
Qed.

Lemma state_at_stalled (g : G) (n : nat) :
  exists st, state_at n (start G g) = Some st /\ stalled st.
Proof.
  induction n as [|n (st & Hst & Hinv)].
  - exists (start G g). split; [reflexivity|].
    unfold stalled, start. cbn [index]. split; [lra | left; reflexivity].
  - cbn [BatchNum.state_at]. rewrite Hst.
    destruct (stalled_next st Hinv) as (st' & -> & Hinv'). eauto.
Qed.

Lemma batch_loop_stalled (fuel : nat) :
  forall st : loop_state G,
    stalled st -> batch_loop fuel st = Running G.
Proof.
  induction fuel as [|fuel IH]; intros st Hinv; [reflexivity|].
  rewrite batch_loop_S.
  destruct (stalled_next st Hinv) as (st' & -> & Hinv'). now apply IH.
Qed.

Lemma chunk_stalled (st : loop_state G) :
  stalled st ->
  chunk_of st
  = if lt (-1) (index G st) && Qle_bool (index G st + batchSize) (-1)
    then take (length messageIds
               - Z.to_nat (Z.max 1 (- truncate batchSize))) messageIds
    else [].
Proof.
  intros [Hi Hinv]. now apply chunk_nonpositive.
Qed.

(** The index never comes back up. *)
Lemma index_falls (g : G) (n k : nat) (st st' : loop_state G) :
  state_at n (start G g) = Some st ->
  state_at (S (n + k)) (start G g) = Some st' ->
  (index G st' <= index G st + batchSize)%Q.
Proof.
  intros Hst. revert st'. induction k as [|k IH]; intros st'.
  - rewrite Nat.add_0_r. intros Hst'.
    rewrite (iteration_adds st st' (state_at_S n _ st st' Hst Hst')). lra.
  - rewrite Nat.add_succ_r. intros Hst'.
    destruct (state_at (S (n + k)) (start G g)) as [s|] eqn:Hs.
    + rewrite (iteration_adds s st' (state_at_S _ _ s st' Hs Hst')).
      specialize (IH s eq_refl). lra.
    + cbn [BatchNum.state_at] in Hst'. cbn [BatchNum.state_at] in Hs.
      rewrite Hs in Hst'. discriminate.
Qed.

End Stalled.

End EngineFacts.

(** *** Whole numbers: the loop of [Batch] *)

Section Integer.

Variable G : Type.
Variable call : string -> G -> option string * G.
Variable pick : Q -> nat -> nat.
Variable messageIds : list string.
Variable batchSize : Z.

Definition of_integer (st : Batch.loop_state G) : loop_state G :=
  LoopState G (inject_Z (Batch.index G st)) (Batch.results G st)
    (Batch.mailbox G st).

Lemma inject_Z_add (a b : Z) : (inject_Z a + inject_Z b)%Q = inject_Z (a + b).
Proof. unfold Qplus, inject_Z. cbn. f_equal. lia. Qed.

Lemma truncate_integer (a : Z) : truncate (inject_Z a) = a.
Proof.
  unfold truncate. destruct (Qle_bool 0 (inject_Z a)).
  - apply Qfloor_Z.
  - change (- inject_Z a)%Q with (inject_Z (- a)). rewrite Qfloor_Z. lia.
Qed.

Lemma lt_integer (a b : Z) : lt (inject_Z a) (inject_Z b) = (a <? b)%Z.
Proof.
  destruct (Z.ltb_spec a b) as [H|H].
  - apply lt_spec. now rewrite <- Zlt_Qlt.
  - apply lt_false. now rewrite <- Zle_Qle.
Qed.

Lemma iteration_integer (st : Batch.loop_state G) :
  iteration G call pick messageIds (inject_Z batchSize) (of_integer st)
  = match Batch.iteration G call (fun i => pick (inject_Z i)) messageIds
            batchSize st with
    | Batch.Exit _ => Exit G
    | Batch.Next _ st' => Next G (of_integer st')
    | Batch.Unsettled _ => Unsettled G
    end.
Proof.
  unfold iteration, Batch.iteration, of_integer, slice_number.
  cbn [index results mailbox].
  rewrite lt_integer, inject_Z_add, !truncate_integer.
  destruct (Batch.index G st <? Z.of_nat (length messageIds))%Z;
    [|reflexivity].
  change (run_chunk G call (fun _ : Z => pick (inject_Z (Batch.index G st))) 0)
    with (run_chunk G call (fun i : Z => pick (inject_Z i))
            (Batch.index G st)).
  now destruct (run_chunk G call (fun i : Z => pick (inject_Z i))
                  (Batch.index G st) _ (Batch.mailbox G st)) as [[rs g']|].
Qed.

(** With a whole number as [batchSize] the loop is the one of [Batch]. *)
Lemma batch_loop_integer (fuel : nat) :
  forall st : Batch.loop_state G,
    batch_loop G call pick messageIds (inject_Z batchSize) fuel
      (of_integer st)
    = Batch.batch_loop G call (fun i => pick (inject_Z i)) messageIds
        batchSize fuel st.
Proof.
  induction fuel as [|fuel IH]; intros st; [reflexivity|].
  rewrite batch_loop_S, iteration_integer. cbn [Batch.batch_loop].
  destruct (Batch.iteration G call (fun i => pick (inject_Z i)) messageIds
              batchSize st) as [|st'|]; [reflexivity | apply IH | reflexivity].
Qed.

End Integer.

Definition half : Q := 1 # 2.

(** C9, as stated, fails for a negative [batchSize]: with ids [m1; m2] and
    [batchSize = -1] the chunk of the first iteration is [m1], not
    empty. *)
Lemma stalled_loop_counterexample :
  ~ (forall (G : Type) (call : string -> G -> option string * G)
            (pick : Q -> nat -> nat) (messageIds : list string)
            (batchSize : Q) (g : G),
       messageIds <> [] -> (batchSize <= 0)%Q ->
       forall n st,
         state_at G call pick messageIds batchSize n (start G g) = Some st ->
         (index G st <= 0)%Q /\ chunk_of G messageIds batchSize st = []).
Proof.
  intros H.
  destruct (H nat reject_m2 (fun _ t => t) ["m1"; "m2"] (-1)%Q 0
              ltac:(discriminate) ltac:(discriminate) 0 (start nat 0) eq_refl)
    as [_ Hchunk].
  vm_compute in Hchunk. discriminate Hchunk.
Qed.

(** The sizes of the slices at the head of the first [n] iterations (the
    last head reached may be the one at which the loop test fails). *)
Definition chunk_sizes {G : Type} (call : string -> G -> option string * G)
  (pick : Q -> nat -> nat) (messageIds : list string) (batchSize : Q)
  (g : G) (n : nat) : list (option nat) :=
  map (fun k =>
         option_map (fun st => length (chunk_of G messageIds batchSize st))
           (state_at G call pick messageIds batchSize k (start G g)))
    (seq 0 n).

Example negative_batch_sizes :
  chunk_sizes reject_m2 (fun _ t => t) ["m1"; "m2"; "m3"] (-1)%Q 0 4
  = [Some 2; Some 0; Some 0; Some 0]
  /\ chunk_sizes reject_m2 (fun _ t => t) ["m1"; "m2"; "m3"] (- half)%Q 0 4
     = [Some 0; Some 2; Some 0; Some 0]
  /\ chunk_sizes reject_m2 (fun _ t => t) ["m1"; "m2"; "m3"] (-2 - half)%Q 0 4
     = [Some 1; Some 0; Some 0; Some 0]
  /\ chunk_sizes reject_m2 (fun _ t => t) ["m1"; "m2"; "m3"] 0%Q 0 4
     = [Some 0; Some 0; Some 0; Some 0]
  /\ chunk_sizes reject_m2 (fun _ t => t) ["m1"; "m2"; "m3"] (1 + half)%Q 0 4
     = [Some 1; Some 2; Some 0; None].
Proof. repeat split; vm_compute; reflexivity. Qed.

(** C9 (amended): the loop ends for every input when [batchSize >= 1].
    For a non-empty id list and [batchSize <= 0] it never ends: the index
    starts at 0 and every iteration adds [batchSize] to it, so it never
    rises above 0 and the loop test stays true.  The slices are not all
    empty.  With [batchSize = 0] they are.  With a negative [batchSize],
    the slice of an iteration is empty unless its start index is still
    above -1 and its end index, one [batchSize] further down, is at -1 or
    below; that happens in one iteration only (the first one when
    [batchSize <= -1]), and the slice then counts from the end of the
    list: it holds all ids but the last [max(1, |trunc(batchSize)|)]. *)
Theorem batch_loop_termination (G : Type)
  (call : string -> G -> option string * G) (pick : Q -> nat -> nat)
  (messageIds : list string) (batchSize : Q) (g : G) :
  ((1 <= batchSize)%Q ->
   exists fuel rs g',
     batch_loop G call pick messageIds batchSize fuel (start G g)
     = Done G rs g')
  /\ (messageIds <> [] -> (batchSize <= 0)%Q ->
      (forall fuel,
          batch_loop G call pick messageIds batchSize fuel (start G g)
          = Running G)
      /\ (forall n, exists st,
            state_at G call pick messageIds batchSize n (start G g) = Some st
            /\ (index G st <= 0)%Q
            /\ chunk_of G messageIds batchSize st
               = if lt (-1) (index G st)
                    && Qle_bool (index G st + batchSize) (-1)
                 then take (length messageIds
                            - Z.to_nat (Z.max 1 (- truncate batchSize)))
                        messageIds
                 else [])
      /\ (forall n st st',
            state_at G call pick messageIds batchSize n (start G g) = Some st ->
            state_at G call pick messageIds batchSize (S n) (start G g)
            = Some st' ->
            index G st' = (index G st + batchSize)%Q)
      /\ (forall n m st st',
            state_at G call pick messageIds batchSize n (start G g) = Some st ->
            state_at G call pick messageIds batchSize m (start G g)
            = Some st' ->
            chunk_of G messageIds batchSize st <> [] ->
            chunk_of G messageIds batchSize st' <> [] ->
            n = m)
      /\ ((batchSize == 0)%Q ->
          forall n st,
            state_at G call pick messageIds batchSize n (start G g) = Some st ->
            chunk_of G messageIds batchSize st = [])
      /\ ((batchSize <= -1)%Q ->
          chunk_of G messageIds batchSize (start G g)
          = take (length messageIds - Z.to_nat (- truncate batchSize))
              messageIds)).
Proof.
  split.
  - intros Hc.
    destruct (batch_loop_ends G call pick messageIds batchSize
                (length messageIds) (start G g) Hc)
      as (rs & g' & Hloop); [|eauto].
    cbn [start index]. lra.
  - intros Hne Hc.
    assert (Hstart : stalled G batchSize (start G g)).
    { unfold stalled, start. cbn [index]. split; [lra | left; reflexivity]. }
    assert (Hinv : forall n st,
               state_at G call pick messageIds batchSize n (start G g)
               = Some st -> stalled G batchSize st).
    { intros n st Hst.
      destruct (state_at_stalled G call pick messageIds batchSize Hne Hc g n)
        as (st0 & Hst0 & Hinv). congruence. }
    assert (Hlater : forall n m st st',
               n < m ->
               state_at G call pick messageIds batchSize n (start G g)
               = Some st ->
               state_at G call pick messageIds batchSize m (start G g)
               = Some st' ->
               chunk_of G messageIds batchSize st <> [] ->
               chunk_of G messageIds batchSize st' = []).
    { intros n m st st' Hnm Hst Hst' Hfull.
      rewrite (chunk_stalled G messageIds batchSize Hc st (Hinv n st Hst))
        in Hfull.
      rewrite (chunk_stalled G messageIds batchSize Hc st' (Hinv m st' Hst')).
      destruct (lt (-1) (index G st)); [|now cbn in Hfull].
      destruct (Qle_bool (index G st + batchSize) (-1)) eqn:Hle;
        [|now cbn in Hfull].
      apply Qle_bool_iff in Hle.
      replace m with (S (n + (m - S n))) in Hst' by lia.
      pose proof (index_falls G call pick messageIds batchSize Hc g n _ st st'
                    Hst Hst') as Hfall.
      assert (Hlow : lt (-1) (index G st') = false)
        by (apply lt_false; lra).
      now rewrite Hlow. }
    split; [|split; [|split; [|split; [|split]]]].
    + intros fuel. now apply batch_loop_stalled.
    + intros n.
      destruct (state_at_stalled G call pick messageIds batchSize Hne Hc g n)
        as (st & Hst & Hinv').
      exists st. split; [exact Hst|]. split; [apply Hinv'|].
      now apply chunk_stalled.
    + intros n st st' Hst Hst'.
      exact (iteration_adds G call pick messageIds batchSize st st'
               (state_at_S G call pick messageIds batchSize n _ st st'
                  Hst Hst')).
    + intros n m st st' Hst Hst' Hfull Hfull'.
      destruct (Nat.lt_trichotomy n m) as [Hlt|[Heq|Hgt]]; [|exact Heq|].
      * now rewrite (Hlater n m st st' Hlt Hst Hst' Hfull) in Hfull'.
      * now rewrite (Hlater m n st' st Hgt Hst' Hst Hfull') in Hfull.
    + intros H0 n st Hst.
      rewrite (chunk_stalled G messageIds batchSize Hc st (Hinv n st Hst)).
      destruct (lt (-1) (index G st)) eqn:Hlt; [|reflexivity].
      apply lt_spec in Hlt.
      destruct (Qle_bool (index G st + batchSize) (-1)) eqn:Hle;
        [|reflexivity].
      apply Qle_bool_iff in Hle. lra.
    + intros Hb.
      rewrite (chunk_stalled G messageIds batchSize Hc _ Hstart).
      cbn [start index].
      assert (Hle : Qle_bool (0 + batchSize) (-1) = true)
        by (apply Qle_bool_iff; lra).
      rewrite Hle. cbn [andb].
      change (lt (-1) 0) with true. cbv iota.
      pose proof (Qceiling_upper batchSize (-1) Hb) as Htb.
      rewrite (truncate_nonpos batchSize Hc). do 3 f_equal. lia.
Qed.

Lemma batch_loop_termination_witness :
  (exists fuel rs g',
      batch_loop nat reject_m2 (fun _ t => t) ["m1"; "m2"; "m3"] (1 + half)%Q
        fuel (start nat 0) = Done nat rs g')
  /\ (forall fuel,
        batch_loop nat reject_m2 (fun _ t => t) ["m1"; "m2"; "m3"] (- half)%Q
          fuel (start nat 0) = Running nat).
Proof.
  split.
  - apply (proj1 (batch_loop_termination nat reject_m2 (fun _ t => t)
                    ["m1"; "m2"; "m3"] (1 + half)%Q 0)).
    discriminate.
  - apply (proj2 (batch_loop_termination nat reject_m2 (fun _ t => t)
                    ["m1"; "m2"; "m3"] (- half)%Q 0));
      [discriminate | discriminate].
Defined.

End BatchNum.

(** ** The listing tools: [gmail_search_emails] and [gmail_list_threads] *)

Module Listing.
Import Js.

(** A header of a message payload; both fields are optional in the
    gateway's types. *)
Record header : Type := Header {
  name : option string;
  value : option string
}.

(** An entry of [results] in [gmail_search_emails]. *)
Record search_entry : Type := SearchEntry {
  se_id : string;
  se_subject : string;
  se_from : string;
  se_date : string
}.

(** An entry of [results] in [gmail_list_threads]. *)
Record thread_entry : Type := ThreadEntry {
  te_id : string;
  te_messageCount : nat;
  te_subject : string;
  te_participants : string;
  te_lastDate : string
}.

Section Tools.

Variable toLowerCase : string -> string.

(** State of the remote mailbox. *)
Variable G : Type.

(** [messages.get] with [format: 'metadata']: [inl] when the call throws,
    otherwise [fullMessage.data.payload?.headers || []]. *)
Variable get_message : string -> G -> (thrown + list header) * G.

(** [threads.get]: [inl] when the call throws, otherwise
    [threadDetail.data.messages], each message given by its
    [payload?.headers || []]. *)
Variable get_thread :
  string -> G -> (thrown + option (list (list header))) * G.

(** [headers.find(h => h.name?.toLowerCase() === name.toLowerCase())?.value
    || ''] *)
Definition getHeader (headers : list header) (n : string) : string :=
  match
    List.find
      (fun h =>
         match name h with
         | Some x => str_eq (toLowerCase x) (toLowerCase n)
         | None => false
         end)
      headers
  with
  | Some h => or_else (value h) ""
  | None => ""
  end.

(** The [for ... of] loop of [gmail_search_emails] (source lines 512-535):
    a message whose metadata cannot be fetched is skipped. *)
Fixpoint enrich (messages : list string) (results : list search_entry)
  (g : G) : list search_entry * G :=
  match messages with
  | [] => (results, g)
  | id :: rest =>
      match get_message id g with
      | (inr headers, g') =>
          enrich rest
            (results ++ [SearchEntry id (getHeader headers "Subject")
                           (getHeader headers "From")
                           (getHeader headers "Date")])
            g'
      | (inl _, g') => enrich rest results g'
      end
  end.

Definition search_line (r : search_entry) : string :=
  "ID: " +:+ se_id r +:+ nl +:+ "Subject: " +:+ se_subject r +:+ nl
    +:+ "From: " +:+ se_from r +:+ nl +:+ "Date: " +:+ se_date r +:+ nl
    +:+ "---".

Definition search_text (found : nat) (results : list search_entry) : string :=
  "Found " +:+ show_nat found +:+ " messages. Showing first "
    +:+ show_nat (length results) +:+ ":" +:+ nl +:+ nl
    +:+ join nl (map search_line results).

Definition no_messages : string :=
  "No messages found matching the search query.".

(** [gmail_search_emails] from the answer of [messages.list] on:
    [response] is [inl] when the listing throws, otherwise
    [response.data.messages] (the ids). *)
Definition gmail_search_emails (response : thrown + option (list string))
  (g : G) : string * G :=
  match response with
  | inl message => ("Failed to search emails: " +:+ message, g)
  | inr data =>
      let messages := match data with Some ms => ms | None => [] end in
      if length messages =? 0 then (no_messages, g)
      else
        let shown :=
          slice messages 0 (Z.min 10 (Z.of_nat (length messages))) in
        let '(results, g') := enrich shown [] g in
        (search_text (length messages) results, g')
  end.

(** The loop of [gmail_list_threads] (source lines 1227-1248): a failing
    [threads.get] is not caught here and ends the handler. *)
Fixpoint detail (threads : list string) (results : list thread_entry)
  (g : G) : (thrown + list thread_entry) * G :=
  match threads with
  | [] => (inr results, g)
  | id :: rest =>
      match get_thread id g with
      | (inr messages, g') =>
          let headers :=
            match messages with
            | Some (first :: _) => first
            | _ => []
            end in
          let count :=
            match messages with Some ms => length ms | None => 0 end in
          detail rest
            (results ++
               [ThreadEntry id count
                  (or_else (Some (getHeader headers "Subject")) "(No Subject)")
                  (or_else (Some (getHeader headers "From")) "Unknown")
                  (or_else (Some (getHeader headers "Date")) "No Date")])
            g'
      | (inl message, g') => (inl message, g')
      end
  end.

Definition thread_line (r : thread_entry) : string :=
  "Thread ID: " +:+ te_id r +:+ nl
    +:+ "Messages: " +:+ show_nat (te_messageCount r) +:+ nl
    +:+ "Subject: " +:+ te_subject r +:+ nl
    +:+ "Participants: " +:+ te_participants r +:+ nl
    +:+ "Last Activity: " +:+ te_lastDate r +:+ nl +:+ "---".

Definition threads_text (found : nat) (results : list thread_entry) : string :=
  "Found " +:+ show_nat found +:+ " threads. Showing first "
    +:+ show_nat (length results) +:+ ":" +:+ nl +:+ nl
    +:+ join nl (map thread_line results).

Definition no_threads : string := "No threads found matching the criteria.".

(** [handleError(error, operation)] *)
Definition handleError (message : thrown) (operation : string) : string :=
  "Failed to " +:+ operation +:+ ": " +:+ message.

(** [gmail_list_threads] from the answer of [threads.list] on. *)
Definition gmail_list_threads (response : thrown + option (list string))
  (g : G) : string * G :=
  match response with
  | inl message => (handleError message "list threads", g)
  | inr data =>
      let threads := match data with Some ts => ts | None => [] end in
      if length threads =? 0 then (no_threads, g)
      else
        match detail (slice threads 0 10) [] g with
        | (inr results, g') => (threads_text (length threads) results, g')
        | (inl message, g') => (handleError message "list threads", g')
        end
  end.

End Tools.

(** *** Facts about the cap of ten *)

Lemma slice_prefix {A} (xs : list A) (stop : Z) :
  (0 <= stop)%Z -> slice xs 0 stop = take (Z.to_nat stop) xs.
Proof.
  intros Hstop. unfold slice, relative.
  destruct (Z.ltb_spec 0 0); [lia|].
  destruct (Z.ltb_spec stop 0); [lia|].
  rewrite (Z.min_l 0) by lia.
  change (drop (Z.to_nat 0) xs) with xs.
  destruct (Z.le_gt_cases stop (Z.of_nat (length xs))).
  - rewrite Z.min_l by lia. f_equal. lia.
  - rewrite Z.min_r by lia.
    rewrite (take_ge xs (Z.to_nat stop)) by lia. apply take_ge. lia.
Qed.

Lemma slice_min_10 {A} (xs : list A) :
  slice xs 0 (Z.min 10 (Z.of_nat (length xs))) = take 10 xs.
Proof.
  rewrite slice_prefix by lia.
  destruct (Z.le_gt_cases 10 (Z.of_nat (length xs))).
  - rewrite Z.min_l by lia. reflexivity.
  - rewrite Z.min_r by lia.
    rewrite (take_ge xs 10) by lia. apply take_ge. lia.
Qed.

Section ToolFacts.

Variable toLowerCase : string -> string.
Variable G : Type.
Variable get_message : string -> G -> (thrown + list header) * G.
Variable get_thread :
  string -> G -> (thrown + option (list (list header))) * G.

Local Notation enrich := (enrich toLowerCase G get_message).
Local Notation detail := (detail toLowerCase G get_thread).

Lemma enrich_sublist (messages : list string) :
  forall results g,
  exists added,
    (enrich messages results g).1 = results ++ added
    /\ map se_id added `sublist_of` messages.
Proof.
  induction messages as [|id rest IH]; intros results g; cbn [Listing.enrich].
  - exists []. rewrite app_nil_r. split; [reflexivity | constructor].
  - destruct (get_message id g) as [[message|headers] g'].
    + destruct (IH results g') as (added & Heq & Hsub).
      exists added. split; [exact Heq | now apply sublist_cons].
    + destruct (IH (results ++ [SearchEntry id
                      (getHeader toLowerCase headers "Subject")
                      (getHeader toLowerCase headers "From")
                      (getHeader toLowerCase headers "Date")]) g')
        as (added & Heq & Hsub).
      eexists (_ :: added). rewrite Heq, <- app_assoc.
      split; [reflexivity|]. cbn. now apply sublist_skip.
Qed.

Lemma enrich_all (messages : list string) :
  (forall id g, exists headers g', get_message id g = (inr headers, g')) ->
  forall results g,
  exists added,
    (enrich messages results g).1 = results ++ added
    /\ map se_id added = messages.
Proof.
  intros Hok.
  induction messages as [|id rest IH]; intros results g; cbn [Listing.enrich].
  - exists []. now rewrite app_nil_r.
  - destruct (Hok id g) as (headers & g' & ->).
    destruct (IH (results ++ [SearchEntry id
                    (getHeader toLowerCase headers "Subject")
                    (getHeader toLowerCase headers "From")
                    (getHeader toLowerCase headers "Date")]) g')
      as (added & Heq & Hmap).
    eexists (_ :: added). rewrite Heq, <- app_assoc.
    split; [reflexivity|]. cbn. now rewrite Hmap.
Qed.

Lemma detail_all (threads : list string) :
  forall results g,
    (exists added,
        (detail threads results g).1 = inr (results ++ added)
        /\ map te_id added = threads)
    \/ exists message, (detail threads results g).1 = inl message.
Proof.
  induction threads as [|id rest IH]; intros results g; cbn [Listing.detail].
  - left. exists []. now rewrite app_nil_r.
  - destruct (get_thread id g) as [[message|messages] g'].
    + right. eauto.
    + match goal with
      | |- context [Listing.detail _ _ _ rest ?rs g'] =>
          destruct (IH rs g') as [(added & Heq & Hmap)|[message Heq]]
      end.
      * left. eexists (_ :: added). rewrite Heq, <- app_assoc.
        split; [reflexivity|]. cbn. now rewrite Hmap.
      * right. eauto.
Qed.

End ToolFacts.

(** C8: with [M] ids returned by the listing, [gmail_search_emails]
    fetches metadata for the first [min(10, M)] ids only and shows the
    entries it could fetch, a sub-sequence of those ids, while the text
    reports [M] as the number found (for [M = 0] the text is the fixed
    no-matches sentence).  [gmail_list_threads] has the same cap: when every
    fetch succeeds it shows exactly the first [min(10, M)] threads and
    reports [M]; a failing fetch ends it with the error text. *)
Theorem listing_cap (toLowerCase : string -> string) (G : Type)
  (get_message : string -> G -> (thrown + list header) * G)
  (get_thread : string -> G -> (thrown + option (list (list header))) * G)
  (ids : list string) (g : G) :
  (exists results,
      (gmail_search_emails toLowerCase G get_message (inr (Some ids)) g).1
      = (if length ids =? 0 then no_messages
         else search_text (length ids) results)
      /\ results = (enrich toLowerCase G get_message (take 10 ids) [] g).1
      /\ map se_id results `sublist_of` take 10 ids
      /\ length results <= Nat.min 10 (length ids))
  /\ ((exists results,
         (gmail_list_threads toLowerCase G get_thread (inr (Some ids)) g).1
         = (if length ids =? 0 then no_threads
            else threads_text (length ids) results)
         /\ map te_id results = take 10 ids
         /\ length results = Nat.min 10 (length ids))
      \/ exists message,
          (gmail_list_threads toLowerCase G get_thread (inr (Some ids)) g).1
          = handleError message "list threads").
Proof.
  split.
  - exists (enrich toLowerCase G get_message (take 10 ids) [] g).1.
    destruct (enrich_sublist toLowerCase G get_message (take 10 ids) [] g)
      as (added & Heq & Hsub).
    cbn [app] in Heq. rewrite Heq in *.
    split; [|split; [reflexivity | split; [exact Hsub|]]].
    + unfold gmail_search_emails. destruct (length ids =? 0); [reflexivity|].
      rewrite slice_min_10.
      destruct (enrich toLowerCase G get_message (take 10 ids) [] g)
        as [results g'].
      cbn [fst] in *. now subst results.
    + apply sublist_length in Hsub.
      rewrite length_map, length_take in Hsub. exact Hsub.
  - unfold gmail_list_threads.
    destruct (length ids =? 0) eqn:Hzero.
    + left. exists []. apply Nat.eqb_eq in Hzero.
      destruct ids; [|discriminate]. now cbn.
    + rewrite slice_prefix by lia. change (Z.to_nat 10) with 10.
      destruct (detail_all toLowerCase G get_thread (take 10 ids) [] g)
        as [(added & Heq & Hmap)|[message Heq]];
        destruct (detail toLowerCase G get_thread (take 10 ids) [] g)
          as [[message'|results] g']; cbn [fst app] in Heq; try discriminate.
      * left. exists results. injection Heq as ->.
        split; [reflexivity | split; [exact Hmap|]].
        now rewrite <- (length_map te_id), Hmap, length_take.
      * right. eauto.
Qed.

(** When every metadata fetch succeeds, the search shows exactly the first
    [min(10, M)] ids. *)
Lemma search_shows_first_ten (toLowerCase : string -> string) (G : Type)
  (get_message : string -> G -> (thrown + list header) * G)
  (ids : list string) (g : G) :
  (forall id g, exists headers g', get_message id g = (inr headers, g')) ->
  map se_id (enrich toLowerCase G get_message (take 10 ids) [] g).1
  = take 10 ids.
Proof.
  intros Hok.
  destruct (enrich_all toLowerCase G get_message (take 10 ids) Hok [] g)
    as (added & Heq & Hmap).
  now rewrite Heq.
Qed.

(** Twelve matches, of which the fetch of [m04] fails. *)
Definition twelve : list string :=
  ["m01"; "m02"; "m03"; "m04"; "m05"; "m06";
   "m07"; "m08"; "m09"; "m10"; "m11"; "m12"].

Definition fetch_but_m04 (id : string) (g : nat)
  : (thrown + list header) * nat :=
  (if str_eq id "m04" then inl "Not Found"
   else inr [Header (Some "SUBJECT") (Some ("About " +:+ id))], S g).

Example search_twelve :
  let out := gmail_search_emails (fun x => x) nat fetch_but_m04
               (inr (Some twelve)) 0 in
  String.prefix "Found 12 messages. Showing first 9:" out.1 = true
  /\ out.2 = 10.
Proof. vm_compute. split; reflexivity. Qed.

End Listing.

(** ** Credential storage and the OAuth2 flow *)

Module Auth.
Import Js.

(** Parsed JSON, as far as the flow looks at it. *)
Inductive json : Type :=
  | JNull
  | JBool (b : bool)
  | JNumber (n : Z)
  | JString (s : string)
  | JArray (items : list json)
  | JObject (fields : list (string * json)).

(** [if (v)] *)
Definition json_truthy (v : json) : bool :=
  match v with
  | JNull => false
  | JBool b => b
  | JNumber n => negb (n =? 0)%Z
  | JString s => negb (str_eq s "")
  | JArray _ | JObject _ => true
  end.

(** How a block of statements ends. *)
Inductive completion (A : Type) : Type :=
  | Normal (v : A)
  | Throw (e : thrown).
Arguments Normal {A} v.
Arguments Throw {A} e.

(** The file at [TOKEN_PATH]. *)
Inductive file : Type :=
  | Absent
  | Unreadable (why : thrown)
  | Content (text : string).

(** What the process can observe and change outside its own memory. *)
Record host : Type := Host {
  token_file : file;
  write_error : option thrown;
  console : list string;
  saveToken_calls : nat
}.

Definition log (line : string) (h : host) : host :=
  Host (token_file h) (write_error h) (console h ++ [line]) (saveToken_calls h).

(** A value of [url.parse(req.url, true).query]: a string, or an array when
    the parameter is repeated. *)
Inductive query_value : Type :=
  | QString (s : string)
  | QArray (items : list string).

Definition query_truthy (q : option query_value) : bool :=
  match q with
  | Some (QString s) => negb (str_eq s "")
  | Some (QArray _) => true
  | None => false
  end.

(** The promise returned by [getAuthUrlAndWaitForCallback]. *)
Inductive promise_state : Type :=
  | Pending
  | Resolved
  | Rejected (e : thrown).

(** [resolve()] and [reject(e)] act on a pending promise only. *)
Definition settle_with (p new : promise_state) : promise_state :=
  match p with
  | Pending => new
  | _ => p
  end.

(** One interactive authorization: the local server, the promise, the
    credentials set on the OAuth2 client and the status codes sent. *)
Record attempt : Type := Attempt {
  listening : bool;
  promise : promise_state;
  credentials : option json;
  replies : list nat
}.

(** [process.env] as far as it is read. *)
Record environment : Type := Environment {
  GOOGLE_CLIENT_ID : option string;
  GOOGLE_CLIENT_SECRET : option string;
  GOOGLE_APPLICATION_CREDENTIALS : option string
}.

(** The [auth] object handed to [google.gmail]. *)
Inductive auth_handle : Type :=
  | ServiceAccount
  | OAuth2 (creds : option json).

(** Where a call of [initializeGmailClient] is suspended, or how it
    ended. *)
Inductive pc : Type :=
  | AwaitAccessToken (saved : json)
  | AwaitOpen (creds : option json)
  | AwaitCallback (a : attempt)
  | Returned (client : auth_handle)
  | Failed (e : thrown).

(** The process: its environment, the module variable [gmailClient], the
    host, and the number of [server.listen(3000)] calls made so far. *)
Record process : Type := Process {
  env : environment;
  gmailClient : option auth_handle;
  outside : host;
  listen_calls : nat
}.

Definition no_code : thrown := "No authorization code received".
Definition timed_out : thrown := "Authentication timeout".

Definition missing_credentials : thrown :=
  join nl
    [ "";
      "Missing OAuth2 credentials. Please set environment variables:";
      "- GOOGLE_CLIENT_ID=your-client-id.googleusercontent.com";
      "- GOOGLE_CLIENT_SECRET=your-client-secret";
      "";
      "Get these from: https://console.cloud.google.com/apis/credentials";
      "Make sure to add http://localhost:3000/oauth/callback to your authorized redirect URIs.";
      "    " ].

(** The [catch] of [initializeGmailClient]. *)
Definition wrap (e : thrown) : thrown :=
  "Failed to initialize Gmail client: " +:+ e.

Section Flow.

(** [JSON.parse], [JSON.stringify(token, null, 2)],
    [url.parse(u, true).query.code] and [oauth2Client.getToken]. *)
Variable JSON_parse : string -> thrown + json.
Variable JSON_stringify : json -> string.
Variable query_code : string -> option query_value.
Variable getToken : query_value -> thrown + json.

(** [saveToken] (source lines 30-33). *)
Definition saveToken (token : json) (h : host) : completion unit * host :=
  let h := Host (token_file h) (write_error h) (console h)
             (S (saveToken_calls h)) in
  match write_error h with
  | Some e => (Throw e, h)
  | None =>
      (Normal tt,
       log "Token saved to gmail-token.json"
         (Host (Content (JSON_stringify token)) (write_error h) (console h)
            (saveToken_calls h)))
  end.

(** [fs.existsSync(TOKEN_PATH)] and [fs.readFileSync(TOKEN_PATH, 'utf8')]. *)
Definition existsSync (h : host) : bool :=
  match token_file h with
  | Absent => false
  | _ => true
  end.

Definition readFileSync (h : host) : completion string :=
  match token_file h with
  | Content text => Normal text
  | Unreadable why => Throw why
  | Absent => Throw "ENOENT: no such file or directory"
  end.

(** The [try] block of [loadToken]: [Normal (Some v)] is [return v],
    [Normal None] is falling out of the block. *)
Definition loadToken_try (h : host) : completion (option json) :=
  if existsSync h then
    match readFileSync h with
    | Normal token =>
        match JSON_parse token with
        | inr v => Normal (Some v)
        | inl e => Throw e
        end
    | Throw e => Throw e
    end
  else Normal None.

(** [loadToken] (source lines 35-45). *)
Definition loadToken (h : host) : completion json * host :=
  match loadToken_try h with
  | Normal (Some v) => (Normal v, h)
  | Normal None => (Normal JNull, h)
  | Throw e => (Normal JNull, log ("Error loading token: " +:+ e) h)
  end.

(** The [catch] block of the request handler (source lines 99-112). *)
Definition fail (e : thrown) (a : attempt) : attempt :=
  Attempt false (settle_with (promise a) (Rejected e)) (credentials a)
    (replies a ++ [400]).

(** The request handler of the callback server (source lines 68-113); the
    exchange [await oauth2Client.getToken(code)] is taken as one step. *)
Definition on_request (req_url : option string) (a : attempt) (h : host)
  : attempt * host :=
  match req_url with
  | Some u =>
      if startsWith u "/oauth/callback" then
        let code := query_code u in
        if query_truthy code then
          match code with
          | Some c =>
              match getToken c with
              | inr tokens =>
                  let a := Attempt (listening a) (promise a) (Some tokens)
                             (replies a) in
                  match saveToken tokens h with
                  | (Normal _, h') =>
                      (Attempt false (settle_with (promise a) Resolved)
                         (credentials a) (replies a ++ [200]), h')
                  | (Throw e, h') => (fail e a, h')
                  end
              | inl e => (fail e a, h)
              end
          | None => (fail no_code a, h)
          end
        else (fail no_code a, h)
      else (a, h)
  | None => (a, h)
  end.

(** The timer callback (source lines 120-123). *)
Definition on_timeout (a : attempt) : attempt :=
  Attempt false (settle_with (promise a) (Rejected timed_out)) (credentials a)
    (replies a).

(** The tokens a request obtains, if it is a callback whose code is
    exchanged successfully. *)
Definition exchanged (req_url : option string) : option json :=
  match req_url with
  | Some u =>
      if startsWith u "/oauth/callback" && query_truthy (query_code u) then
        match query_code u with
        | Some c =>
            match getToken c with
            | inr tokens => Some tokens
            | inl _ => None
            end
        | None => None
        end
      else None
  | None => None
  end.

(** [authenticateOAuth2] up to its first suspension (source lines
    127-157 and 47-62): at [getAccessToken] when a saved token was loaded,
    otherwise at [open(authUrl)]. *)
Definition authenticateOAuth2 (p : process) : pc * process :=
  if negb (truthy (GOOGLE_CLIENT_ID (env p)))
     || negb (truthy (GOOGLE_CLIENT_SECRET (env p))) then
    (Failed missing_credentials, p)
  else
    let '(loaded, h) := loadToken (outside p) in
    let p := Process (env p) (gmailClient p) h (listen_calls p) in
    match loaded with
    | Normal savedToken =>
        if json_truthy savedToken then (AwaitAccessToken savedToken, p)
        else (AwaitOpen None, p)
    | Throw e => (Failed e, p)
    end.

(** [initializeGmailClient] up to its first suspension (source lines
    213-238). *)
Definition initializeGmailClient (p : process) : pc * process :=
  match gmailClient p with
  | Some client => (Returned client, p)
  | None =>
      if truthy (GOOGLE_APPLICATION_CREDENTIALS (env p)) then
        (Returned ServiceAccount,
         Process (env p) (Some ServiceAccount) (outside p) (listen_calls p))
      else
        match authenticateOAuth2 p with
        | (Failed e, p') => (Failed (wrap e), p')
        | suspended => suspended
        end
  end.

(** [await oauth2Client.getAccessToken()] settles (source lines 150-156). *)
Definition access_token_settled (ok : bool) (saved : json) (p : process)
  : pc * process :=
  if ok then
    (Returned (OAuth2 (Some saved)),
     Process (env p) (Some (OAuth2 (Some saved))) (outside p) (listen_calls p))
  else (AwaitOpen (Some saved), p).

(** What a server gets from [server.listen(3000)] while another server of
    the process is bound to the port: an [error] event, for which the
    source registers no listener (source lines 68-117). *)
Definition address_in_use : thrown :=
  "listen EADDRINUSE: address already in use :::3000".

(** [await open(authUrl)] settles either way; the promise and the server
    are created and [server.listen(3000)] is called (source lines 67-124).
    The server comes to listen only when the port is free. *)
Definition opened (port_free : bool) (creds : option json) (p : process)
  : pc * process :=
  (AwaitCallback (Attempt port_free Pending creds []),
   Process (env p) (gmailClient p) (outside p) (S (listen_calls p))).

(** The caller of [getAuthUrlAndWaitForCallback] goes on once the promise
    has settled (source lines 160-161 and 233-237). *)
Definition after_callback (a : attempt) (p : process) : pc * process :=
  match promise a with
  | Pending => (AwaitCallback a, p)
  | Resolved =>
      (Returned (OAuth2 (credentials a)),
       Process (env p) (Some (OAuth2 (credentials a))) (outside p)
         (listen_calls p))
  | Rejected e => (Failed (wrap e), p)
  end.

(** Several calls of [initializeGmailClient] in flight in one process:
    what they share, where each call stands, the call whose server is
    bound to port 3000, and the [error] events that found no listener.
    What the runtime does with the process after such an event is not
    described here. *)
Record system : Type := System {
  shared : process;
  inflight : gmap nat pc;
  port : option nat;
  unhandled : list thrown
}.

Inductive event : Type :=
  | Call (t : nat)
  | AccessToken (t : nat) (ok : bool)
  | Opened (t : nat)
  | Request (t : nat) (req_url : option string)
  | Timeout (t : nat).

Definition update (t : nat) (r : pc * process) (s : system) : system :=
  System r.2 (<[t := r.1]> (inflight s)) (port s) (unhandled s).

(** The server of call [t] is bound to the port. *)
Definition bound (t : nat) (s : system) : system :=
  System (shared s) (inflight s) (Some t) (unhandled s).

(** The bind is refused. *)
Definition refused (s : system) : system :=
  System (shared s) (inflight s) (port s) (unhandled s ++ [address_in_use]).

(** [server.close()] of call [t], when [a] no longer listens: the port is
    free again if the server of [t] held it. *)
Definition closed (t : nat) (a : attempt) (s : system) : system :=
  if listening a then s
  else
    match port s with
    | Some holder =>
        if Nat.eqb holder t
        then System (shared s) (inflight s) None (unhandled s)
        else s
    | None => s
    end.

(** One event; an event that does not fit the state of its call changes
    nothing.  A request to port 3000 reaches the server that listens
    there; the timer of a call runs whether or not its server listens. *)
Definition step (s : system) (e : event) : system :=
  match e with
  | Call t =>
      match inflight s !! t with
      | None => update t (initializeGmailClient (shared s)) s
      | Some _ => s
      end
  | AccessToken t ok =>
      match inflight s !! t with
      | Some (AwaitAccessToken saved) =>
          update t (access_token_settled ok saved (shared s)) s
      | _ => s
      end
  | Opened t =>
      match inflight s !! t with
      | Some (AwaitOpen creds) =>
          match port s with
          | None => bound t (update t (opened true creds (shared s)) s)
          | Some _ => refused (update t (opened false creds (shared s)) s)
          end
      | _ => s
      end
  | Request t req_url =>
      match inflight s !! t with
      | Some (AwaitCallback a) =>
          if listening a then
            let '(a', h) := on_request req_url a (outside (shared s)) in
            let p := shared s in
            closed t a'
              (update t
                 (after_callback a'
                    (Process (env p) (gmailClient p) h (listen_calls p))) s)
          else s
      | _ => s
      end
  | Timeout t =>
      match inflight s !! t with
      | Some (AwaitCallback a) =>
          closed t (on_timeout a)
            (update t (after_callback (on_timeout a) (shared s)) s)
      | _ => s
      end
  end.

Definition run (events : list event) (s : system) : system :=
  fold_left step events s.

End Flow.

(** A freshly started process. *)
Definition boot (e : environment) (f : file) : system :=
  System (Process e None (Host f None [] 0) 0) ∅ None [].

Definition oauth_configured (e : environment) : Prop :=
  truthy (GOOGLE_APPLICATION_CREDENTIALS e) = false
  /\ truthy (GOOGLE_CLIENT_ID e) = true
  /\ truthy (GOOGLE_CLIENT_SECRET e) = true.

(** *** Facts about [loadToken] and the callback handler *)

(** C10: [loadToken] always completes normally and leaves the token file,
    and everything else on the host but the console, as it was; when the
    file is absent, cannot be read, or does not parse as JSON, the value
    returned is [null]. *)
Theorem loadToken_never_throws (JSON_parse : string -> thrown + json)
  (h : host) :
  exists v h',
    loadToken JSON_parse h = (Normal v, h')
    /\ token_file h' = token_file h
    /\ write_error h' = write_error h
    /\ saveToken_calls h' = saveToken_calls h
    /\ (token_file h = Absent
        \/ (exists why, token_file h = Unreadable why)
        \/ (exists text e,
               token_file h = Content text /\ JSON_parse text = inl e) ->
        v = JNull).
Proof.
  unfold loadToken, loadToken_try, existsSync, readFileSync.
  destruct (token_file h) as [|why|text] eqn:Hfile.
  - exists JNull, h. repeat split; auto.
  - eexists JNull, _. repeat split; auto.
  - destruct (JSON_parse text) as [e|v] eqn:Hparse.
    + eexists JNull, _. repeat split; auto.
    + exists v, h. repeat split; auto.
      intros [Habs|[[why Hun]|(text' & e & Hc & Hp)]]; try discriminate.
      injection Hc as <-. congruence.
Qed.

(** A parser that accepts only the text [null] and one token record. *)
Definition token_text : string :=
  "{" +:+ quoted "access_token" +:+ ":" +:+ quoted "t" +:+ "}".

Definition toy_parse (text : string) : thrown + json :=
  if str_eq text "null" then inr JNull
  else if str_eq text token_text
       then inr (JObject [("access_token", JString "t")])
       else inl "Unexpected token in JSON".

Example loadToken_corrupt :
  loadToken toy_parse (Host (Content "{access_tok") None [] 0)
  = (Normal JNull,
     Host (Content "{access_tok") None
       ["Error loading token: Unexpected token in JSON"] 0).
Proof. vm_compute. reflexivity. Qed.

Example loadToken_absent :
  loadToken toy_parse (Host Absent None [] 0)
  = (Normal JNull, Host Absent None [] 0).
Proof. reflexivity. Qed.

Example loadToken_valid :
  loadToken toy_parse (Host (Content token_text) None [] 0)
  = (Normal (JObject [("access_token", JString "t")]),
     Host (Content token_text) None [] 0).
Proof. vm_compute. reflexivity. Qed.

Section FlowFacts.

Variable JSON_parse : string -> thrown + json.
Variable JSON_stringify : json -> string.
Variable query_code : string -> option query_value.
Variable getToken : query_value -> thrown + json.

Local Notation on_request := (on_request JSON_stringify query_code getToken).
Local Notation exchanged := (exchanged query_code getToken).
Local Notation saveToken := (saveToken JSON_stringify).

Lemma saveToken_effect (tokens : json) (h : host) :
  saveToken_calls (saveToken tokens h).2 = S (saveToken_calls h)
  /\ (token_file (saveToken tokens h).2 = token_file h
      \/ token_file (saveToken tokens h).2 = Content (JSON_stringify tokens)).
Proof.
  unfold Auth.saveToken. cbn [write_error].
  destruct (write_error h); cbn; auto.
Qed.

(** A request that brings no exchanged tokens leaves the host alone and
    cannot fulfil the promise. *)
Lemma on_request_without_exchange (req : option string) (a : attempt)
  (h : host) :
  exchanged req = None ->
  (on_request req a h).2 = h
  /\ (promise a = Pending -> promise (on_request req a h).1 <> Resolved).
Proof.
  unfold Auth.exchanged, Auth.on_request.
  destruct req as [u|]; [|intros _; split; [reflexivity | cbn; congruence]].
  destruct (startsWith u "/oauth/callback");
    [|intros _; split; [reflexivity | cbn; congruence]].
  cbn [andb].
  destruct (query_truthy (query_code u));
    [|intros _; split; [reflexivity | cbn; intros ->; discriminate]].
  destruct (query_code u) as [c|];
    [|intros _; split; [reflexivity | cbn; intros ->; discriminate]].
  destruct (getToken c) as [e|tokens]; [|discriminate].
  intros _. split; [reflexivity | cbn; intros ->; discriminate].
Qed.

Lemma on_request_with_exchange (req : option string) (tokens : json)
  (a : attempt) (h : host) :
  exchanged req = Some tokens ->
  (on_request req a h).2 = (saveToken tokens h).2.
Proof.
  unfold Auth.exchanged, Auth.on_request.
  destruct req as [u|]; [|discriminate].
  destruct (startsWith u "/oauth/callback"); [|discriminate].
  cbn [andb].
  destruct (query_truthy (query_code u)); [|discriminate].
  destruct (query_code u) as [c|]; [|discriminate].
  destruct (getToken c) as [e|tokens']; [discriminate|].
  intros [= ->]. now destruct (saveToken tokens h) as [[[]|e] h'].
Qed.

Lemma on_request_saveToken_calls (req : option string) (a : attempt)
  (h : host) :
  saveToken_calls (on_request req a h).2
  = saveToken_calls h
    + match exchanged req with
      | Some _ => 1
      | None => 0
      end.
Proof.
  destruct (exchanged req) as [tokens|] eqn:Hex.
  - rewrite (on_request_with_exchange req tokens a h Hex).
    destruct (saveToken_effect tokens h) as [Hcalls _]. lia.
  - destruct (on_request_without_exchange req a h Hex) as [-> _]. lia.
Qed.

Lemma loadToken_saveToken_calls (h : host) :
  saveToken_calls (loadToken JSON_parse h).2 = saveToken_calls h.
Proof.
  unfold loadToken. now destruct (loadToken_try JSON_parse h) as [[v|]|e].
Qed.

Lemma initializeGmailClient_saveToken_calls (p : process) :
  saveToken_calls (outside (initializeGmailClient JSON_parse p).2)
  = saveToken_calls (outside p).
Proof.
  unfold initializeGmailClient, authenticateOAuth2.
  destruct (gmailClient p); [reflexivity|].
  destruct (truthy (GOOGLE_APPLICATION_CREDENTIALS (env p))); [reflexivity|].
  destruct (negb (truthy (GOOGLE_CLIENT_ID (env p)))
            || negb (truthy (GOOGLE_CLIENT_SECRET (env p)))); [reflexivity|].
  pose proof (loadToken_saveToken_calls (outside p)) as Hload.
  destruct (loadToken JSON_parse (outside p)) as [[v|e] h]; cbn [snd] in Hload.
  - now destruct (json_truthy v).
  - exact Hload.
Qed.

Lemma after_callback_outside (a : attempt) (p : process) :
  outside (after_callback a p).2 = outside p.
Proof. unfold after_callback. now destruct (promise a). Qed.

Lemma closed_shared (t : nat) (a : attempt) (s : system) :
  shared (closed t a s) = shared s.
Proof.
  unfold closed. destruct (listening a); [reflexivity|].
  destruct (port s) as [holder|]; [|reflexivity].
  now destruct (holder =? t).
Qed.

Lemma closed_inflight (t : nat) (a : attempt) (s : system) :
  inflight (closed t a s) = inflight s.
Proof.
  unfold closed. destruct (listening a); [reflexivity|].
  destruct (port s) as [holder|]; [|reflexivity].
  now destruct (holder =? t).
Qed.

Lemma closed_unhandled (t : nat) (a : attempt) (s : system) :
  unhandled (closed t a s) = unhandled s.
Proof.
  unfold closed. destruct (listening a); [reflexivity|].
  destruct (port s) as [holder|]; [|reflexivity].
  now destruct (holder =? t).
Qed.

(** Over the whole flow, the only event that calls [saveToken] is a
    request to a listening server whose code is exchanged for tokens. *)
Lemma step_saveToken_calls (s : system) (e : event) :
  saveToken_calls
    (outside (shared (step JSON_parse JSON_stringify query_code getToken s e)))
  = saveToken_calls (outside (shared s))
    + match e with
      | Request t req =>
          match inflight s !! t, exchanged req with
          | Some (AwaitCallback a), Some _ => if listening a then 1 else 0
          | _, _ => 0
          end
      | _ => 0
      end.
Proof.
  destruct e as [t|t ok|t|t req|t]; unfold step;
    destruct (inflight s !! t) as [[saved|creds|a|client|err]|];
    cbn [update shared fst snd]; try lia.
  - rewrite initializeGmailClient_saveToken_calls. lia.
  - unfold access_token_settled. destruct ok; cbn; lia.
  - destruct (port s); cbn; lia.
  - destruct (listening a);
      [|destruct (exchanged req); lia].
    pose proof (on_request_saveToken_calls req a (outside (shared s))) as H.
    destruct (Auth.on_request JSON_stringify query_code getToken req a
                (outside (shared s))) as [a' h].
    rewrite closed_shared. cbn [update shared fst snd].
    rewrite after_callback_outside.
    cbn [outside snd] in *. exact H.
  - rewrite closed_shared. cbn [update shared fst snd].
    rewrite after_callback_outside. lia.
Qed.

End FlowFacts.

(** C6: a callback request without an authorization code rejects the
    pending promise with [No authorization code received], stops the
    listener and leaves the host (token file, number of [saveToken] calls)
    untouched.  For every request, [saveToken] is called once if the
    request's code was exchanged for tokens and not at all otherwise, and
    the token file only ever changes to those tokens; no other event of
    the flow (start of a call, token check, browser opened, timeout) calls
    [saveToken]. *)
Theorem callback_without_code_fails (JSON_parse : string -> thrown + json)
  (JSON_stringify : json -> string)
  (query_code : string -> option query_value)
  (getToken : query_value -> thrown + json)
  (u : string) (a : attempt) (h : host) :
  startsWith u "/oauth/callback" = true ->
  query_truthy (query_code u) = false ->
  promise a = Pending ->
  (promise (on_request JSON_stringify query_code getToken (Some u) a h).1
   = Rejected no_code
   /\ listening (on_request JSON_stringify query_code getToken (Some u) a h).1
      = false
   /\ (on_request JSON_stringify query_code getToken (Some u) a h).2 = h)
  /\ (forall req a0 h0,
        let h1 := (on_request JSON_stringify query_code getToken req a0 h0).2 in
        saveToken_calls h1
        = saveToken_calls h0
          + match exchanged query_code getToken req with
            | Some _ => 1
            | None => 0
            end
        /\ (token_file h1 = token_file h0
            \/ exists tokens,
                exchanged query_code getToken req = Some tokens
                /\ token_file h1 = Content (JSON_stringify tokens)))
  /\ (forall s e,
        saveToken_calls
          (outside
             (shared (step JSON_parse JSON_stringify query_code getToken s e)))
        <> saveToken_calls (outside (shared s)) ->
        exists t req a0 tokens,
          e = Request t req
          /\ inflight s !! t = Some (AwaitCallback a0)
          /\ exchanged query_code getToken req = Some tokens).
Proof.
  intros Hpath Hcode Hpending. split; [|split].
  - unfold on_request. rewrite Hpath, Hcode. cbn. rewrite Hpending. auto.
  - intros req a0 h0. cbn zeta.
    split; [apply on_request_saveToken_calls|].
    destruct (exchanged query_code getToken req) as [tokens|] eqn:Hex.
    + rewrite (on_request_with_exchange JSON_stringify query_code getToken
                 req tokens a0 h0 Hex).
      destruct (saveToken_effect JSON_stringify tokens h0) as [_ Hfile].
      destruct Hfile; eauto.
    + destruct (on_request_without_exchange JSON_stringify query_code
                  getToken req a0 h0 Hex) as [-> _].
      now left.
  - intros s e Hchanged.
    rewrite step_saveToken_calls in Hchanged.
    destruct e as [t|t ok|t|t req|t]; try lia.
    destruct (inflight s !! t) as [[saved|creds|a0|client|err]|] eqn:Hin;
      destruct (exchanged query_code getToken req) as [tokens|] eqn:Hex;
      try lia.
    exists t, req, a0, tokens. auto.
Qed.

(** A query parser that knows two callback URLs. *)
Definition toy_query (u : string) : option query_value :=
  if str_eq u "/oauth/callback?code=4/abc" then Some (QString "4/abc")
  else None.

Definition toy_exchange (c : query_value) : thrown + json :=
  match c with
  | QString "4/abc" => inr (JObject [("access_token", JString "t")])
  | _ => inl "invalid_grant"
  end.

Definition toy_stringify (v : json) : string := token_text.

Definition waiting : attempt := Attempt true Pending None [].

Lemma callback_without_code_fails_witness :
  promise (on_request toy_stringify toy_query toy_exchange
             (Some "/oauth/callback?error=access_denied") waiting
             (Host Absent None [] 0)).1
  = Rejected no_code
  /\ listening (on_request toy_stringify toy_query toy_exchange
                  (Some "/oauth/callback?error=access_denied") waiting
                  (Host Absent None [] 0)).1
     = false
  /\ (on_request toy_stringify toy_query toy_exchange
        (Some "/oauth/callback?error=access_denied") waiting
        (Host Absent None [] 0)).2
     = Host Absent None [] 0.
Proof.
  exact (proj1 (callback_without_code_fails toy_parse toy_stringify toy_query
                  toy_exchange "/oauth/callback?error=access_denied" waiting
                  (Host Absent None [] 0) eq_refl eq_refl eq_refl)).
Defined.

Example callback_denied :
  on_request toy_stringify toy_query toy_exchange
    (Some "/oauth/callback?error=access_denied") waiting (Host Absent None [] 0)
  = (Attempt false (Rejected no_code) None [400], Host Absent None [] 0).
Proof. reflexivity. Qed.

Example callback_with_code :
  on_request toy_stringify toy_query toy_exchange
    (Some "/oauth/callback?code=4/abc") waiting (Host Absent None [] 0)
  = (Attempt false Resolved (Some (JObject [("access_token", JString "t")]))
       [200],
     Host (Content token_text) None
       ["Token saved to gmail-token.json"] 1).
Proof. vm_compute. reflexivity. Qed.

Example other_path_is_ignored :
  on_request toy_stringify toy_query toy_exchange (Some "/favicon.ico")
    waiting (Host Absent None [] 0)
  = (waiting, Host Absent None [] 0).
Proof. reflexivity. Qed.

(** *** Calls of [initializeGmailClient] that overlap *)

Definition desktop : environment :=
  Environment (Some "id.apps.googleusercontent.com") (Some "secret") None.

Section Overlap.

Variable JSON_parse : string -> thrown + json.
Variable JSON_stringify : json -> string.
Variable query_code : string -> option query_value.
Variable getToken : query_value -> thrown + json.

Local Notation initializeGmailClient := (initializeGmailClient JSON_parse).
Local Notation step := (step JSON_parse JSON_stringify query_code getToken).
Local Notation run := (run JSON_parse JSON_stringify query_code getToken).

(** The only guard: a client that has been stored is returned at once. *)
Lemma initializeGmailClient_cached (p : process) (client : auth_handle) :
  gmailClient p = Some client ->
  initializeGmailClient p = (Returned client, p).
Proof. intros H. unfold Auth.initializeGmailClient. now rewrite H. Qed.



End Overlap.


Example two_attempts :
  run toy_parse toy_stringify toy_query toy_exchange
    [Call 0; Opened 0; Call 1; Opened 1] (boot desktop Absent)
  = System (Process desktop None (Host Absent None [] 0) 2)
      (<[1 := AwaitCallback (Attempt false Pending None [])]>
         (<[1 := AwaitOpen None]>
            (<[0 := AwaitCallback waiting]> (<[0 := AwaitOpen None]> ∅))))
      (Some 0) [address_in_use].
Proof. reflexivity. Qed.



End Auth.

(** ** More about [createEmailMessage] *)

Module MimeMore.
Import Js Mime.

(** A character of the URL-safe alphabet: a letter, a digit, [-] or [_]. *)
Definition url_safe (c : ascii) : bool :=
  let n := nat_of_ascii c in
  (65 <=? n) && (n <=? 90) || (97 <=? n) && (n <=? 122)
  || (48 <=? n) && (n <=? 57) || (n =? 45) || (n =? 95).

Fixpoint all_chars (f : ascii -> bool) (s : string) : bool :=
  match s with
  | EmptyString => true
  | String c rest => f c && all_chars f rest
  end.

(** The header lines that follow To and Subject, written as a list. *)
Definition optional_headers (o : options) : list string :=
  (match default_list (cc o) with
   | [] => []
   | xs => ["Cc: " +:+ join ", " xs]
   end)
  ++ (match default_list (bcc o) with
      | [] => []
      | xs => ["Bcc: " +:+ join ", " xs]
      end)
  ++ (if truthy (inReplyTo o)
      then ["In-Reply-To: " +:+ or_else (inReplyTo o) ""] else [])
  ++ (if truthy (threadId o)
      then ["References: " +:+ or_else (threadId o) ""] else []).

(** Whether the message goes out as text/html. *)
Definition html_mode (o : options) : bool :=
  str_eq (default_mimeType (mimeType o)) "text/html" || truthy (htmlBody o).

Lemma url_char_safe (s : Base64.sextet) :
  url_safe (Base64.char_in Base64.url_alphabet s) = true.
Proof. destruct s as [[] [] [] [] [] []]; vm_compute; reflexivity. Qed.

Lemma base64url_safe (bs : string) :
  all_chars url_safe (Base64.base64url bs) = true.
Proof.
  unfold Base64.base64url.
  induction bs as [|a|a b|a b c rest IH] using Base64.string_by_three.
  - reflexivity.
  - cbn [Base64.encode_with].
    destruct (Base64.group3 a Base64.zero Base64.zero) as [[[s0 s1] s2] s3].
    cbn [all_chars]. now rewrite !url_char_safe.
  - cbn [Base64.encode_with].
    destruct (Base64.group3 a b Base64.zero) as [[[s0 s1] s2] s3].
    cbn [all_chars]. now rewrite !url_char_safe.
  - cbn [Base64.encode_with].
    destruct (Base64.group3 a b c) as [[[s0 s1] s2] s3].
    cbn [all_chars]. now rewrite !url_char_safe, IH.
Qed.

Lemma base64url_length (bs : string) :
  String.length (Base64.base64url bs) = (4 * String.length bs + 2) / 3.
Proof.
  unfold Base64.base64url.
  induction bs as [|a|a b|a b c rest IH] using Base64.string_by_three.
  - reflexivity.
  - cbn [Base64.encode_with].
    destruct (Base64.group3 a Base64.zero Base64.zero) as [[[s0 s1] s2] s3].
    reflexivity.
  - cbn [Base64.encode_with].
    destruct (Base64.group3 a b Base64.zero) as [[[s0 s1] s2] s3].
    reflexivity.
  - cbn [Base64.encode_with].
    destruct (Base64.group3 a b c) as [[[s0 s1] s2] s3].
    cbn [String.length]. rewrite IH.
    replace (4 * S (S (S (String.length rest))) + 2)
      with (4 * String.length rest + 2 + 4 * 3) by lia.
    rewrite Nat.div_add by lia. lia.
Qed.

(** X1: decoding the returned payload as unpadded URL-safe base64 gives
    back the message text (header lines, empty line, content), for every
    input. *)
Theorem payload_decodes_to_email now to subject body o :
  Base64.decode_url (createEmailMessage now to subject body o)
  = Some (email now to subject body o).
Proof.
  rewrite createEmailMessage_base64url.
  apply Base64.decode_url_base64url.
Qed.

(** X2: the returned payload holds letters, digits, [-] and [_] only; in
    particular none of [+], [/] and [=]. *)
Theorem payload_is_url_safe now to subject body o :
  all_chars url_safe (createEmailMessage now to subject body o) = true
  /\ url_safe "+"%char = false /\ url_safe "/"%char = false
  /\ url_safe "="%char = false.
Proof.
  split; [|repeat split].
  rewrite createEmailMessage_base64url. apply base64url_safe.
Qed.

(** X3: the payload of a message of [n] bytes has [ceil(4n/3)] characters
    (no padding is left). *)
Theorem payload_length now to subject body o :
  String.length (createEmailMessage now to subject body o)
  = (4 * String.length (email now to subject body o) + 2) / 3.
Proof.
  rewrite createEmailMessage_base64url. apply base64url_length.
Qed.

Lemma push_list_if_app xs name headers :
  push_list_if xs name headers
  = headers ++ match xs with
               | [] => []
               | _ => [name +:+ join ", " xs]
               end.
Proof. destruct xs; cbn; [now rewrite app_nil_r | reflexivity]. Qed.

Lemma push_if_app o name headers :
  push_if o name headers
  = headers ++ (if truthy o then [name +:+ or_else o ""] else []).
Proof.
  destruct o as [v|]; cbn; [|now rewrite app_nil_r].
  destruct (str_eq v ""); cbn; [now rewrite app_nil_r | reflexivity].
Qed.

Lemma envelope_shape to subject o :
  envelope to subject o
  = ["To: " +:+ join ", " to; "Subject: " +:+ subject] ++ optional_headers o.
Proof.
  unfold envelope, optional_headers.
  rewrite !push_if_app, !push_list_if_app, <- !app_assoc.
  destruct (default_list (cc o)), (default_list (bcc o)); reflexivity.
Qed.

Lemma content_by_mode now to subject body o :
  content now to subject body o
  = (envelope to subject o ++ [if html_mode o then ct_html else ct_plain],
     if html_mode o then or_else (htmlBody o) body else body).
Proof.
  unfold content, html_mode.
  destruct (str_eq (default_mimeType (mimeType o)) "text/html"); [reflexivity|].
  destruct (truthy (htmlBody o)); [reflexivity|].
  cbn. now rewrite andb_false_r.
Qed.

(** X4: whatever the arguments, the message has a single part: its last
    header line is the text/html Content-Type when [mimeType] is
    ['text/html'] or an [htmlBody] is present, and the text/plain one
    otherwise; the content is [htmlBody || body] in the first case and
    [body] in the second.  The clock is never consulted: the same
    arguments give the same payload. *)
Theorem single_part_by_mode now to subject body o :
  content now to subject body o
  = (envelope to subject o ++ [if html_mode o then ct_html else ct_plain],
     if html_mode o then or_else (htmlBody o) body else body)
  /\ forall now',
      createEmailMessage now' to subject body o
      = createEmailMessage now to subject body o.
Proof.
  split; [apply content_by_mode|].
  intros now'. unfold createEmailMessage, email.
  now rewrite !content_by_mode.
Qed.

(** X5: the header lines come in the order To, Subject, Cc, Bcc,
    In-Reply-To, References, Content-Type.  To, Subject and Content-Type are
    always there (To also for an empty recipient list); each of the four in
    between is there exactly when its field is non-empty, so a message has
    between three and seven header lines. *)
Theorem header_lines_order now to subject body o :
  (content now to subject body o).1
  = ["To: " +:+ join ", " to; "Subject: " +:+ subject]
    ++ optional_headers o
    ++ [if html_mode o then ct_html else ct_plain]
  /\ 3 <= length (content now to subject body o).1 <= 7.
Proof.
  rewrite content_by_mode. cbn [fst]. rewrite envelope_shape, <- app_assoc.
  split; [reflexivity|].
  rewrite !length_app. unfold optional_headers. rewrite !length_app.
  destruct (default_list (cc o)), (default_list (bcc o)),
    (truthy (inReplyTo o)), (truthy (threadId o)); cbn; lia.
Qed.

Lemma join_split_line (x a b : string) (rest : list string) :
  join nl (x :: (a +:+ nl +:+ b) :: rest) = join nl (x :: a :: b :: rest).
Proof.
  destruct rest as [|y rest'].
  - reflexivity.
  - change (join nl (x :: (a +:+ nl +:+ b) :: y :: rest'))
      with (x +:+ nl +:+ (a +:+ nl +:+ b) +:+ nl +:+ join nl (y :: rest')).
    change (join nl (x :: a :: b :: y :: rest'))
      with (x +:+ nl +:+ a +:+ nl +:+ b +:+ nl +:+ join nl (y :: rest')).
    now rewrite !append_assoc.
Qed.

(** X6: header values are passed on as they are.  A subject of the form
    [a], line break, [b] gives the same message as one whose header lines
    are To, [Subject: a], then [b] as a header line of its own, followed by
    the remaining lines: whatever follows a line break in the subject is
    read as a further header. *)
Theorem subject_line_break_adds_header now to (a b body : string) o :
  email now to (a +:+ nl +:+ b) body o
  = join nl
      (["To: " +:+ join ", " to; "Subject: " +:+ a; b]
         ++ optional_headers o
         ++ [if html_mode o then ct_html else ct_plain])
    +:+ nl +:+ nl
    +:+ (if html_mode o then or_else (htmlBody o) body else body).
Proof.
  unfold email. rewrite content_by_mode, envelope_shape, <- app_assoc.
  cbn [app].
  change ("Subject: " +:+ a +:+ nl +:+ b) with (("Subject: " +:+ a) +:+ nl +:+ b).
  now rewrite join_split_line.
Qed.

Example bcc_injected_by_subject :
  email 0 ["ann@example.org"] ("Hi" +:+ nl +:+ "Bcc: eve@example.org") "Hello"
    (Options None None None None None None)
  = join nl ["To: ann@example.org"; "Subject: Hi"; "Bcc: eve@example.org";
             ct_plain; ""; "Hello"].
Proof. vm_compute. reflexivity. Qed.

End MimeMore.

(** ** More about [extractEmailContent] and the read tools *)

Module ExtractMore.
Import Js Mime.

Section Compose.

Variable decode : string -> string.

Local Notation extract := (extractEmailContent decode).

Lemma extract_as_grow (p : part) :
  extract p = Extracted (texts decode (document_order p))
                (htmls decode (document_order p))
                (omap descriptor (document_order p)).
Proof.
  unfold extractEmailContent. rewrite processPayload_grow. reflexivity.
Qed.

Lemma texts_app (xs ys : list part) :
  texts decode (xs ++ ys) = texts decode xs +:+ texts decode ys.
Proof. unfold texts. now rewrite List.filter_app, concat_bodies_app. Qed.

Lemma htmls_app (xs ys : list part) :
  htmls decode (xs ++ ys) = htmls decode xs +:+ htmls decode ys.
Proof. unfold htmls. now rewrite List.filter_app, concat_bodies_app. Qed.

Lemma subparts_text (subparts : list part) :
  texts decode (flat_map document_order subparts)
  = fold_right String.append "" (map (fun q => text (extract q)) subparts).
Proof.
  induction subparts as [|q qs IH]; [reflexivity|].
  cbn [flat_map map fold_right].
  now rewrite texts_app, IH, extract_as_grow.
Qed.

Lemma subparts_html (subparts : list part) :
  htmls decode (flat_map document_order subparts)
  = fold_right String.append "" (map (fun q => html (extract q)) subparts).
Proof.
  induction subparts as [|q qs IH]; [reflexivity|].
  cbn [flat_map map fold_right].
  now rewrite htmls_app, IH, extract_as_grow.
Qed.

Lemma subparts_attachments (subparts : list part) :
  omap descriptor (flat_map document_order subparts)
  = concat (map (fun q => attachments (extract q)) subparts).
Proof.
  induction subparts as [|q qs IH]; [reflexivity|].
  cbn [flat_map map concat].
  now rewrite omap_app, IH, extract_as_grow.
Qed.

(** X7: what is extracted from a container is what the container part
    itself contributes, followed by what is extracted from each of its
    sub-parts, in their order: for the text, for the html and for the
    attachment list alike. *)
Theorem extract_container mt fn b (subparts : list part) :
  let own := extract (Part mt fn b None) in
  let whole := extract (Part mt fn b (Some subparts)) in
  text whole
  = text own
    +:+ fold_right String.append "" (map (fun q => text (extract q)) subparts)
  /\ html whole
     = html own
       +:+ fold_right String.append ""
             (map (fun q => html (extract q)) subparts)
  /\ attachments whole
     = attachments own
       ++ concat (map (fun q => attachments (extract q)) subparts).
Proof.
  cbn zeta. rewrite !extract_as_grow. cbn [text html attachments].
  cbn [document_order].
  change (Part mt fn b (Some subparts) :: flat_map document_order subparts)
    with ([Part mt fn b (Some subparts)] ++ flat_map document_order subparts).
  rewrite texts_app, htmls_app, omap_app.
  rewrite subparts_text, subparts_html, subparts_attachments.
  assert (Hown : forall lit,
    concat_bodies decode
      (List.filter (has_type lit) [Part mt fn b (Some subparts)])
    = concat_bodies decode (List.filter (has_type lit) [Part mt fn b None])).
  { intros lit. cbn [List.filter]. unfold has_type. cbn [part_mimeType].
    now destruct (is_type mt lit). }
  unfold texts, htmls. rewrite !Hown.
  split; [|split]; reflexivity.
Qed.

End Compose.

End ExtractMore.

(** ** The label, draft and attachment tools *)

Module Tools.
Import Js Listing.

(** [`${x}`] for a field that may be missing. *)
Definition show_opt (o : option string) : string :=
  match o with
  | Some s => s
  | None => "undefined"
  end.

(** A label as [labels.list] returns it. *)
Record label : Type := Label {
  label_id : option string;
  label_name : option string;
  label_type : option string
}.

(** [l.type === 'system'] and [l.type === 'user']. *)
Definition has_label_type (lit : string) (l : label) : bool :=
  match label_type l with
  | Some t => str_eq t lit
  | None => false
  end.

Definition systemLabels (labels : list label) : list label :=
  List.filter (has_label_type "system") labels.

Definition userLabels (labels : list label) : list label :=
  List.filter (has_label_type "user") labels.

(** [formatLabels] (source lines 778-779). *)
Definition formatLabels (labelList : list label) : string :=
  join (nl +:+ nl)
    (map (fun l => "ID: " +:+ show_opt (label_id l) +:+ nl
                   +:+ "Name: " +:+ show_opt (label_name l))
       labelList).

(** [gmail_list_labels] from the answer of [labels.list] on (source lines
    770-793). *)
Definition gmail_list_labels (response : thrown + option (list label))
  : string :=
  match response with
  | inl message => handleError message "list labels"
  | inr data =>
      let labels := match data with Some ls => ls | None => [] end in
      "Found " +:+ show_nat (length labels) +:+ " labels ("
        +:+ show_nat (length (systemLabels labels)) +:+ " system, "
        +:+ show_nat (length (userLabels labels)) +:+ " user):" +:+ nl +:+ nl
        +:+ "SYSTEM LABELS:" +:+ nl +:+ formatLabels (systemLabels labels)
        +:+ nl +:+ nl
        +:+ "USER LABELS:" +:+ nl +:+ formatLabels (userLabels labels)
  end.

(** An entry of [results] in [gmail_list_drafts]. *)
Record draft_entry : Type := DraftEntry {
  de_id : string;
  de_subject : string;
  de_to : string;
  de_date : string
}.

(** [Math.round(size / 1024)] for a byte count. *)
Definition round_kb (size : N) : N := ((size + 512) / 1024)%N.

(** [s.substring(0, n)]; the attachment data is base64 text, one byte per
    character. *)
Definition substring_from_0 (n : nat) (s : string) : string :=
  String.substring 0 n s.

(** The answer of [attachments.get]. *)
Record attachment_data : Type := AttachmentData {
  ad_size : option N;
  ad_data : option string
}.

(** [gmail_get_attachment] from the answer of [attachments.get] on (source
    lines 1058-1072). *)
Definition gmail_get_attachment (attachmentId : string)
  (response : thrown + attachment_data) : string :=
  match response with
  | inl message => handleError message "download attachment"
  | inr attachmentData =>
      let size := match ad_size attachmentData with
                  | Some n => n
                  | None => 0%N
                  end in
      let data := or_else (ad_data attachmentData) "" in
      "Attachment downloaded successfully:" +:+ nl
        +:+ "Attachment ID: " +:+ attachmentId +:+ nl
        +:+ "Size: " +:+ show_N (round_kb size) +:+ " KB" +:+ nl
        +:+ "Data: " +:+ substring_from_0 100 data +:+ "..."
  end.

Section Drafts.

Variable toLowerCase : string -> string.
Variable G : Type.

(** [drafts.get] with [format: 'full']: [inl] when the call throws,
    otherwise [draftDetail.data.message?.payload?.headers || []]. *)
Variable get_draft : string -> G -> (thrown + list header) * G.

(** The loop of [gmail_list_drafts] (source lines 941-958). *)
Fixpoint draft_details (drafts : list string) (results : list draft_entry)
  (g : G) : (thrown + list draft_entry) * G :=
  match drafts with
  | [] => (inr results, g)
  | id :: rest =>
      match get_draft id g with
      | (inr headers, g') =>
          draft_details rest
            (results ++
               [DraftEntry id
                  (or_else (Some (getHeader toLowerCase headers "Subject"))
                     "(No Subject)")
                  (or_else (Some (getHeader toLowerCase headers "To"))
                     "(No Recipients)")
                  (or_else (Some (getHeader toLowerCase headers "Date"))
                     "No Date")])
            g'
      | (inl message, g') => (inl message, g')
      end
  end.

Definition draft_line (r : draft_entry) : string :=
  "ID: " +:+ de_id r +:+ nl +:+ "Subject: " +:+ de_subject r +:+ nl
    +:+ "To: " +:+ de_to r +:+ nl +:+ "Date: " +:+ de_date r +:+ nl +:+ "---".

Definition drafts_text (results : list draft_entry) (found : nat) : string :=
  "Found " +:+ show_nat found +:+ " drafts:" +:+ nl +:+ nl
    +:+ join nl (map draft_line results).

Definition no_drafts : string := "No drafts found.".

(** [gmail_list_drafts] from the answer of [drafts.list] on (source lines
    927-974). *)
Definition gmail_list_drafts (response : thrown + option (list string))
  (g : G) : string * G :=
  match response with
  | inl message => (handleError message "list drafts", g)
  | inr data =>
      let drafts := match data with Some ds => ds | None => [] end in
      if length drafts =? 0 then (no_drafts, g)
      else
        match draft_details drafts [] g with
        | (inr results, g') => (drafts_text results (length drafts), g')
        | (inl message, g') => (handleError message "list drafts", g')
        end
  end.

End Drafts.

(** *** Facts about the label, draft and attachment tools *)

Lemma has_label_type_spec (lit : string) (l : label) :
  has_label_type lit l = true <-> label_type l = Some lit.
Proof.
  unfold has_label_type. destruct (label_type l) as [t|].
  - unfold str_eq. rewrite String.eqb_eq. split; congruence.
  - split; discriminate.
Qed.

Lemma filter_sublist {A} (f : A -> bool) (xs : list A) :
  List.filter f xs `sublist_of` xs.
Proof.
  induction xs as [|x xs IH]; cbn [List.filter]; [constructor|].
  destruct (f x); now constructor.
Qed.

Lemma filter_elem_of {A} (f : A -> bool) (xs : list A) (x : A) :
  x ∈ List.filter f xs <-> x ∈ xs /\ f x = true.
Proof. rewrite !list_elem_of_In. apply filter_In. Qed.

Lemma sections_count (labels : list label) :
  length (systemLabels labels) + length (userLabels labels) <= length labels
  /\ (length (systemLabels labels) + length (userLabels labels)
      = length labels
      <-> Forall (fun l => label_type l = Some "system"
                           \/ label_type l = Some "user") labels).
Proof.
  unfold systemLabels, userLabels.
  induction labels as [|l ls [IHle IHeq]].
  - cbn. split; [lia|]. split; [constructor | reflexivity].
  - cbn [List.filter length].
    pose proof (has_label_type_spec "system" l) as Hs.
    pose proof (has_label_type_spec "user" l) as Hu.
    destruct (has_label_type "system" l) eqn:Es;
      destruct (has_label_type "user" l) eqn:Eu; cbn [length].
    + destruct Hs as [Hs _], Hu as [Hu _].
      rewrite (Hs eq_refl) in Hu. specialize (Hu eq_refl). discriminate.
    + split; [lia|]. rewrite Forall_cons. split.
      * intros H. split; [left; now apply Hs | apply IHeq; lia].
      * intros [_ H]. apply IHeq in H. lia.
    + split; [lia|]. rewrite Forall_cons. split.
      * intros H. split; [right; now apply Hu | apply IHeq; lia].
      * intros [_ H]. apply IHeq in H. lia.
    + split; [lia|]. rewrite Forall_cons. split; [lia|].
      intros [[H|H] _]; [apply Hs in H | apply Hu in H]; discriminate.
Qed.

(** X8: the text of the label listing.  It names the number of all labels,
    then the number of labels under SYSTEM and under USER, and lists those
    two groups.  The group under SYSTEM holds the labels of type [system],
    the group under USER the labels of type [user], each in the order of
    the answer; a label of any other or of no type is counted in the total
    and listed nowhere, so the two counts add up to the total only when
    every label is of one of the two types. *)
Theorem label_sections_partition (labels : list label) :
  exists sys usr : list label,
    gmail_list_labels (inr (Some labels))
    = "Found " +:+ show_nat (length labels) +:+ " labels ("
        +:+ show_nat (length sys) +:+ " system, "
        +:+ show_nat (length usr) +:+ " user):" +:+ nl +:+ nl
        +:+ "SYSTEM LABELS:" +:+ nl +:+ formatLabels sys +:+ nl +:+ nl
        +:+ "USER LABELS:" +:+ nl +:+ formatLabels usr
    /\ sys `sublist_of` labels
    /\ usr `sublist_of` labels
    /\ (forall l, l ∈ sys <-> l ∈ labels /\ label_type l = Some "system")
    /\ (forall l, l ∈ usr <-> l ∈ labels /\ label_type l = Some "user")
    /\ length sys + length usr <= length labels
    /\ (length sys + length usr = length labels
        <-> Forall (fun l => label_type l = Some "system"
                             \/ label_type l = Some "user") labels).
Proof.
  exists (systemLabels labels), (userLabels labels).
  split; [reflexivity|].
  split; [apply filter_sublist|]. split; [apply filter_sublist|].
  split.
  { intros l. unfold systemLabels.
    now rewrite filter_elem_of, has_label_type_spec. }
  split.
  { intros l. unfold userLabels.
    now rewrite filter_elem_of, has_label_type_spec. }
  apply sections_count.
Qed.

Example labels_with_untyped :
  gmail_list_labels
    (inr (Some [Label (Some "INBOX") (Some "INBOX") (Some "system");
                Label (Some "L1") (Some "Work") (Some "user");
                Label (Some "L2") (Some "Old") None]))
  = join nl ["Found 3 labels (1 system, 1 user):"; "";
             "SYSTEM LABELS:"; "ID: INBOX"; "Name: INBOX"; "";
             "USER LABELS:"; "ID: L1"; "Name: Work"].
Proof. vm_compute. reflexivity. Qed.

Lemma substring_prefix (n : nat) :
  forall s : string,
    String.prefix (String.substring 0 n s) s = true
    /\ String.length (String.substring 0 n s) = Nat.min n (String.length s).
Proof.
  induction n as [|n IH]; intros [|c s]; cbn; auto.
  destruct (IH s) as [Hp Hl]. rewrite Hl. split; [|reflexivity].
  destruct (ascii_dec c c); [exact Hp | congruence].
Qed.

(** X9: the attachment tool never hands out more than the first hundred
    characters of the attachment data: the text ends with a prefix of the
    data of length [min(100, length)], always followed by three dots, also
    when nothing was cut off. *)
Theorem attachment_preview (attachmentId : string) (size : option N)
  (data : string) :
  exists shown,
    gmail_get_attachment attachmentId (inr (AttachmentData size (Some data)))
    = "Attachment downloaded successfully:" +:+ nl
        +:+ "Attachment ID: " +:+ attachmentId +:+ nl
        +:+ "Size: "
        +:+ show_N (round_kb (match size with Some n => n | None => 0%N end))
        +:+ " KB" +:+ nl +:+ "Data: " +:+ shown +:+ "..."
    /\ String.prefix shown data = true
    /\ String.length shown = Nat.min 100 (String.length data).
Proof.
  exists (substring_from_0 100 data).
  split; [|apply substring_prefix].
  unfold gmail_get_attachment. cbn [ad_size ad_data or_else].
  destruct (str_eq data "") eqn:Hempty; [|reflexivity].
  apply String.eqb_eq in Hempty. now subst data.
Qed.

Section DraftFacts.

Variable toLowerCase : string -> string.
Variable G : Type.
Variable get_draft : string -> G -> (thrown + list header) * G.

Local Notation draft_details := (draft_details toLowerCase G get_draft).

(** When every fetch succeeds the loop ends with one entry per draft. *)
Lemma draft_details_ok (drafts : list string) :
  forall results g,
    (forall id g0, id ∈ drafts ->
       exists headers g1, get_draft id g0 = (inr headers, g1)) ->
    exists added g',
      draft_details drafts results g = (inr (results ++ added), g')
      /\ map de_id added = drafts.
Proof.
  induction drafts as [|id rest IH]; intros results g Hok;
    cbn [Tools.draft_details].
  - exists [], g. now rewrite app_nil_r.
  - destruct (Hok id g) as (headers & g1 & ->); [left|].
    match goal with
    | |- context [Tools.draft_details _ _ _ rest ?rs g1] =>
        destruct (IH rs g1) as (added & g' & Heq & Hmap)
    end.
    { intros id0 g0 Hin. apply Hok. now right. }
    rewrite Heq, <- app_assoc.
    eexists (_ :: added), g'. split; [reflexivity|]. cbn. now rewrite Hmap.
Qed.

(** The first fetch that fails ends the loop with its error. *)
Lemma draft_details_fail (pre post : list string) (id : string)
  (message : thrown) :
  forall results g,
    (forall id0 g0, id0 ∈ pre ->
       exists headers g1, get_draft id0 g0 = (inr headers, g1)) ->
    (forall g0, exists g1, get_draft id g0 = (inl message, g1)) ->
    exists g', draft_details (pre ++ id :: post) results g = (inl message, g').
Proof.
  induction pre as [|id0 pre IH]; intros results g Hok Hfail;
    cbn [app Tools.draft_details].
  - destruct (Hfail g) as (g1 & ->). eauto.
  - destruct (Hok id0 g) as (headers & g1 & ->); [left|].
    apply IH; [|exact Hfail].
    intros id1 g0 Hin. apply Hok. now right.
Qed.

End DraftFacts.

(** X10: the draft listing has no cap and is all or nothing.  When the
    fetch of every listed draft succeeds, the answer shows one entry per
    draft, in the order of the listing, under the number found.  When the
    fetch of some draft fails after those of the drafts before it have
    succeeded, the whole answer is the error text for that failure, and
    nothing of the drafts already fetched is shown. *)
Theorem list_drafts_all_or_nothing (toLowerCase : string -> string)
  (G : Type) (get_draft : string -> G -> (thrown + list header) * G)
  (ids : list string) (g : G) :
  ((forall id g0, id ∈ ids ->
      exists headers g1, get_draft id g0 = (inr headers, g1)) ->
   exists results,
     (gmail_list_drafts toLowerCase G get_draft (inr (Some ids)) g).1
     = (if length ids =? 0 then no_drafts
        else drafts_text results (length ids))
     /\ map de_id results = ids)
  /\ (forall pre id post message,
        ids = pre ++ id :: post ->
        (forall id0 g0, id0 ∈ pre ->
           exists headers g1, get_draft id0 g0 = (inr headers, g1)) ->
        (forall g0, exists g1, get_draft id g0 = (inl message, g1)) ->
        (gmail_list_drafts toLowerCase G get_draft (inr (Some ids)) g).1
        = handleError message "list drafts").
Proof.
  unfold gmail_list_drafts. split.
  - intros Hok.
    destruct (draft_details_ok toLowerCase G get_draft ids [] g Hok)
      as (added & g' & Heq & Hmap).
    exists added. rewrite Heq. cbn [app fst].
    split; [|exact Hmap]. now destruct (length ids =? 0).
  - intros pre id post message -> Hok Hfail.
    destruct (draft_details_fail toLowerCase G get_draft pre post id message
                [] g Hok Hfail) as (g' & ->).
    rewrite length_app. cbn [length].
    replace (length pre + S (length post) =? 0) with false
      by (symmetry; apply Nat.eqb_neq; lia).
    reflexivity.
Qed.

(** Two drafts: both fetched, and the second one failing. *)
Definition fetch_but_d2 (id : string) (g : nat)
  : (thrown + list header) * nat :=
  (if str_eq id "d2" then inl "Requested entity was not found."
   else inr [Header (Some "Subject") (Some id)], S g).

Lemma list_drafts_all_or_nothing_witness :
  (exists results,
      (gmail_list_drafts (fun x => x) nat
         (fun id g => (inr [Header (Some "To") (Some id)], S g))
         (inr (Some ["d1"; "d2"])) 0).1
      = (if length ["d1"; "d2"] =? 0 then no_drafts
         else drafts_text results (length ["d1"; "d2"]))
      /\ map de_id results = ["d1"; "d2"])
  /\ (gmail_list_drafts (fun x => x) nat fetch_but_d2
        (inr (Some ["d1"; "d2"; "d3"])) 0).1
     = handleError "Requested entity was not found." "list drafts".
Proof.
  split.
  - apply (proj1 (list_drafts_all_or_nothing (fun x => x) nat
                    (fun id g => (inr [Header (Some "To") (Some id)], S g))
                    ["d1"; "d2"] 0)).
    intros id g0 _. eauto.
  - apply (proj2 (list_drafts_all_or_nothing (fun x => x) nat fetch_but_d2
                    ["d1"; "d2"; "d3"] 0) ["d1"] "d2" ["d3"]
             "Requested entity was not found." eq_refl).
    + intros id0 g0 Hin. apply list_elem_of_singleton in Hin. subst id0.
      eauto.
    + intros g0. eauto.
Defined.

Example drafts_beyond_ten :
  let out := gmail_list_drafts (fun x => x) nat
               (fun id g => (inr [Header (Some "To") (Some id)], S g))
               (inr (Some Listing.twelve)) 0 in
  String.prefix "Found 12 drafts:" out.1 = true /\ out.2 = 12.
Proof. vm_compute. split; reflexivity. Qed.

End Tools.

(** ** More about the batch loop *)

Module BatchMore.
Import Js Batch.

(** The gateway call with a record of the ids it was made for. *)
Definition logged {G : Type} (call : string -> G -> option string * G)
  (id : string) (gl : G * list string) : option string * (G * list string) :=
  let '(rejected, g') := call id gl.1 in
  (rejected, (g', gl.2 ++ [id])).

(** The entries a list of ids gets when the gateway's answer for an id is
    [answer id]. *)
Definition entries (answer : string -> option string) (ids : list string)
  : list item_result :=
  map (fun id => result_of id (answer id)) ids.

Lemma slice_beyond {A} (xs : list A) (i c : Z) :
  (Z.of_nat (length xs) <= i)%Z -> (0 < c)%Z -> slice xs i (i + c) = [].
Proof.
  intros Hi Hc. unfold slice, relative.
  destruct (Z.ltb_spec i 0); [lia|].
  destruct (Z.ltb_spec (i + c) 0); [lia|].
  rewrite !Z.min_r by lia. rewrite Z.sub_diag. apply take_0.
Qed.

Lemma lookup_all {A} (l : list A) :
  forall pre : list A,
    omap (fun j => (pre ++ l) !! j) (seq (length pre) (length l)) = l.
Proof.
  induction l as [|x l IH]; intros pre; [reflexivity|].
  cbn [length seq omap list_omap].
  rewrite list_lookup_middle by reflexivity.
  f_equal.
  specialize (IH (pre ++ [x])).
  rewrite <- app_assoc, length_app in IH. cbn in IH.
  now rewrite Nat.add_1_r in IH.
Qed.

Section MoreFacts.

Variable G : Type.
Variable call : string -> G -> option string * G.
Variable pick : Z -> nat -> nat.
Variable messageIds : list string.
Variable batchSize : Z.
Hypothesis positive : (0 < batchSize)%Z.

Local Notation iteration := (iteration G call pick messageIds batchSize).
Local Notation batch_loop := (batch_loop G call pick messageIds batchSize).
Local Notation state_at := (state_at G call pick messageIds batchSize).
Local Notation chunk_of := (chunk_of G messageIds batchSize).
Local Notation chunk i :=
  (take (Z.to_nat batchSize) (drop (Z.to_nat i) messageIds)).

Lemma chunk_of_index (st : loop_state G) :
  (0 <= index G st)%Z -> chunk_of st = chunk (index G st).
Proof.
  intros Hi. unfold Batch.chunk_of.
  destruct (Z.lt_ge_cases (index G st) (Z.of_nat (length messageIds))).
  - apply slice_chunk; lia.
  - rewrite slice_beyond by lia. rewrite drop_ge by lia. now rewrite take_nil.
Qed.

Lemma iteration_index (st st' : loop_state G) :
  iteration st = Next G st' -> index G st' = (index G st + batchSize)%Z.
Proof.
  unfold Batch.iteration.
  destruct (index G st <? Z.of_nat (length messageIds))%Z; [|discriminate].
  destruct (run_chunk G call pick (index G st) _ (mailbox G st))
    as [[rs g']|]; [|discriminate].
  now intros [= <-].
Qed.

Lemma state_at_index (g : G) (n : nat) (st : loop_state G) :
  state_at n (start G g) = Some st ->
  index G st = (Z.of_nat n * batchSize)%Z.
Proof.
  revert st. induction n as [|n IH]; intros st.
  - intros [= <-]. reflexivity.
  - cbn [Batch.state_at].
    destruct (state_at n (start G g)) as [s|]; [|discriminate].
    destruct (iteration s) as [|s'|] eqn:Hit; try discriminate.
    intros [= <-]. rewrite (iteration_index s s' Hit), (IH s eq_refl). lia.
Qed.

(** An invariant of the loop variables, kept by every chunk, holds when
    the loop ends; and the loop does end. *)
Lemma batch_loop_invariant (Q : Z -> list item_result -> G -> Prop) :
  (forall i rs g brs g',
      (0 <= i < Z.of_nat (length messageIds))%Z -> Q i rs g ->
      run_chunk G call pick i (chunk i) g = Some (brs, g') ->
      Q (i + batchSize)%Z (rs ++ brs) g') ->
  forall (n : nat) (st : loop_state G),
    (0 <= index G st)%Z ->
    (Z.of_nat (length messageIds) - index G st <= Z.of_nat n)%Z ->
    Q (index G st) (results G st) (mailbox G st) ->
    exists rs g' i,
      batch_loop (S n) st = Done G rs g'
      /\ Q i rs g' /\ (Z.of_nat (length messageIds) <= i)%Z.
Proof.
  intros Hstep. induction n as [|n IH]; intros st Hi Hn HQ.
  - cbn [Batch.batch_loop]. unfold Batch.iteration.
    destruct (Z.ltb_spec (index G st) (Z.of_nat (length messageIds))); [lia|].
    eauto 6.
  - cbn [Batch.batch_loop]. unfold Batch.iteration.
    destruct (Z.ltb_spec (index G st) (Z.of_nat (length messageIds)));
      [|eauto 6].
    rewrite slice_chunk by lia.
    destruct (run_chunk_ok G call pick (index G st) (chunk (index G st))
                (mailbox G st)) as (brs & g' & Hrun & _).
    rewrite Hrun.
    apply (IH (LoopState G (index G st + batchSize)
                 (results G st ++ brs) g')); cbn [index results mailbox];
      try lia.
    now apply (Hstep _ _ (mailbox G st)).
Qed.

End MoreFacts.

(** With a chunk size above zero the index stays at zero or above. *)
Lemma index_nonnegative (G : Type) (call : string -> G -> option string * G)
  (pick : Q -> nat -> nat) (messageIds : list string) (batchSize : Q) (g : G) :
  (0 < batchSize)%Q ->
  forall (n : nat) (st : BatchNum.loop_state G),
    BatchNum.state_at G call pick messageIds batchSize n (BatchNum.start G g)
    = Some st ->
    (0 <= BatchNum.index G st)%Q.
Proof.
  intros Hb. induction n as [|n IH]; intros st.
  - intros [= <-]. cbn. lra.
  - cbn [BatchNum.state_at].
    destruct (BatchNum.state_at G call pick messageIds batchSize n
                (BatchNum.start G g)) as [s|]; [|discriminate].
    destruct (BatchNum.iteration G call pick messageIds batchSize s)
      as [|s'|] eqn:Hit; try discriminate.
    intros [= <-].
    rewrite (BatchNum.iteration_adds G call pick messageIds batchSize s s'
               Hit).
    specialize (IH s eq_refl). lra.
Qed.

(** X11: with a chunk size above zero, whole or not, the iteration whose
    loop index is [i] works on the ids from position [trunc(i)] up to, but
    not including, position [trunc(i + batchSize)], and the next iteration
    has index [i + batchSize], starting from 0: the chunks are consecutive.
    No chunk holds more ids than [batchSize] rounded up, so no more than
    that many requests are in flight at a time. *)
Theorem chunks_are_consecutive (G : Type)
  (call : string -> G -> option string * G) (pick : Q -> nat -> nat)
  (messageIds : list string) (batchSize : Q) (g : G) (n : nat)
  (st : BatchNum.loop_state G) :
  (0 < batchSize)%Q ->
  BatchNum.state_at G call pick messageIds batchSize n (BatchNum.start G g)
  = Some st ->
  (0 <= BatchNum.index G st)%Q
  /\ (n = 0 -> BatchNum.index G st = 0%Q)
  /\ (forall st',
        BatchNum.state_at G call pick messageIds batchSize (S n)
          (BatchNum.start G g) = Some st' ->
        BatchNum.index G st' = (BatchNum.index G st + batchSize)%Q)
  /\ BatchNum.chunk_of G messageIds batchSize st
     = take (Z.to_nat (BatchNum.truncate (BatchNum.index G st + batchSize)
                       - BatchNum.truncate (BatchNum.index G st)))
         (drop (Z.to_nat (BatchNum.truncate (BatchNum.index G st)))
            messageIds)
  /\ (0 <= BatchNum.truncate (BatchNum.index G st)
       <= BatchNum.truncate (BatchNum.index G st + batchSize))%Z
  /\ length (BatchNum.chunk_of G messageIds batchSize st)
     <= Z.to_nat (Qceiling batchSize).
Proof.
  intros Hb Hst.
  pose proof (index_nonnegative G call pick messageIds batchSize g Hb n st Hst)
    as Hi.
  destruct (BatchNum.chunk_positive messageIds (BatchNum.index G st)
              batchSize Hi Hb) as (Hchunk & Hpos & Hlen).
  split; [exact Hi|]. split.
  { intros ->. now injection Hst as <-. }
  split.
  { intros st' Hst'.
    exact (BatchNum.iteration_adds G call pick messageIds batchSize st st'
             (BatchNum.state_at_S G call pick messageIds batchSize n _ st st'
                Hst Hst')). }
  unfold BatchNum.chunk_of. rewrite Hchunk.
  split; [reflexivity|]. split; [exact Hpos|].
  rewrite length_take. lia.
Qed.

Lemma chunks_are_consecutive_witness :
  let st := BatchNum.LoopState nat (3 # 2) [ItemResult "m1" true None] 1 in
  (0 <= BatchNum.index nat st)%Q
  /\ (1 = 0 -> BatchNum.index nat st = 0%Q)
  /\ (forall st',
        BatchNum.state_at nat reject_m2 (fun _ t => t) ["m1"; "m2"; "m3"]
          (3 # 2) 2 (BatchNum.start nat 0) = Some st' ->
        BatchNum.index nat st' = (BatchNum.index nat st + (3 # 2))%Q)
  /\ BatchNum.chunk_of nat ["m1"; "m2"; "m3"] (3 # 2) st
     = take (Z.to_nat (BatchNum.truncate (BatchNum.index nat st + (3 # 2))
                       - BatchNum.truncate (BatchNum.index nat st)))
         (drop (Z.to_nat (BatchNum.truncate (BatchNum.index nat st)))
            ["m1"; "m2"; "m3"])
  /\ (0 <= BatchNum.truncate (BatchNum.index nat st)
       <= BatchNum.truncate (BatchNum.index nat st + (3 # 2)))%Z
  /\ length (BatchNum.chunk_of nat ["m1"; "m2"; "m3"] (3 # 2) st)
     <= Z.to_nat (Qceiling (3 # 2)).
Proof.
  apply (chunks_are_consecutive nat reject_m2 (fun _ t => t)
           ["m1"; "m2"; "m3"] (3 # 2) 0 1);
    [reflexivity | vm_compute; reflexivity].
Defined.

(** With [batchSize = 1.5] and three ids the second iteration works on two
    ids, the second and the third. *)
Example fractional_chunks :
  BatchNum.state_at nat reject_m2 (fun _ t => t) ["m1"; "m2"; "m3"] (3 # 2) 1
    (BatchNum.start nat 0)
  = Some (BatchNum.LoopState nat (3 # 2) [ItemResult "m1" true None] 1)
  /\ BatchNum.chunk_of nat ["m1"; "m2"; "m3"] (3 # 2)
       (BatchNum.LoopState nat (3 # 2) [ItemResult "m1" true None] 1)
     = ["m2"; "m3"].
Proof. split; vm_compute; reflexivity. Qed.

Section CallLog.

Variable G : Type.
Variable call : string -> G -> option string * G.
Variable pick : Z -> nat -> nat.

Lemma fold_settle_log (batch : list string) (order : list nat) :
  forall (slots : list (option item_result)) (g : G) (log : list string),
    (fold_left (settle (G * list string) (logged call) batch) order
       (slots, (g, log))).2.2
    = log ++ omap (fun j => batch !! j) order.
Proof.
  induction order as [|j order IH]; intros slots g log.
  - cbn. now rewrite app_nil_r.
  - cbn [fold_left omap list_omap]. unfold settle at 2. cbn [fst snd].
    destruct (batch !! j) as [id|]; [|apply IH].
    unfold logged at 2. cbn [fst snd].
    destruct (call id g) as [rejected g'].
    rewrite IH, <- app_assoc. reflexivity.
Qed.

(** The requests of one chunk reach the gateway once each. *)
Lemma run_chunk_log (i : Z) (batch : list string) (g : G)
  (log : list string) brs gl' :
  run_chunk (G * list string) (logged call) pick i batch (g, log)
  = Some (brs, gl') ->
  exists l, gl'.2 = log ++ l /\ l ≡ₚ batch.
Proof.
  unfold run_chunk.
  set (n := length batch).
  set (order := completion_order (pick i) n (seq 0 n) 0).
  assert (Hperm : order ≡ₚ seq 0 n).
  { apply completion_order_perm. now rewrite length_seq. }
  pose proof (fold_settle_log batch order (replicate n None) g log) as Hlog.
  destruct (fold_left (settle (G * list string) (logged call) batch) order
              (replicate n None, (g, log))) as [slots gl].
  cbn [snd] in Hlog.
  destruct (promise_all slots) as [rs|]; [|discriminate].
  intros [= _ <-].
  exists (omap (fun j => batch !! j) order). split; [exact Hlog|].
  rewrite Hperm.
  replace (omap (fun j => batch !! j) (seq 0 n)) with batch
    by (symmetry; apply (lookup_all batch [])).
  reflexivity.
Qed.

End CallLog.

Section Answers.

Variable G : Type.
Variable call : string -> G -> option string * G.
Variable pick : Z -> nat -> nat.
Variable answer : string -> option string.
Hypothesis call_answer : forall id g, (call id g).1 = answer id.

Definition exact_slot (batch : list string)
  (slots : list (option item_result)) (j : nat) : Prop :=
  exists id, batch !! j = Some id
             /\ slots !! j = Some (Some (result_of id (answer id))).

Lemma settle_fold_exact (batch : list string) (order : list nat) :
  forall (st : list (option item_result) * G) (settled : list nat),
    length st.1 = length batch ->
    (forall j, j ∈ settled -> exact_slot batch st.1 j) ->
    (forall j, j ∈ order -> j < length batch) ->
    length (fold_left (settle G call batch) order st).1 = length batch
    /\ forall j, j ∈ settled ++ order ->
         exact_slot batch (fold_left (settle G call batch) order st).1 j.
Proof.
  induction order as [|j0 order IH]; intros [slots g] settled Hlen Hset Hlt.
  - cbn. rewrite app_nil_r. auto.
  - cbn [fold_left].
    assert (Hj0 : j0 < length batch) by (apply Hlt; left).
    destruct (lookup_lt_is_Some_2 batch j0 Hj0) as [id Hid].
    unfold settle at 2 4. cbn [fst snd]. rewrite Hid.
    pose proof (call_answer id g) as Hans.
    destruct (call id g) as [rejected g']. cbn [fst] in Hans. subst rejected.
    specialize (IH (<[j0:=Some (result_of id (answer id))]> slots, g')
                  (settled ++ [j0])).
    cbn [fst snd] in IH, Hlen.
    rewrite <- app_assoc in IH. cbn [app] in IH. apply IH.
    + now rewrite length_insert.
    + intros j Hj. destruct (decide (j = j0)) as [->|Hne].
      * exists id. split; [exact Hid|].
        apply list_lookup_insert_eq. lia.
      * apply elem_of_app in Hj as [Hj|Hj].
        -- destruct (Hset j Hj) as (id' & Hb & Hs).
           exists id'. rewrite list_lookup_insert_ne by congruence. auto.
        -- apply list_elem_of_singleton in Hj. congruence.
    + intros j Hj. apply Hlt. now right.
Qed.

Lemma promise_all_exact (batch : list string)
  (slots : list (option item_result)) :
  Forall2 (fun id s => s = Some (result_of id (answer id))) batch slots ->
  promise_all slots = Some (entries answer batch).
Proof.
  induction 1 as [|id s batch slots -> _ IH]; [reflexivity|].
  cbn. now rewrite IH.
Qed.

Lemma run_chunk_exact (i : Z) (batch : list string) (g : G) brs g' :
  run_chunk G call pick i batch g = Some (brs, g') ->
  brs = entries answer batch.
Proof.
  unfold run_chunk.
  set (n := length batch).
  set (order := completion_order (pick i) n (seq 0 n) 0).
  assert (Hperm : order ≡ₚ seq 0 n).
  { apply completion_order_perm. now rewrite length_seq. }
  destruct (settle_fold_exact batch order (replicate n None, g) [])
    as [Hlen Hfilled].
  - cbn. apply length_replicate.
  - intros j Hj. inversion Hj.
  - intros j Hj. rewrite Hperm in Hj. apply elem_of_seq in Hj. lia.
  - destruct (fold_left (settle G call batch) order (replicate n None, g))
      as [slots g''].
    cbn [fst] in Hlen, Hfilled.
    rewrite (promise_all_exact batch slots).
    + now intros [= <- _].
    + apply Forall2_same_length_lookup_2; [now rewrite Hlen|].
      intros j id s Hid Hs.
      destruct (Hfilled j) as (id' & Hb & Hslot).
      * cbn [app]. rewrite Hperm. apply elem_of_seq.
        apply lookup_lt_Some in Hid. fold n in Hid. lia.
      * congruence.
Qed.

End Answers.

Lemma take_chunk {A} (xs : list A) (i c : Z) :
  (0 <= i)%Z -> (0 < c)%Z ->
  take (Z.to_nat i) xs ++ take (Z.to_nat c) (drop (Z.to_nat i) xs)
  = take (Z.to_nat (i + c)) xs.
Proof.
  intros Hi Hc. rewrite take_take_drop. f_equal. lia.
Qed.

(** X12: every id is handed to the gateway exactly once, and chunk by
    chunk: with the calls recorded, the record at the head of iteration
    [n] is a rearrangement of the first [n * batchSize] ids, and the record
    at the end of the loop is a rearrangement of the whole id list; no
    request is repeated and none is left out, whatever fails. *)
Theorem each_id_called_once (G : Type)
  (call : string -> G -> option string * G) (pick : Z -> nat -> nat)
  (messageIds : list string) (batchSize : Z) (g : G) :
  (0 < batchSize)%Z ->
  (forall n st,
      state_at (G * list string) (logged call) pick messageIds batchSize n
        (start (G * list string) (g, [])) = Some st ->
      (mailbox (G * list string) st).2
      ≡ₚ take (n * Z.to_nat batchSize) messageIds)
  /\ exists fuel rs g' log,
      batch_loop (G * list string) (logged call) pick messageIds batchSize
        fuel (start (G * list string) (g, [])) = Done (G * list string) rs (g', log)
      /\ log ≡ₚ messageIds.
Proof.
  intros Hc. split.
  - induction n as [|n IH]; intros st.
    + intros [= <-]. reflexivity.
    + cbn [state_at].
      destruct (state_at (G * list string) (logged call) pick messageIds
                  batchSize n (start (G * list string) (g, [])))
        as [s|] eqn:Hs; [|discriminate].
      pose proof (state_at_index _ _ _ _ _ _ _ _ Hs) as Hidx.
      specialize (IH s eq_refl).
      unfold iteration.
      destruct (index (G * list string) s <? Z.of_nat (length messageIds))%Z;
        [|discriminate].
      fold (chunk_of (G * list string) messageIds batchSize s).
      rewrite (chunk_of_index _ messageIds batchSize Hc s) by lia.
      destruct (mailbox (G * list string) s) as [g0 log0] eqn:Hmail.
      destruct (run_chunk (G * list string) (logged call) pick _ _ (g0, log0))
        as [[brs gl']|] eqn:Hrun; [|discriminate].
      intros [= <-]. cbn [mailbox].
      destruct (run_chunk_log G call pick _ _ _ _ _ _ Hrun) as (l & -> & Hl).
      cbn [snd] in IH. rewrite IH, Hl, Hidx.
      replace (Z.to_nat (Z.of_nat n * batchSize))
        with (n * Z.to_nat batchSize) by lia.
      rewrite take_take_drop.
      replace (S n * Z.to_nat batchSize)
        with (n * Z.to_nat batchSize + Z.to_nat batchSize) by lia.
      reflexivity.
  - destruct (batch_loop_invariant (G * list string) (logged call) pick
                messageIds batchSize Hc
                (fun i _ gl => gl.2 ≡ₚ take (Z.to_nat i) messageIds)
                ltac:(intros i rs [g0 log0] brs gl' Hi HQ Hrun;
                      destruct (run_chunk_log G call pick _ _ _ _ _ _ Hrun)
                        as (l & -> & Hl);
                      cbn [snd] in HQ; rewrite HQ, Hl;
                      now rewrite take_chunk by lia)
                (length messageIds) (start (G * list string) (g, [])))
      as (rs & [g' log] & i & Hloop & HQ & Hi); cbn [start index]; try lia.
    + reflexivity.
    + exists (S (length messageIds)), rs, g', log.
      split; [exact Hloop|]. cbn [snd] in HQ. rewrite HQ.
      now rewrite take_ge by lia.
Qed.

Lemma each_id_called_once_witness :
  exists fuel rs g' log,
    batch_loop (nat * list string) (logged reject_m2)
      (fun _ t => 3 * t + 1) ["m1"; "m2"; "m3"] 2 fuel
      (start (nat * list string) (0, []))
    = Done (nat * list string) rs (g', log)
    /\ log ≡ₚ ["m1"; "m2"; "m3"].
Proof.
  apply (proj2 (each_id_called_once nat reject_m2 (fun _ t => 3 * t + 1)
                  ["m1"; "m2"; "m3"] 2 0 ltac:(lia))).
Defined.

Example call_order_follows_completion :
  batch_loop (nat * list string) (logged reject_m2)
    (fun _ t => 3 * t + 1) ["m1"; "m2"; "m3"] 2 3
    (start (nat * list string) (0, []))
  = Done (nat * list string)
      [ ItemResult "m1" true None;
        ItemResult "m2" false (Some "Not Found");
        ItemResult "m3" true None ]
      (3, ["m2"; "m1"; "m3"]).
Proof. vm_compute. reflexivity. Qed.

Lemma entries_counts (answer : string -> option string) (ids : list string) :
  successful (entries answer ids)
  = length (List.filter
              (fun id => match answer id with
                         | None => true
                         | Some _ => false
                         end) ids)
  /\ failed (entries answer ids)
     = length (List.filter
                 (fun id => match answer id with
                            | None => false
                            | Some _ => true
                            end) ids).
Proof.
  unfold successful, failed, entries.
  induction ids as [|id ids [IHs IHf]]; [split; reflexivity|].
  cbn [map List.filter].
  destruct (answer id); cbn [result_of success negb length];
    rewrite ?IHs, ?IHf; split; reflexivity.
Qed.

(** X13: when the gateway's answer for an id does not depend on what else
    has been requested, the results are the same for every completion
    order: the entry of each id records that id's own answer, in input
    order, so a failure changes no entry but its own, and the two counts
    of the report are the numbers of accepted and of rejected ids. *)
Theorem results_independent_of_order (G : Type)
  (call : string -> G -> option string * G) (pick : Z -> nat -> nat)
  (answer : string -> option string)
  (messageIds : list string) (batchSize : Z) (g : G) :
  (0 < batchSize)%Z ->
  (forall id g0, (call id g0).1 = answer id) ->
  exists fuel g',
    batch_loop G call pick messageIds batchSize fuel (start G g)
    = Done G (entries answer messageIds) g'
    /\ successful (entries answer messageIds)
       = length (List.filter
                   (fun id => match answer id with
                              | None => true
                              | Some _ => false
                              end) messageIds)
    /\ failed (entries answer messageIds)
       = length (List.filter
                   (fun id => match answer id with
                              | None => false
                              | Some _ => true
                              end) messageIds).
Proof.
  intros Hc Hanswer.
  destruct (batch_loop_invariant G call pick messageIds batchSize Hc
              (fun i rs _ => rs = entries answer (take (Z.to_nat i) messageIds))
              ltac:(intros i rs g0 brs g' Hi HQ Hrun;
                    rewrite (run_chunk_exact G call pick answer Hanswer
                               _ _ _ _ _ Hrun), HQ;
                    unfold entries; rewrite <- map_app;
                    now rewrite take_chunk by lia)
              (length messageIds) (start G g))
    as (rs & g' & i & Hloop & HQ & Hi); cbn [start index]; try lia.
  - reflexivity.
  - rewrite take_ge in HQ by lia. subst rs.
    exists (S (length messageIds)), g'. split; [exact Hloop|].
    apply entries_counts.
Qed.

Definition answer_m2 (id : string) : option string :=
  if str_eq id "m2" then Some "Not Found" else None.

Lemma results_independent_of_order_witness :
  exists fuel g',
    batch_loop nat reject_m2 (fun _ t => 3 * t + 1) ["m1"; "m2"; "m3"] 2 fuel
      (start nat 0)
    = Done nat (entries answer_m2 ["m1"; "m2"; "m3"]) g'
    /\ successful (entries answer_m2 ["m1"; "m2"; "m3"]) = 2
    /\ failed (entries answer_m2 ["m1"; "m2"; "m3"]) = 1.
Proof.
  apply (results_independent_of_order nat reject_m2 (fun _ t => 3 * t + 1)
           answer_m2 ["m1"; "m2"; "m3"] 2 0); [lia | reflexivity].
Defined.

End BatchMore.

(** ** More about credential storage and the OAuth2 flow *)

Module AuthMore.
Import Js Auth.

Section HandlerFacts.

Variable JSON_parse : string -> thrown + json.
Variable JSON_stringify : json -> string.
Variable query_code : string -> option query_value.
Variable getToken : query_value -> thrown + json.

Local Notation on_request := (on_request JSON_stringify query_code getToken).
Local Notation exchanged := (exchanged query_code getToken).

(** The host after a successful [saveToken]. *)
Definition saved (tokens : json) (h : host) : host :=
  Host (Content (JSON_stringify tokens)) None
    (console h ++ ["Token saved to gmail-token.json"])
    (S (saveToken_calls h)).

Lemma on_request_saved (u : string) (tokens : json) (a : attempt) (h : host) :
  exchanged (Some u) = Some tokens -> write_error h = None ->
  on_request (Some u) a h
  = (Attempt false (settle_with (promise a) Resolved) (Some tokens)
       (replies a ++ [200]),
     saved tokens h).
Proof.
  unfold Auth.exchanged, Auth.on_request, saveToken, saved, log.
  destruct (startsWith u "/oauth/callback"); [|discriminate].
  cbn [andb].
  destruct (query_truthy (query_code u)); [|discriminate].
  destruct (query_code u) as [c|]; [|discriminate].
  destruct (getToken c) as [e|tokens']; [discriminate|].
  intros [= ->] Hw. cbn [write_error token_file console saveToken_calls].
  rewrite Hw. reflexivity.
Qed.

Lemma on_request_not_saved (u : string) (tokens : json) (e : thrown)
  (a : attempt) (h : host) :
  exchanged (Some u) = Some tokens -> write_error h = Some e ->
  on_request (Some u) a h
  = (Attempt false (settle_with (promise a) (Rejected e)) (Some tokens)
       (replies a ++ [400]),
     Host (token_file h) (Some e) (console h) (S (saveToken_calls h))).
Proof.
  unfold Auth.exchanged, Auth.on_request, saveToken, fail.
  destruct (startsWith u "/oauth/callback"); [|discriminate].
  cbn [andb].
  destruct (query_truthy (query_code u)); [|discriminate].
  destruct (query_code u) as [c|]; [|discriminate].
  destruct (getToken c) as [e'|tokens']; [discriminate|].
  intros [= ->] Hw. cbn [write_error token_file console saveToken_calls].
  rewrite Hw. reflexivity.
Qed.

Lemma on_request_refused (u : string) (a : attempt) (h : host) :
  startsWith u "/oauth/callback" = true ->
  exchanged (Some u) = None ->
  exists e, on_request (Some u) a h = (fail e a, h).
Proof.
  unfold Auth.exchanged, Auth.on_request. intros ->. cbn [andb].
  destruct (query_truthy (query_code u)); [|eauto].
  destruct (query_code u) as [c|]; [|eauto].
  destruct (getToken c) as [e|tokens]; [eauto | discriminate].
Qed.

Lemma on_request_promise_settled (req : option string) (a : attempt)
  (h : host) :
  promise a <> Pending -> promise (on_request req a h).1 = promise a.
Proof.
  intros Hsettled.
  assert (Hkeep : forall new, settle_with (promise a) new = promise a).
  { intros new. unfold settle_with. now destruct (promise a). }
  unfold Auth.on_request.
  destruct req as [u|]; [|reflexivity].
  destruct (startsWith u "/oauth/callback"); [|reflexivity].
  destruct (query_truthy (query_code u)); [|apply Hkeep].
  destruct (query_code u) as [c|]; [|apply Hkeep].
  destruct (getToken c) as [e|tokens]; [apply Hkeep|].
  destruct (saveToken JSON_stringify tokens h) as [[[]|e] h'];
    cbn [fst fail promise]; apply Hkeep.
Qed.

End HandlerFacts.

(** X14: a token that [saveToken] wrote is what [loadToken] returns
    afterwards, provided the write went through and [JSON.parse] reads
    back what [JSON.stringify] printed; the file then holds the printed
    token. *)
Theorem saved_token_is_loaded (JSON_parse : string -> thrown + json)
  (JSON_stringify : json -> string) (token : json) (h : host) :
  write_error h = None ->
  JSON_parse (JSON_stringify token) = inr token ->
  (saveToken JSON_stringify token h).1 = Normal tt
  /\ (loadToken JSON_parse (saveToken JSON_stringify token h).2).1
     = Normal token
  /\ token_file (loadToken JSON_parse (saveToken JSON_stringify token h).2).2
     = Content (JSON_stringify token).
Proof.
  intros Hw Hround. unfold saveToken. cbn [write_error]. rewrite Hw.
  cbn [fst snd]. unfold loadToken, loadToken_try, existsSync, readFileSync, log.
  cbn [token_file]. rewrite Hround. auto.
Qed.

Lemma saved_token_is_loaded_witness :
  (saveToken toy_stringify (JObject [("access_token", JString "t")])
     (Host Absent None [] 0)).1 = Normal tt
  /\ (loadToken toy_parse
        (saveToken toy_stringify (JObject [("access_token", JString "t")])
           (Host Absent None [] 0)).2).1
     = Normal (JObject [("access_token", JString "t")])
  /\ token_file
       (loadToken toy_parse
          (saveToken toy_stringify (JObject [("access_token", JString "t")])
             (Host Absent None [] 0)).2).2
     = Content (toy_stringify (JObject [("access_token", JString "t")])).
Proof.
  apply (saved_token_is_loaded toy_parse toy_stringify
           (JObject [("access_token", JString "t")]) (Host Absent None [] 0));
    reflexivity.
Defined.



(** X16: a promise that has settled stays as it is: neither the timer,
    which is never cancelled, nor a later request changes the outcome of
    an authorization that has already succeeded or failed. *)
Theorem settled_promise_is_final (JSON_stringify : json -> string)
  (query_code : string -> option query_value)
  (getToken : query_value -> thrown + json)
  (a : attempt) :
  promise a <> Pending ->
  promise (on_timeout a) = promise a
  /\ forall req h,
      promise (on_request JSON_stringify query_code getToken req a h).1
      = promise a.
Proof.
  intros Hsettled. split.
  - cbn. now destruct (promise a).
  - intros req h. now apply on_request_promise_settled.
Qed.

Lemma settled_promise_is_final_witness :
  promise (on_timeout (Attempt false Resolved None [200])) = Resolved
  /\ forall req h,
      promise (on_request toy_stringify toy_query toy_exchange req
                 (Attempt false Resolved None [200]) h).1
      = Resolved.
Proof.
  apply (settled_promise_is_final toy_stringify toy_query toy_exchange
           (Attempt false Resolved None [200])).
  discriminate.
Defined.

(** X17: every request to the callback path is answered exactly once and
    stops the listener; the answer is 200 exactly when the code was
    exchanged and the tokens were saved, and 400 otherwise.  A request to
    any other path is not answered at all and changes nothing. *)
Theorem one_reply_per_callback (JSON_stringify : json -> string)
  (query_code : string -> option query_value)
  (getToken : query_value -> thrown + json)
  (u : string) (a : attempt) (h : host) :
  let r := on_request JSON_stringify query_code getToken (Some u) a h in
  if startsWith u "/oauth/callback" then
    listening r.1 = false
    /\ replies r.1
       = replies a
         ++ [match exchanged query_code getToken (Some u), write_error h with
             | Some _, None => 200
             | _, _ => 400
             end]
  else r = (a, h).
Proof.
  cbn zeta. destruct (startsWith u "/oauth/callback") eqn:Hpath.
  - destruct (exchanged query_code getToken (Some u)) as [tokens|] eqn:Hex.
    + destruct (write_error h) as [e|] eqn:Hw.
      * rewrite (on_request_not_saved JSON_stringify query_code getToken
                   u tokens e a h Hex Hw). auto.
      * rewrite (on_request_saved JSON_stringify query_code getToken
                   u tokens a h Hex Hw). auto.
    + destruct (on_request_refused JSON_stringify query_code getToken
                  u a h Hpath Hex) as [e ->]. auto.
  - unfold on_request. now rewrite Hpath.
Qed.

(** A token file from which no token is taken: absent, unreadable, not
    JSON, or a JSON value that counts as false. *)
Definition unusable (JSON_parse : string -> thrown + json) (f : file) : Prop :=
  match f with
  | Absent | Unreadable _ => True
  | Content text =>
      match JSON_parse text with
      | inl _ => True
      | inr v => json_truthy v = false
      end
  end.

Section SystemFacts.

Variable JSON_parse : string -> thrown + json.
Variable JSON_stringify : json -> string.
Variable query_code : string -> option query_value.
Variable getToken : query_value -> thrown + json.

Local Notation initializeGmailClient := (initializeGmailClient JSON_parse).
Local Notation step := (step JSON_parse JSON_stringify query_code getToken).
Local Notation run := (run JSON_parse JSON_stringify query_code getToken).

Lemma step_call (s : system) (t : nat) :
  inflight s !! t = None ->
  step s (Call t) = update t (initializeGmailClient (shared s)) s.
Proof. intros H. unfold Auth.step. now rewrite H. Qed.

Lemma step_opened (s : system) (t : nat) (creds : option json) :
  inflight s !! t = Some (AwaitOpen creds) -> port s = None ->
  step s (Opened t) = bound t (update t (opened true creds (shared s)) s).
Proof. intros H Hport. unfold Auth.step. now rewrite H, Hport. Qed.

Lemma step_request (s : system) (t : nat) (req : option string)
  (a a' : attempt) (h : host) :
  inflight s !! t = Some (AwaitCallback a) -> listening a = true ->
  on_request JSON_stringify query_code getToken req a (outside (shared s))
  = (a', h) ->
  step s (Request t req)
  = closed t a'
      (update t
         (after_callback a'
            (Process (env (shared s)) (gmailClient (shared s)) h
               (listen_calls (shared s)))) s).
Proof. intros H Hl Hreq. unfold Auth.step. now rewrite H, Hl, Hreq. Qed.

Lemma step_timeout (s : system) (t : nat) (a : attempt) :
  inflight s !! t = Some (AwaitCallback a) ->
  step s (Timeout t)
  = closed t (on_timeout a)
      (update t (after_callback (on_timeout a) (shared s)) s).
Proof. intros H. unfold Auth.step. now rewrite H. Qed.

(** A server that stops listening gives up the port it held. *)
Lemma closed_holder (t : nat) (a : attempt) (s : system) :
  listening a = false -> port s = None \/ port s = Some t ->
  closed t a s = System (shared s) (inflight s) None (unhandled s).
Proof.
  intros Hl Hport. unfold closed. rewrite Hl.
  destruct Hport as [Hport|Hport]; rewrite Hport.
  - destruct s. cbn in *. now subst.
  - now rewrite Nat.eqb_refl.
Qed.

Lemma inflight_update (t : nat) (r : pc * process) (s : system) :
  inflight (update t r s) !! t = Some r.1.
Proof. unfold update. cbn. apply lookup_insert_eq. Qed.

Lemma inflight_update_ne (t t' : nat) (r : pc * process) (s : system) :
  t <> t' -> inflight (update t r s) !! t' = inflight s !! t'.
Proof. intros H. unfold update. cbn. now apply lookup_insert_ne. Qed.

Lemma step_access_token (s : system) (t : nat) (ok : bool) (saved : json) :
  inflight s !! t = Some (AwaitAccessToken saved) ->
  step s (AccessToken t ok)
  = update t (access_token_settled ok saved (shared s)) s.
Proof. intros H. unfold Auth.step. now rewrite H. Qed.

(** A call that finds OAuth2 credentials and no usable token goes on to
    open the browser; the token file stays as it is. *)
Lemma initializeGmailClient_unusable (e : environment) (h : host) (k : nat) :
  oauth_configured e -> unusable JSON_parse (token_file h) ->
  exists h',
    initializeGmailClient (Process e None h k)
    = (AwaitOpen None, Process e None h' k)
    /\ token_file h' = token_file h
    /\ write_error h' = write_error h
    /\ saveToken_calls h' = saveToken_calls h.
Proof.
  intros (Hsa & Hid & Hsecret) Hun.
  unfold Auth.initializeGmailClient, authenticateOAuth2, loadToken,
    loadToken_try, existsSync, readFileSync.
  cbn [gmailClient env outside listen_calls].
  rewrite Hsa, Hid, Hsecret. cbn [negb orb].
  unfold unusable in Hun.
  destruct (token_file h) as [|why|text] eqn:Hfile.
  - exists h. now rewrite Hfile.
  - eexists. split; [reflexivity|]. cbn. now rewrite Hfile.
  - destruct (JSON_parse text) as [err|v].
    + eexists. split; [reflexivity|]. cbn. now rewrite Hfile.
    + rewrite Hun. exists h. now rewrite Hfile.
Qed.

Lemma initializeGmailClient_saved (e : environment) (h : host) (k : nat)
  (text : string) (saved : json) :
  oauth_configured e -> token_file h = Content text ->
  JSON_parse text = inr saved -> json_truthy saved = true ->
  initializeGmailClient (Process e None h k)
  = (AwaitAccessToken saved, Process e None h k).
Proof.
  intros (Hsa & Hid & Hsecret) Hfile Hparse Htruthy.
  unfold Auth.initializeGmailClient, authenticateOAuth2, loadToken,
    loadToken_try, existsSync, readFileSync.
  cbn [gmailClient env outside listen_calls].
  rewrite Hsa, Hid, Hsecret, Hfile, Hparse. cbn [negb orb]. rewrite Htruthy.
  now destruct h.
Qed.

End SystemFacts.

(** X18: before anything else, the configuration decides.  With
    [GOOGLE_APPLICATION_CREDENTIALS] set, the first call returns a service
    account client at once: no token file is read and no listener is
    started, even when the OAuth2 settings are missing.  Without it, a
    missing or empty [GOOGLE_CLIENT_ID] or [GOOGLE_CLIENT_SECRET] fails the
    call with the text that names the two settings, and nothing else
    happens. *)
Theorem configuration_decides_first (JSON_parse : string -> thrown + json)
  (p : process) :
  gmailClient p = None ->
  (truthy (GOOGLE_APPLICATION_CREDENTIALS (env p)) = true ->
   initializeGmailClient JSON_parse p
   = (Returned ServiceAccount,
      Process (env p) (Some ServiceAccount) (outside p) (listen_calls p)))
  /\ (truthy (GOOGLE_APPLICATION_CREDENTIALS (env p)) = false ->
      truthy (GOOGLE_CLIENT_ID (env p)) = false
      \/ truthy (GOOGLE_CLIENT_SECRET (env p)) = false ->
      initializeGmailClient JSON_parse p
      = (Failed (wrap missing_credentials), p)).
Proof.
  intros Hnone. unfold initializeGmailClient, authenticateOAuth2.
  rewrite Hnone. split.
  - now intros ->.
  - intros -> [Hid|Hsecret].
    + now rewrite Hid.
    + rewrite Hsecret. now rewrite orb_true_r.
Qed.

Lemma configuration_decides_first_witness :
  initializeGmailClient toy_parse
    (Process (Environment None (Some "secret") None) None
       (Host Absent None [] 0) 0)
  = (Failed (wrap missing_credentials),
     Process (Environment None (Some "secret") None) None
       (Host Absent None [] 0) 0).
Proof.
  apply (proj2 (configuration_decides_first toy_parse
                  (Process (Environment None (Some "secret") None) None
                     (Host Absent None [] 0) 0) eq_refl));
    [reflexivity | left; reflexivity].
Defined.

Lemma run_first (JSON_parse : string -> thrown + json)
  (JSON_stringify : json -> string)
  (query_code : string -> option query_value)
  (getToken : query_value -> thrown + json)
  (e : environment) (f : file) (u : string) (tokens : json) (t : nat) :
  oauth_configured e -> unusable JSON_parse f ->
  exchanged query_code getToken (Some u) = Some tokens ->
  exists h' ts,
    run JSON_parse JSON_stringify query_code getToken
      [Call t; Opened t; Request t (Some u)] (boot e f)
    = System (Process e (Some (OAuth2 (Some tokens)))
                (saved JSON_stringify tokens h') 1) ts None []
    /\ ts !! t = Some (Returned (OAuth2 (Some tokens)))
    /\ (forall t', t <> t' -> ts !! t' = None)
    /\ saveToken_calls h' = 0.
Proof.
  intros He Hun Hex.
  change (run JSON_parse JSON_stringify query_code getToken
            [Call t; Opened t; Request t (Some u)] (boot e f))
    with (step JSON_parse JSON_stringify query_code getToken
            (step JSON_parse JSON_stringify query_code getToken
               (step JSON_parse JSON_stringify query_code getToken
                  (boot e f) (Call t)) (Opened t)) (Request t (Some u))).
  rewrite step_call by apply lookup_empty.
  unfold boot at 1. cbn [shared].
  destruct (initializeGmailClient_unusable JSON_parse e (Host f None [] 0) 0
              He Hun) as (h' & -> & Hfile & Hw & Hcalls).
  cbn [write_error saveToken_calls] in Hw, Hcalls.
  rewrite (step_opened _ _ _ _ _ _ None)
    by (apply inflight_update || reflexivity).
  erewrite step_request;
    [| unfold bound; cbn [inflight]; rewrite inflight_update; reflexivity
     | reflexivity
     | unfold bound, update, opened; cbn [fst snd shared outside];
       apply (on_request_saved JSON_stringify query_code getToken
                u tokens _ h' Hex Hw) ].
  rewrite closed_holder by (reflexivity || (right; reflexivity)).
  unfold bound, update, opened, boot, after_callback.
  cbn [fst snd shared inflight env gmailClient outside listen_calls promise
       settle_with credentials port unhandled].
  exists h'. eexists. split; [reflexivity|].
  split; [apply lookup_insert_eq|]. split; [|exact Hcalls].
  intros t' Hne. rewrite !lookup_insert_ne by congruence. apply lookup_empty.
Qed.

(** X19: first use.  In a process with OAuth2 credentials and no usable
    token file, a call that opens the browser and then receives a callback
    whose code is exchanged ends with an authenticated client: the tokens
    are in the token file, [gmailClient] is set, [listen] was called once;
    and every later call gets that same client at once, with no further
    listener and no further write. *)
Theorem first_authorization_is_reused (JSON_parse : string -> thrown + json)
  (JSON_stringify : json -> string)
  (query_code : string -> option query_value)
  (getToken : query_value -> thrown + json)
  (e : environment) (f : file) (u : string) (tokens : json) (t t' : nat) :
  oauth_configured e -> unusable JSON_parse f ->
  exchanged query_code getToken (Some u) = Some tokens ->
  t <> t' ->
  let s := run JSON_parse JSON_stringify query_code getToken
             [Call t; Opened t; Request t (Some u)] (boot e f) in
  let s' := step JSON_parse JSON_stringify query_code getToken s (Call t') in
  inflight s !! t = Some (Returned (OAuth2 (Some tokens)))
  /\ gmailClient (shared s) = Some (OAuth2 (Some tokens))
  /\ token_file (outside (shared s)) = Content (JSON_stringify tokens)
  /\ listen_calls (shared s) = 1
  /\ saveToken_calls (outside (shared s)) = 1
  /\ inflight s' !! t' = Some (Returned (OAuth2 (Some tokens)))
  /\ shared s' = shared s.
Proof.
  intros He Hun Hex Hne.
  destruct (run_first JSON_parse JSON_stringify query_code getToken
              e f u tokens t He Hun Hex)
    as (h' & ts & Hrun & Hin & Hout & Hcalls).
  cbn zeta. rewrite Hrun. cbn [shared inflight gmailClient outside
                               listen_calls].
  rewrite step_call by (cbn [inflight]; now apply Hout).
  cbn [shared].
  rewrite (initializeGmailClient_cached JSON_parse _ (OAuth2 (Some tokens)))
    by reflexivity.
  rewrite inflight_update. unfold saved. cbn. rewrite Hcalls. auto 10.
Qed.

Lemma first_authorization_is_reused_witness :
  let s := run toy_parse toy_stringify toy_query toy_exchange
             [Call 0; Opened 0; Request 0 (Some "/oauth/callback?code=4/abc")]
             (boot desktop Absent) in
  let s' := step toy_parse toy_stringify toy_query toy_exchange s (Call 1) in
  inflight s !! 0
  = Some (Returned (OAuth2 (Some (JObject [("access_token", JString "t")]))))
  /\ gmailClient (shared s)
     = Some (OAuth2 (Some (JObject [("access_token", JString "t")])))
  /\ token_file (outside (shared s))
     = Content (toy_stringify (JObject [("access_token", JString "t")]))
  /\ listen_calls (shared s) = 1
  /\ saveToken_calls (outside (shared s)) = 1
  /\ inflight s' !! 1
     = Some (Returned (OAuth2 (Some (JObject [("access_token", JString "t")]))))
  /\ shared s' = shared s.
Proof.
  apply (first_authorization_is_reused toy_parse toy_stringify toy_query
           toy_exchange desktop Absent "/oauth/callback?code=4/abc"
           (JObject [("access_token", JString "t")]) 0 1);
    [repeat split | exact I | reflexivity | discriminate].
Defined.

Lemma run_saved (JSON_parse : string -> thrown + json)
  (JSON_stringify : json -> string)
  (query_code : string -> option query_value)
  (getToken : query_value -> thrown + json)
  (e : environment) (text : string) (saved : json) (t : nat) (ok : bool) :
  oauth_configured e ->
  JSON_parse text = inr saved -> json_truthy saved = true ->
  run JSON_parse JSON_stringify query_code getToken
    [Call t; AccessToken t ok] (boot e (Content text))
  = update t
      (access_token_settled ok saved
         (Process e None (Host (Content text) None [] 0) 0))
      (update t
         (AwaitAccessToken saved,
          Process e None (Host (Content text) None [] 0) 0)
         (boot e (Content text))).
Proof.
  intros He Hparse Htruthy.
  change (run JSON_parse JSON_stringify query_code getToken
            [Call t; AccessToken t ok] (boot e (Content text)))
    with (step JSON_parse JSON_stringify query_code getToken
            (step JSON_parse JSON_stringify query_code getToken
               (boot e (Content text)) (Call t)) (AccessToken t ok)).
  rewrite step_call by apply lookup_empty.
  unfold boot at 1. cbn [shared].
  rewrite (initializeGmailClient_saved JSON_parse e
             (Host (Content text) None [] 0) 0 text saved He
             eq_refl Hparse Htruthy).
  rewrite (step_access_token _ _ _ _ _ _ ok saved)
    by (rewrite inflight_update; reflexivity).
  reflexivity.
Qed.

(** X20: with a token file that holds a token, a call first checks the
    token with the provider.  When the check succeeds the call returns a
    client with the saved token, [gmailClient] is set, and no listener is
    started; the token file is neither rewritten nor touched.  When the
    check fails the call goes on to the browser flow and starts a
    listener, the stale token still set on the client, and the token file
    is left in place. *)
Theorem saved_token_is_checked_first (JSON_parse : string -> thrown + json)
  (JSON_stringify : json -> string)
  (query_code : string -> option query_value)
  (getToken : query_value -> thrown + json)
  (e : environment) (text : string) (saved : json) (t : nat) :
  oauth_configured e ->
  JSON_parse text = inr saved -> json_truthy saved = true ->
  (let s := run JSON_parse JSON_stringify query_code getToken
              [Call t; AccessToken t true] (boot e (Content text)) in
   inflight s !! t = Some (Returned (OAuth2 (Some saved)))
   /\ gmailClient (shared s) = Some (OAuth2 (Some saved))
   /\ listen_calls (shared s) = 0
   /\ outside (shared s) = Host (Content text) None [] 0)
  /\ (let s := run JSON_parse JSON_stringify query_code getToken
                 [Call t; AccessToken t false; Opened t]
                 (boot e (Content text)) in
      inflight s !! t
      = Some (AwaitCallback (Attempt true Pending (Some saved) []))
      /\ gmailClient (shared s) = None
      /\ listen_calls (shared s) = 1
      /\ outside (shared s) = Host (Content text) None [] 0).
Proof.
  intros He Hparse Htruthy. split; cbn zeta.
  - rewrite (run_saved JSON_parse JSON_stringify query_code getToken
               e text saved t true He Hparse Htruthy).
    rewrite inflight_update. cbn. auto.
  - change (run JSON_parse JSON_stringify query_code getToken
              [Call t; AccessToken t false; Opened t] (boot e (Content text)))
      with (step JSON_parse JSON_stringify query_code getToken
              (run JSON_parse JSON_stringify query_code getToken
                 [Call t; AccessToken t false] (boot e (Content text)))
              (Opened t)).
    rewrite (run_saved JSON_parse JSON_stringify query_code getToken
               e text saved t false He Hparse Htruthy).
    rewrite (step_opened _ _ _ _ _ _ (Some saved))
      by ((rewrite inflight_update; reflexivity) || reflexivity).
    unfold bound. cbn [inflight]. rewrite inflight_update. cbn. auto.
Qed.

Lemma saved_token_is_checked_first_witness :
  (let s := run toy_parse toy_stringify toy_query toy_exchange
              [Call 0; AccessToken 0 true] (boot desktop (Content token_text))
   in
   inflight s !! 0
   = Some (Returned (OAuth2 (Some (JObject [("access_token", JString "t")]))))
   /\ gmailClient (shared s)
      = Some (OAuth2 (Some (JObject [("access_token", JString "t")])))
   /\ listen_calls (shared s) = 0
   /\ outside (shared s) = Host (Content token_text) None [] 0)
  /\ (let s := run toy_parse toy_stringify toy_query toy_exchange
                 [Call 0; AccessToken 0 false; Opened 0]
                 (boot desktop (Content token_text)) in
      inflight s !! 0
      = Some (AwaitCallback
                (Attempt true Pending
                   (Some (JObject [("access_token", JString "t")])) []))
      /\ gmailClient (shared s) = None
      /\ listen_calls (shared s) = 1
      /\ outside (shared s) = Host (Content token_text) None [] 0).
Proof.
  apply (saved_token_is_checked_first toy_parse toy_stringify toy_query
           toy_exchange desktop token_text
           (JObject [("access_token", JString "t")]) 0);
    [repeat split | reflexivity | reflexivity].
Defined.

Lemma run_call_opened (JSON_parse : string -> thrown + json)
  (JSON_stringify : json -> string)
  (query_code : string -> option query_value)
  (getToken : query_value -> thrown + json)
  (s0 : system) (t' : nat) (e : environment) (h : host) (k : nat) :
  inflight s0 !! t' = None -> port s0 = None ->
  shared s0 = Process e None h k ->
  oauth_configured e -> unusable JSON_parse (token_file h) ->
  exists h' ts,
    run JSON_parse JSON_stringify query_code getToken [Call t'; Opened t'] s0
    = System (Process e None h' (S k)) ts (Some t') (unhandled s0)
    /\ ts !! t' = Some (AwaitCallback (Attempt true Pending None []))
    /\ token_file h' = token_file h.
Proof.
  intros Hfresh Hport Hshared He Hun.
  change (run JSON_parse JSON_stringify query_code getToken
            [Call t'; Opened t'] s0)
    with (step JSON_parse JSON_stringify query_code getToken
            (step JSON_parse JSON_stringify query_code getToken s0 (Call t'))
            (Opened t')).
  rewrite step_call by exact Hfresh. rewrite Hshared.
  destruct (initializeGmailClient_unusable JSON_parse e h k He Hun)
    as (h' & -> & Hfile & _).
  rewrite (step_opened _ _ _ _ _ _ None)
    by ((rewrite inflight_update; reflexivity) || exact Hport).
  unfold bound, update, opened.
  cbn [fst snd shared inflight env gmailClient outside listen_calls port
       unhandled].
  exists h'. eexists. split; [reflexivity|].
  split; [apply lookup_insert_eq | exact Hfile].
Qed.

(** X21: a timeout, like any rejection, is not remembered.  The waiting
    call ends with [Failed to initialize Gmail client: Authentication
    timeout]; [gmailClient], the token file and everything else the calls
    share stay as they were, and the timer has closed the server, so the
    next call (OAuth2 credentials, no usable token file, port 3000 not held
    by the server of a third call) starts the browser flow and a listener
    again. *)
Theorem timeout_is_not_cached (JSON_parse : string -> thrown + json)
  (JSON_stringify : json -> string)
  (query_code : string -> option query_value)
  (getToken : query_value -> thrown + json)
  (s : system) (t t' : nat) (a : attempt) :
  inflight s !! t = Some (AwaitCallback a) ->
  promise a = Pending ->
  port s = None \/ port s = Some t ->
  inflight s !! t' = None ->
  gmailClient (shared s) = None ->
  oauth_configured (env (shared s)) ->
  unusable JSON_parse (token_file (outside (shared s))) ->
  let s1 := step JSON_parse JSON_stringify query_code getToken s (Timeout t) in
  let s2 := run JSON_parse JSON_stringify query_code getToken
              [Call t'; Opened t'] s1 in
  inflight s1 !! t = Some (Failed (wrap timed_out))
  /\ shared s1 = shared s
  /\ inflight s2 !! t' = Some (AwaitCallback (Attempt true Pending None []))
  /\ listen_calls (shared s2) = S (listen_calls (shared s))
  /\ token_file (outside (shared s2)) = token_file (outside (shared s)).
Proof.
  intros Hin Hp Hport Hfresh Hnone He Hun. cbn zeta.
  assert (Hne : t <> t') by congruence.
  rewrite (step_timeout _ _ _ _ s t a Hin).
  assert (Hafter : after_callback (on_timeout a) (shared s)
                   = (Failed (wrap timed_out), shared s)).
  { unfold on_timeout, after_callback. cbn [promise]. now rewrite Hp. }
  rewrite Hafter.
  rewrite closed_holder by (reflexivity || exact Hport).
  set (s1 := System _ _ None _).
  assert (Hs1 : shared s1 = shared s) by reflexivity.
  assert (Hin1 : inflight s1 !! t = Some (Failed (wrap timed_out)))
    by (subst s1; cbn [inflight]; apply inflight_update).
  assert (Hfresh1 : inflight s1 !! t' = None)
    by (subst s1; cbn [inflight]; now rewrite inflight_update_ne).
  assert (Hport1 : port s1 = None) by reflexivity.
  clearbody s1.
  split; [exact Hin1|]. split; [exact Hs1|].
  destruct (shared s) as [e0 client h k] eqn:Hshared.
  cbn [gmailClient env outside] in Hnone, He, Hun. subst client.
  destruct (run_call_opened JSON_parse JSON_stringify query_code getToken
              s1 t' e0 h k Hfresh1 Hport1 Hs1 He Hun)
    as (h' & ts & -> & Hts & Hfile).
  cbn. auto.
Qed.

Lemma timeout_is_not_cached_witness :
  let s := run toy_parse toy_stringify toy_query toy_exchange
             [Call 0; Opened 0] (boot desktop Absent) in
  let s1 := step toy_parse toy_stringify toy_query toy_exchange s (Timeout 0) in
  let s2 := run toy_parse toy_stringify toy_query toy_exchange
              [Call 1; Opened 1] s1 in
  inflight s1 !! 0 = Some (Failed (wrap timed_out))
  /\ shared s1 = shared s
  /\ inflight s2 !! 1 = Some (AwaitCallback (Attempt true Pending None []))
  /\ listen_calls (shared s2) = S (listen_calls (shared s))
  /\ token_file (outside (shared s2)) = token_file (outside (shared s)).
Proof.
  apply (timeout_is_not_cached toy_parse toy_stringify toy_query toy_exchange
           (run toy_parse toy_stringify toy_query toy_exchange
              [Call 0; Opened 0] (boot desktop Absent))
           0 1 waiting);
    [reflexivity | reflexivity | right; reflexivity | reflexivity
     | reflexivity | repeat split | exact I].
Defined.

End AuthMore.

(** ** Which messages and threads the listing tools fetch *)

Module ListingMore.
Import Js Listing.



Section Fetches.

Variable toLowerCase : string -> string.
Variable G : Type.
Variable get_message : string -> G -> (thrown + list header) * G.
Variable get_thread :
  string -> G -> (thrown + option (list (list header))) * G.



End Fetches.


End ListingMore.

(** ** What a batch size of zero or below makes the gateway do *)

Module BatchStall.
Import Js Batch BatchMore.

Section Stall.

Variable G : Type.
Variable call : string -> G -> option string * G.
Variable pick : Q -> nat -> nat.
Variable messageIds : list string.
Variable batchSize : Q.

Local Notation iteration :=
  (BatchNum.iteration (G * list string) (logged call) pick messageIds
     batchSize).
Local Notation state_at :=
  (BatchNum.state_at (G * list string) (logged call) pick messageIds
     batchSize).
Local Notation chunk_of :=
  (BatchNum.chunk_of (G * list string) messageIds batchSize).
Local Notation index := (BatchNum.index (G * list string)).
Local Notation mailbox := (BatchNum.mailbox (G * list string)).

(** The ids a stalled loop has handed to the gateway once its index has
    come down to -1: all but the last [max(1, |trunc(batchSize)|)]. *)
Local Notation handed :=
  (take (length messageIds
         - Z.to_nat (Z.max 1 (- BatchNum.truncate batchSize))) messageIds).

Lemma iteration_log (s s' : BatchNum.loop_state (G * list string)) :
  iteration s = BatchNum.Next (G * list string) s' ->
  exists l, (mailbox s').2 = (mailbox s).2 ++ l /\ l ≡ₚ chunk_of s.
Proof.
  unfold BatchNum.iteration.
  destruct (BatchNum.lt (index s) _); [|discriminate].
  fold (chunk_of s).
  destruct (mailbox s) as [g0 log0].
  destruct (run_chunk (G * list string) (logged call)
              (fun _ => pick (index s)) 0 (chunk_of s) (g0, log0))
    as [[brs gl']|] eqn:Hrun; [|discriminate].
  intros [= <-]. cbn [BatchNum.mailbox snd].
  exact (run_chunk_log G call _ _ _ _ _ _ _ Hrun).
Qed.

Hypothesis nonempty : messageIds <> [].
Hypothesis nonpositive : (batchSize <= 0)%Q.

Lemma stalled_log (g : G) (n : nat) :
  exists st,
    state_at n (BatchNum.start (G * list string) (g, [])) = Some st
    /\ BatchNum.stalled (G * list string) batchSize st
    /\ (mailbox st).2 ≡ₚ if Qle_bool (index st) (-1) then handed else [].
Proof.
  induction n as [|n (st & Hst & Hinv & Hlog)].
  - exists (BatchNum.start (G * list string) (g, [])).
    split; [reflexivity|]. split; [|reflexivity].
    unfold BatchNum.stalled, BatchNum.start. cbn [BatchNum.index].
    split; [lra | left; reflexivity].
  - cbn [BatchNum.state_at]. rewrite Hst.
    destruct (BatchNum.stalled_next (G * list string) (logged call) pick
                messageIds batchSize nonempty nonpositive st Hinv)
      as (st' & Hit & Hinv').
    rewrite Hit. exists st'. split; [reflexivity|]. split; [exact Hinv'|].
    destruct (iteration_log st st' Hit) as (l & -> & Hl).
    pose proof (BatchNum.iteration_adds (G * list string) (logged call) pick
                  messageIds batchSize st st' Hit) as Hidx.
    rewrite (BatchNum.chunk_stalled (G * list string) messageIds batchSize
               nonpositive st Hinv) in Hl.
    rewrite Hidx.
    destruct (Qle_bool (index st) (-1)) eqn:Hlow.
    + apply Qle_bool_iff in Hlow.
      assert (Hlt : BatchNum.lt (-1) (index st) = false)
        by (now apply BatchNum.lt_false).
      rewrite Hlt in Hl. cbn [andb] in Hl.
      apply Permutation_nil_r in Hl. subst l. rewrite app_nil_r.
      assert (Hlow' : Qle_bool (index st + batchSize) (-1) = true)
        by (apply Qle_bool_iff; lra).
      now rewrite Hlow'.
    + assert (Hlt : BatchNum.lt (-1) (index st) = true).
      { apply BatchNum.lt_spec. apply Qnot_le_lt. intros Hle.
        apply Qle_bool_iff in Hle. congruence. }
      rewrite Hlt in Hl. cbn [andb] in Hl.
      apply Permutation_nil_r in Hlog. rewrite Hlog. exact Hl.
Qed.

End Stall.

(** X23: with a non-empty id list and a batch size of zero or below, whole
    or not, the loop never ends, yet it may already have acted.  As long
    as the loop index is above -1 no id has been handed to the gateway;
    once the index is at -1 or below, all ids except the last
    [max(1, |trunc(batchSize)|)] have been handed over, each once, and
    nothing is handed over after that.  A batch delete with a negative
    batch size therefore deletes those messages and then never answers. *)
Theorem stalled_loop_has_called (G : Type)
  (call : string -> G -> option string * G) (pick : Q -> nat -> nat)
  (messageIds : list string) (batchSize : Q) (g : G) (n : nat) :
  messageIds <> [] -> (batchSize <= 0)%Q ->
  (exists st,
      BatchNum.state_at (G * list string) (logged call) pick messageIds
        batchSize n (BatchNum.start (G * list string) (g, [])) = Some st
      /\ (BatchNum.index (G * list string) st <= 0)%Q
      /\ (BatchNum.mailbox (G * list string) st).2
         ≡ₚ if Qle_bool (BatchNum.index (G * list string) st) (-1)
            then take (length messageIds
                       - Z.to_nat (Z.max 1 (- BatchNum.truncate batchSize)))
                   messageIds
            else [])
  /\ forall fuel,
      BatchNum.batch_loop (G * list string) (logged call) pick messageIds
        batchSize fuel (BatchNum.start (G * list string) (g, []))
      = Running (G * list string).
Proof.
  intros Hne Hc. split.
  - destruct (stalled_log G call pick messageIds batchSize Hne Hc g n)
      as (st & Hst & Hinv & Hlog).
    exists st. split; [exact Hst|]. split; [apply Hinv | exact Hlog].
  - intros fuel. apply BatchNum.batch_loop_stalled; [exact Hne | exact Hc |].
    unfold BatchNum.stalled, BatchNum.start. cbn [BatchNum.index].
    split; [lra | left; reflexivity].
Qed.

Lemma stalled_loop_has_called_witness :
  (exists st,
      BatchNum.state_at (nat * list string) (logged reject_m2) (fun _ t => t)
        ["m1"; "m2"; "m3"] (- (1 # 2)) 4
        (BatchNum.start (nat * list string) (0, [])) = Some st
      /\ (BatchNum.index (nat * list string) st <= 0)%Q
      /\ (BatchNum.mailbox (nat * list string) st).2
         ≡ₚ if Qle_bool (BatchNum.index (nat * list string) st) (-1)
            then take (length ["m1"; "m2"; "m3"]
                       - Z.to_nat (Z.max 1 (- BatchNum.truncate (- (1 # 2)))))
                   ["m1"; "m2"; "m3"]
            else [])
  /\ forall fuel,
      BatchNum.batch_loop (nat * list string) (logged reject_m2)
        (fun _ t => t) ["m1"; "m2"; "m3"] (- (1 # 2)) fuel
        (BatchNum.start (nat * list string) (0, []))
      = Running (nat * list string).
Proof.
  apply (stalled_loop_has_called nat reject_m2 (fun _ t => t)
           ["m1"; "m2"; "m3"] (- (1 # 2)) 0 4); [discriminate | discriminate].
Defined.

(** With [batchSize = -0.5] nothing is handed over in the first iteration
    and the first two of three ids in the second; with [batchSize = -1]
    they are handed over in the first. *)
Example negative_batch_calls :
  map (fun n =>
         option_map (fun st => (BatchNum.mailbox (nat * list string) st).2)
           (BatchNum.state_at (nat * list string) (logged reject_m2)
              (fun _ t => t) ["m1"; "m2"; "m3"] (- (1 # 2)) n
              (BatchNum.start (nat * list string) (0, []))))
    [0; 1; 2; 3]
  = [Some []; Some []; Some ["m1"; "m2"]; Some ["m1"; "m2"]]
  /\ map (fun n =>
            option_map (fun st => (BatchNum.mailbox (nat * list string) st).2)
              (BatchNum.state_at (nat * list string) (logged reject_m2)
                 (fun _ t => t) ["m1"; "m2"; "m3"] (-1) n
                 (BatchNum.start (nat * list string) (0, []))))
       [0; 1; 2]
     = [Some []; Some ["m1"; "m2"]; Some ["m1"; "m2"]].
Proof. split; vm_compute; reflexivity. Qed.

End BatchStall.
